(** * DeepseekV3: MoE gate, expert dispatch, decoupled rotary embedding and
    latent attention (modular_deepseek_v3.py)

    Tensors of floating-point numbers are modelled over the real numbers:
    a vector is a [list R], a matrix a list of rows, and a tensor of higher
    rank a nested list.  Index tensors are lists of [nat].  Operations that
    raise in PyTorch return [None]. *)

From Stdlib Require Import Reals Lra Lia ZArith.
From stdpp Require Import base option list sorting gmap strings.

Open Scope R_scope.

(** ** Vectors and row-wise tensor operations *)

Module Tensor.

Abbreviation vec := (list R).

(** Reading past the end of a list with [!!!] yields this default; the
    operations below guard their indices, so it is never observed. *)
#[global] Instance R_inhabited : Inhabited R := populate 0.

Definition Rsum (xs : vec) : R := foldr Rplus 0 xs.

Definition vadd (a b : vec) : vec := zip_with Rplus a b.
Definition vmul (a b : vec) : vec := zip_with Rmult a b.
Definition vneg (a : vec) : vec := map Ropp a.
Definition vscale (c : R) (a : vec) : vec := map (Rmult c) a.

Definition dot (a b : vec) : R := Rsum (vmul a b).

(** [F.linear(x, W)] on one row: out[j] = sum_i x[i] * W[j][i]. *)
Definition F_linear (x : vec) (W : list vec) : vec := map (dot x) W.

(** A matrix of shape ([rows], [cols]), as a list of rows. *)
Definition has_shape (rows cols : nat) (W : list vec) : Prop :=
  length W = rows /\ Forall (fun row => length row = cols) W.

(** [nn.Linear]: weight of shape (out_features, in_features), optional bias.
    [Linear_forward] is the layer on a row of [in_features] channels; the
    error of [F.linear] on a row of another width is modelled where the
    shapes of the weights are part of the module, in [Gate.forward] and in
    [MoE.forward]. *)
Record Linear := { lin_weight : list vec; lin_bias : option vec }.

Definition Linear_forward (l : Linear) (x : vec) : vec :=
  match lin_bias l with
  | None => F_linear x (lin_weight l)
  | Some b => vadd (F_linear x (lin_weight l)) b
  end.

(** [x.view(..., n, -1)] on the last dimension: cut a row into [n] consecutive
    pieces of width [length x / n]. *)
Definition chunks (n : nat) (x : vec) : list vec :=
  let w := (length x / n)%nat in
  map (fun i => take w (drop (i * w) x)) (seq 0 n).

(** [transpose] of the two outer axes of a nested list whose inner axis has
    size [m]: result[j][i] = x[i][j]. *)
Definition transpose {A} `{Inhabited A} (m : nat) (x : list (list A)) : list (list A) :=
  map (fun j => map (fun row => row !!! j) x) (seq 0 m).

Lemma Rsum_app (a b : vec) : Rsum (a ++ b) = Rsum a + Rsum b.
Proof. induction a as [|x a IH]; simpl; [lra | rewrite IH; lra]. Qed.


Lemma Rsum_nonneg (a : vec) : Forall (fun x => 0 <= x) a -> 0 <= Rsum a.
Proof. induction 1; simpl; lra. Qed.

Lemma length_vadd (a b : vec) : length (vadd a b) = (length a `min` length b)%nat.
Proof. apply length_zip_with. Qed.

Lemma length_vmul (a b : vec) : length (vmul a b) = (length a `min` length b)%nat.
Proof. apply length_zip_with. Qed.

Lemma Rsum_Permutation (a b : vec) : a ≡ₚ b -> Rsum a = Rsum b.
Proof. induction 1; simpl; lra. Qed.

Lemma dot_app (a b c d : vec) :
  length a = length c -> dot (a ++ b) (c ++ d) = dot a c + dot b d.
Proof.
  intros Hl. unfold dot, vmul. rewrite zip_with_app by exact Hl. apply Rsum_app.
Qed.

Lemma dot_diag (x : vec) : dot x x = Rsum (map (fun a => a * a) x).
Proof. unfold dot, vmul. induction x as [|a x IH]; simpl; [reflexivity | rewrite IH; reflexivity]. Qed.


(** *** Broadcasting *)

(** An operation applied along one axis with the broadcasting rule of
    PyTorch: the two sizes are equal, or one of them is 1 and its single entry
    is used throughout. *)
Definition broadcast {A B C} (f : A -> B -> option C) (xs : list A) (ys : list B)
    : option (list C) :=
  if decide (length xs = length ys) then mapM (fun p : A * B => f p.1 p.2) (zip xs ys)
  else match xs, ys with
       | [x], _ => mapM (f x) ys
       | _, [y] => mapM (fun x => f x y) xs
       | _, _ => None
       end.

(** [dst[...] = src] along one axis: [src] has the size of [dst], or size 1. *)
Definition expand_to {A B} (f : A -> B -> option A) (dst : list A) (src : list B)
    : option (list A) :=
  if decide (length src = length dst) then mapM (fun p : A * B => f p.1 p.2) (zip dst src)
  else match src with
       | [y] => mapM (fun x => f x y) dst
       | _ => None
       end.

(** [rs] has the entries of [xs] in place, or [xs] is a single entry that
    stands for all of them. *)
Definition extends {A C} (P : A -> C -> Prop) (xs : list A) (rs : list C) : Prop :=
  Forall2 P xs rs \/ exists x, xs = [x] /\ Forall (P x) rs.

Lemma mapM_zip_Some {A B C} (f : A -> B -> option C) (xs : list A) (ys : list B) (rs : list C) :
  length xs = length ys ->
  mapM (fun p : A * B => f p.1 p.2) (zip xs ys) = Some rs ->
  Forall2 (fun x r => exists y, y ∈ ys /\ f x y = Some r) xs rs
  /\ Forall2 (fun y r => exists x, x ∈ xs /\ f x y = Some r) ys rs.
Proof.
  intros Hlen Hm. apply mapM_Some_1 in Hm. revert ys rs Hlen Hm.
  induction xs as [|x xs IH]; intros [|y ys] rs Hlen Hm; simpl in *; try discriminate.
  - inversion Hm; subst. split; constructor.
  - inversion Hm as [|? r ? rs' Hr Hrs]; subst. simpl in Hr.
    destruct (IH ys rs' ltac:(lia) Hrs) as [H1 H2]. split.
    + constructor; [exists y; split; [left | exact Hr]|].
      eapply Forall2_impl; [exact H1|]. intros a c (b & Hb & Hc). exists b. split; [right|]; assumption.
    + constructor; [exists x; split; [left | exact Hr]|].
      eapply Forall2_impl; [exact H2|]. intros b c (a & Ha & Hc). exists a. split; [right|]; assumption.
Qed.

Lemma mapM_const_Some {A B} (f : A -> option B) (xs : list A) (rs : list B) :
  mapM f xs = Some rs -> Forall2 (fun x r => x ∈ xs /\ f x = Some r) xs rs.
Proof.
  intros Hm. apply mapM_Some_1 in Hm.
  induction Hm as [|x r xs rs Hr _ IH]; constructor; [split; [left | exact Hr]|].
  eapply Forall2_impl; [exact IH|]. intros a c [Ha Hc]. split; [right|]; assumption.
Qed.

Lemma broadcast_zip {A B C} (f : A -> B -> option C) (xs : list A) (ys : list B) :
  length xs = length ys ->
  broadcast f xs ys = mapM (fun p : A * B => f p.1 p.2) (zip xs ys).
Proof. intros Hlen. unfold broadcast. rewrite decide_True by exact Hlen. reflexivity. Qed.

Lemma broadcast_singleton_r {A B C} (f : A -> B -> option C) (xs : list A) (y : B) :
  broadcast f xs [y] = mapM (fun x => f x y) xs.
Proof.
  unfold broadcast. destruct (decide (length xs = length [y])) as [Hl|Hl].
  - destruct xs as [|x [|? ?]]; try discriminate Hl. reflexivity.
  - destruct xs as [|x [|x' xs]]; reflexivity.
Qed.

Lemma broadcast_Forall2 {A B C} (f : A -> B -> option C) (g : A -> B -> C)
    (xs : list A) (ys : list B) :
  Forall2 (fun x y => f x y = Some (g x y)) xs ys ->
  broadcast f xs ys = Some (zip_with g xs ys).
Proof.
  intros H. rewrite broadcast_zip by (eapply Forall2_length, H).
  apply mapM_Some_2. induction H as [|x y xs ys Hxy _ IH]; simpl; constructor; assumption.
Qed.

Lemma broadcast_Forall {A B C} (f : A -> B -> option C) (g : A -> B -> C)
    (xs : list A) (y : B) :
  Forall (fun x => f x y = Some (g x y)) xs ->
  broadcast f xs [y] = Some (map (fun x => g x y) xs).
Proof.
  intros H. rewrite broadcast_singleton_r. apply mapM_Some_2.
  induction H as [|x xs Hx _ IH]; simpl; constructor; assumption.
Qed.

(** Every entry of a broadcast result comes from an entry of each operand. *)
Lemma broadcast_elem_of {A B C} (f : A -> B -> option C) (R : C -> Prop)
    (xs : list A) (ys : list B) (rs : list C) :
  (forall x y c, x ∈ xs -> y ∈ ys -> f x y = Some c -> R c) ->
  broadcast f xs ys = Some rs -> Forall R rs.
Proof.
  intros HR. unfold broadcast. destruct (decide _) as [Hl|Hl].
  - intros Hm. destruct (mapM_zip_Some f xs ys rs Hl Hm) as [H1 _].
    apply (Forall2_Forall_r _ _ _ _ H1). apply Forall_forall. intros x Hx r (y & Hy & Hr).
    exact (HR x y r Hx Hy Hr).
  - destruct xs as [|x [|x' xs]].
    + destruct ys as [|y [|? ?]]; try discriminate.
      intros [= <-]. constructor.
    + intros Hm. apply mapM_const_Some in Hm.
      apply (Forall2_Forall_r _ _ _ _ Hm).
      apply Forall_forall. intros y Hy r [_ Hr]. apply (HR x y r); [left | exact Hy | exact Hr].
    + destruct ys as [|y [|? ?]]; try discriminate.
      intros Hm. apply mapM_const_Some in Hm.
      apply (Forall2_Forall_r _ _ _ _ Hm).
      apply Forall_forall. intros a Ha r [_ Hr]. apply (HR a y r); [exact Ha | left | exact Hr].
Qed.

Lemma broadcast_extends_l {A B C} (f : A -> B -> option C) (P : A -> C -> Prop)
    (xs : list A) (ys : list B) (rs : list C) :
  (forall x y c, x ∈ xs -> y ∈ ys -> f x y = Some c -> P x c) ->
  broadcast f xs ys = Some rs -> extends P xs rs.
Proof.
  intros HP. unfold broadcast, extends. destruct (decide _) as [Hl|Hl].
  - intros Hm. destruct (mapM_zip_Some f xs ys rs Hl Hm) as [H1 _]. left.
    apply Forall2_same_length_lookup_2; [eapply Forall2_length, H1|].
    intros i x r Hx Hr. destruct (Forall2_lookup_lr _ _ _ _ _ _ H1 Hx Hr) as (y & Hy & Hf).
    apply (HP x y r); [eapply list_elem_of_lookup_2, Hx | exact Hy | exact Hf].
  - destruct xs as [|x [|x' xs]].
    + destruct ys as [|y [|? ?]]; try discriminate.
      intros [= <-]. left. constructor.
    + intros Hm. right. exists x. split; [reflexivity|]. apply mapM_const_Some in Hm.
      apply (Forall2_Forall_r _ _ _ _ Hm).
      apply Forall_forall. intros y Hy r [_ Hr]. apply (HP x y r); [left | exact Hy | exact Hr].
    + destruct ys as [|y [|? ?]]; try discriminate.
      intros Hm. left. apply mapM_const_Some in Hm.
      eapply Forall2_impl; [exact Hm|]. intros a r [Ha Hr]. apply (HP a y r); [exact Ha | left | exact Hr].
Qed.

Lemma broadcast_length {A B C} (f : A -> B -> option C)
    (xs : list A) (ys : list B) (rs : list C) :
  broadcast f xs ys = Some rs -> length rs = length xs \/ length rs = length ys.
Proof.
  unfold broadcast. destruct (decide _) as [Hl|Hl].
  - intros Hm. apply length_mapM in Hm. rewrite length_zip in Hm. lia.
  - destruct xs as [|x [|x' xs]].
    + destruct ys as [|y [|? ?]]; try discriminate. intros [= <-]. left. reflexivity.
    + intros Hm. apply length_mapM in Hm. right. lia.
    + destruct ys as [|y [|? ?]]; try discriminate.
      intros Hm. apply length_mapM in Hm. left. lia.
Qed.

Lemma extends_impl {A C} (P Q : A -> C -> Prop) (xs : list A) (rs : list C) :
  (forall x r, x ∈ xs -> r ∈ rs -> P x r -> Q x r) -> extends P xs rs -> extends Q xs rs.
Proof.
  intros HPQ [H|(x & -> & H)]; [left | right].
  - apply Forall2_same_length_lookup_2; [eapply Forall2_length, H|].
    intros i x r Hx Hr. apply HPQ; try (eapply list_elem_of_lookup_2; eassumption).
    exact (Forall2_lookup_lr _ _ _ _ _ _ H Hx Hr).
  - exists x. split; [reflexivity|]. apply Forall_forall. intros r Hr.
    apply HPQ; [left | exact Hr |]. rewrite Forall_forall in H. apply H, Hr.
Qed.

Lemma extends_trans {A B C} (P : A -> B -> Prop) (Q : B -> C -> Prop)
    (xs : list A) (ys : list B) (zs : list C) :
  extends P xs ys -> extends Q ys zs ->
  extends (fun x z => exists y, P x y /\ Q y z) xs zs.
Proof.
  intros [HP|(x & -> & HP)] [HQ|(y & -> & HQ)].
  - left. revert zs HQ. induction HP as [|x y xs ys Hxy _ IH]; intros zs HQ;
      inversion HQ; subst; constructor; eauto.
  - inversion HP as [|x ? ? ? Hxy Hnil]; subst. inversion Hnil; subst.
    right. exists x. split; [reflexivity|].
    eapply Forall_impl; [exact HQ|]. intros z Hz. exists y. split; assumption.
  - right. exists x. split; [reflexivity|].
    induction HQ as [|y z ys zs Hyz _ IH]; [constructor|].
    apply Forall_cons in HP as [Hy HP]. constructor; [exists y; split; assumption | apply IH, HP].
  - right. exists x. split; [reflexivity|].
    apply Forall_cons in HP as [Hy _].
    eapply Forall_impl; [exact HQ|]. intros z Hz. exists y. split; assumption.
Qed.

Lemma extends_fmap {A} (P : A -> A -> Prop) (f : A -> A) (xs : list A) :
  Forall (fun x => P x (f x)) xs -> extends P xs (map f xs).
Proof.
  intros H. left. apply Forall2_fmap_r, Forall_Forall2_diag. exact H.
Qed.

Lemma expand_to_zip {A B} (f : A -> B -> option A) (dst : list A) (src : list B) :
  length src = length dst ->
  expand_to f dst src = mapM (fun p : A * B => f p.1 p.2) (zip dst src).
Proof. intros Hlen. unfold expand_to. rewrite decide_True by exact Hlen. reflexivity. Qed.

Lemma expand_to_singleton {A B} (f : A -> B -> option A) (dst : list A) (y : B) :
  expand_to f dst [y] = mapM (fun x => f x y) dst.
Proof.
  unfold expand_to. destruct (decide (length [y] = length dst)) as [Hl|Hl]; [|reflexivity].
  destruct dst as [|x [|? ?]]; try discriminate Hl. reflexivity.
Qed.

End Tensor.
Import Tensor.

(** ** Attention scaling: [yarn_get_mscale] and [DeepseekV3Attention.__init__] *)

Module Scaling.

(** [yarn_get_mscale(scale=1, mscale=1)] *)
Definition yarn_get_mscale (scale mscale : R) : R :=
  if Rle_dec scale 1 then 1 else 0.1 * mscale * ln scale + 1.

(** The part of the configuration read by the scaling code.  [rope_scaling]
    is an optional dictionary; only its numeric entries are modelled. *)
Record Config := {
  q_head_dim : nat;
  rope_scaling : option (gmap string R);
}.

(** [self.scaling] as computed at the end of [DeepseekV3Attention.__init__].
    [None] stands for an exception: [0 ** (-0.5)] raises ZeroDivisionError and
    [rope_scaling["factor"]] raises KeyError when the key is absent. *)
Definition init_scaling (config : Config) : option R :=
  if decide (q_head_dim config = 0%nat) then None
  else
    let scaling := Rpower (INR (q_head_dim config)) (-0.5) in
    match rope_scaling config with
    | None => Some scaling
    | Some rs =>
        let mscale_all_dim := default 0 (rs !! "mscale_all_dim"%string) in
        scaling_factor ← rs !! "factor"%string;
        if Req_dec_T mscale_all_dim 0 then Some scaling
        else
          let mscale := yarn_get_mscale scaling_factor mscale_all_dim in
          Some (scaling * mscale * mscale)
    end.

(** The YaRN correction as the specification words it. *)
Definition spec_mscale (scale mscale_all_dim : R) : R :=
  if Rle_dec scale 1 then 1 else 0.1 * mscale_all_dim * ln scale + 1.

Lemma yarn_get_mscale_le (scale m : R) : scale <= 1 -> yarn_get_mscale scale m = 1.
Proof. intros H. unfold yarn_get_mscale. destruct (Rle_dec scale 1); [reflexivity | contradiction]. Qed.

Lemma yarn_get_mscale_gt (scale m : R) :
  1 < scale -> yarn_get_mscale scale m = 0.1 * m * ln scale + 1.
Proof. intros H. unfold yarn_get_mscale. destruct (Rle_dec scale 1); [lra | reflexivity]. Qed.

Lemma Rpower_neg_half (x : R) : 0 < x -> Rpower x (-0.5) = / sqrt x.
Proof.
  intros Hx. replace (-0.5) with (- (/ 2)) by lra.
  rewrite Rpower_Ropp, Rpower_sqrt by assumption. reflexivity.
Qed.

(** C8. With [rope_scaling] unset the attention scaling is
    [q_head_dim ^ -0.5]; when [rope_scaling] is set with a non-zero
    [mscale_all_dim] it is [q_head_dim ^ -0.5 * mscale^2], where [mscale] is 1
    for a scale factor at most 1 and [0.1 * mscale_all_dim * ln scale + 1]
    otherwise. *)
Theorem scaling_formula (q : nat) (rs : gmap string R) (factor m : R) :
  q <> 0%nat ->
  rs !! "factor"%string = Some factor ->
  rs !! "mscale_all_dim"%string = Some m ->
  m <> 0 ->
  init_scaling {| q_head_dim := q; rope_scaling := None |}
    = Some (Rpower (INR q) (-0.5))
  /\ init_scaling {| q_head_dim := q; rope_scaling := Some rs |}
    = Some (Rpower (INR q) (-0.5) * (spec_mscale factor m) ^ 2)
  /\ (factor <= 1 -> spec_mscale factor m = 1)
  /\ (1 < factor -> spec_mscale factor m = 0.1 * m * ln factor + 1)
  /\ Rpower (INR q) (-0.5) = / sqrt (INR q).
Proof.
  intros Hq Hf Hm Hm0. unfold init_scaling; simpl.
  destruct (decide (q = 0%nat)) as [->|_]; [contradiction|].
  rewrite Hf, Hm; simpl.
  destruct (Req_dec_T m 0) as [E|_]; [contradiction|].
  repeat split.
  - f_equal. unfold spec_mscale, yarn_get_mscale. ring.
  - apply yarn_get_mscale_le.
  - apply yarn_get_mscale_gt.
  - apply Rpower_neg_half. apply lt_0_INR. lia.
Qed.

(** The example of the specification: scale 4, [mscale_all_dim] 1, on a head
    dimension of 192. *)
Lemma scaling_formula_witness :
  let rs : gmap string R := <["factor"%string := 4]> (<["mscale_all_dim"%string := 1]> ∅) in
  init_scaling {| q_head_dim := 192; rope_scaling := Some rs |}
    = Some (Rpower (INR 192) (-0.5) * (spec_mscale 4 1) ^ 2)
  /\ spec_mscale 4 1 = 0.1 * 1 * ln 4 + 1.
Proof.
  intros rs.
  assert (Hq : 192%nat <> 0%nat) by lia.
  assert (Hf : rs !! "factor"%string = Some 4) by reflexivity.
  assert (Hm : rs !! "mscale_all_dim"%string = Some 1) by reflexivity.
  assert (Hm0 : (1:R) <> 0) by lra.
  pose proof (scaling_formula 192 rs 4 1 Hq Hf Hm Hm0) as (_ & H2 & _ & H4 & _).
  split; [exact H2 | apply H4; lra].
Defined.

(** *** Further properties of the scaling *)

Lemma yarn_get_mscale_ge_1 (scale m : R) : 0 <= m -> 1 <= yarn_get_mscale scale m.
Proof.
  intros Hm. unfold yarn_get_mscale. destruct (Rle_dec scale 1) as [_|Hgt]; [lra|].
  assert (Hln : 0 < ln scale) by (rewrite <- ln_1; apply ln_increasing; lra).
  assert (0 <= m * ln scale) by (apply Rmult_le_pos; lra). lra.
Qed.

(** X1. With a non-negative [mscale_all_dim] the YaRN correction is at least
    1, so a [rope_scaling] entry never makes [self.scaling] smaller than
    [q_head_dim ^ -0.5]. *)
Theorem yarn_never_reduces_scaling (q : nat) (rs : gmap string R) (factor m : R) :
  q <> 0%nat ->
  rs !! "factor"%string = Some factor ->
  rs !! "mscale_all_dim"%string = Some m ->
  0 <= m ->
  1 <= yarn_get_mscale factor m
  /\ exists plain scaled,
       init_scaling {| q_head_dim := q; rope_scaling := None |} = Some plain
       /\ init_scaling {| q_head_dim := q; rope_scaling := Some rs |} = Some scaled
       /\ 0 < plain <= scaled.
Proof.
  intros Hq Hf Hm Hm0. pose proof (yarn_get_mscale_ge_1 factor m Hm0) as Hms.
  split; [exact Hms|].
  assert (Hpos : 0 < Rpower (INR q) (-0.5)) by (unfold Rpower; apply exp_pos).
  unfold init_scaling; simpl.
  destruct (decide (q = 0%nat)) as [->|_]; [contradiction|].
  rewrite Hf, Hm; simpl.
  destruct (Req_dec_T m 0) as [_|_]; eexists _, _; (split; [reflexivity|]);
    (split; [reflexivity|]); split; try lra.
  assert (1 <= yarn_get_mscale factor m * yarn_get_mscale factor m) by nra.
  rewrite Rmult_assoc. nra.
Qed.

Lemma yarn_never_reduces_scaling_witness :
  let rs : gmap string R := <["factor"%string := 40]> (<["mscale_all_dim"%string := 1]> ∅) in
  1 <= yarn_get_mscale 40 1
  /\ exists plain scaled,
       init_scaling {| q_head_dim := 192; rope_scaling := None |} = Some plain
       /\ init_scaling {| q_head_dim := 192; rope_scaling := Some rs |} = Some scaled
       /\ 0 < plain <= scaled.
Proof.
  intros rs.
  apply (yarn_never_reduces_scaling 192 rs 40 1); [lia | reflexivity | reflexivity | lra].
Defined.

(** X2. The exceptional and the neutral configurations of
    [__init__]: a [rope_scaling] dictionary without ["factor"] raises, even
    when it requests no correction; a zero head dimension raises; and with a
    factor but a missing or zero [mscale_all_dim] the scaling stays
    [q_head_dim ^ -0.5], whatever the factor. *)
Theorem init_scaling_edge_cases (q : nat) (rs : gmap string R) :
  (rs !! "factor"%string = None ->
     init_scaling {| q_head_dim := q; rope_scaling := Some rs |} = None)
  /\ (forall scaling_config, init_scaling {| q_head_dim := 0; rope_scaling := scaling_config |} = None)
  /\ (q <> 0%nat -> is_Some (rs !! "factor"%string) ->
      (rs !! "mscale_all_dim"%string = None \/ rs !! "mscale_all_dim"%string = Some 0) ->
      init_scaling {| q_head_dim := q; rope_scaling := Some rs |} = Some (Rpower (INR q) (-0.5))).
Proof.
  split; [| split].
  - intros Hf. unfold init_scaling; simpl.
    destruct (decide (q = 0%nat)); [reflexivity|]. rewrite Hf. reflexivity.
  - intros sc. reflexivity.
  - intros Hq [factor Hf] Hm. unfold init_scaling; simpl.
    destruct (decide (q = 0%nat)) as [->|_]; [contradiction|]. rewrite Hf; simpl.
    destruct Hm as [-> | ->]; simpl; destruct (Req_dec_T 0 0); try reflexivity; lra.
Qed.

Lemma init_scaling_edge_cases_witness :
  init_scaling {| q_head_dim := 192;
                  rope_scaling := Some (<["mscale_all_dim"%string := 1]> ∅) |} = None
  /\ init_scaling {| q_head_dim := 192;
                     rope_scaling := Some (<["factor"%string := 40]> ∅) |}
     = Some (Rpower (INR 192) (-0.5)).
Proof.
  destruct (init_scaling_edge_cases 192 (<["mscale_all_dim"%string := 1]> ∅)) as (H1 & _ & _).
  destruct (init_scaling_edge_cases 192 (<["factor"%string := 40]> ∅)) as (_ & _ & H3).
  split; [apply H1; reflexivity|].
  apply H3; [lia | eexists; reflexivity | left; reflexivity].
Defined.

End Scaling.

(** ** Decoupled rotary position embedding: [apply_rotary_pos_emb] *)

Module Rotary.

(** Tensors of rank 4, indexed [batch][head][position][channel], and the
    cos/sin tables, indexed [batch][position][channel]. *)
Abbreviation tensor4 := (list (list (list vec))).
Abbreviation tensor3 := (list (list vec)).

(** Modelled from the spec: [rotate_half] is imported from the Llama model and
    is not part of the source file; the specification calls it the standard
    rotate-half of the rotary formula: the second half of the channels,
    negated, followed by the first half. *)
Definition rotate_half (x : vec) : vec :=
  let half := (length x / 2)%nat in
  vneg (drop half x) ++ take half x.

(** [x.view(..., d // 2, 2).transpose(4, 3).reshape(..., d)] on one row:
    entry [j * (d/2) + i] of the result is entry [2 * i + j] of [x]. *)
Definition pair_interleave (x : vec) : vec :=
  let d := length x in
  mjoin (map (fun j => map (fun i => x !!! (2 * i + j)%nat) (seq 0 (d / 2))) (seq 0 2)).

(** [(x * cos) + (rotate_half(x) * sin)] on one row. *)
Definition rope_formula (x cos sin : vec) : vec :=
  vadd (vmul x cos) (vmul (rotate_half x) sin).

(** What [apply_rotary_pos_emb] does to one row of [q] (or of [k]). *)
Definition rotary_row (x cos sin : vec) : vec :=
  rope_formula (pair_interleave x) cos sin.

(** A function applied to every row of a rank-4 tensor. *)
Definition tmap4 (f : vec -> vec) (t : tensor4) : tensor4 := map (map (map f)) t.

(** An elementwise operation on two rank-4 tensors, with the broadcasting of
    PyTorch along every axis. *)
Definition elementwise (f : R -> R -> R) : tensor4 -> tensor4 -> option tensor4 :=
  broadcast (broadcast (broadcast (broadcast (fun a b => Some (f a b))))).

(** [table.unsqueeze(1)]: a head axis of size one. *)
Definition unsqueeze (table : tensor3) : tensor4 := map (fun tb => [tb]) table.

(** [(x * cos) + (rotate_half(x) * sin)] on whole tensors. *)
Definition rotate (x cos sin : tensor4) : option tensor4 :=
  x_cos ← elementwise Rmult x cos;
  r_sin ← elementwise Rmult (tmap4 rotate_half x) sin;
  elementwise Rplus x_cos r_sin.

(** [x.view(b, h, s, d // 2, 2)] needs an even last dimension. *)
Definition last_dim_even (x : tensor4) : bool :=
  forallb (forallb (forallb (fun row => Nat.even (length row)))) x.

(** [apply_rotary_pos_emb] with the default [unsqueeze_dim=1], on [q] and [k]
    indexed [batch][head][position][channel] and tables indexed
    [batch][position][channel].  The views raise on an odd last dimension;
    the products and the sums raise when two sizes along an axis differ and
    neither is 1. *)
Definition apply_rotary_pos_emb (q k : tensor4) (cos sin : tensor3)
    : option (tensor4 * tensor4) :=
  let cos := unsqueeze cos in
  let sin := unsqueeze sin in
  if last_dim_even q && last_dim_even k then
    let q := tmap4 pair_interleave q in
    let k := tmap4 pair_interleave k in
    q_embed ← rotate q cos sin;
    k_embed ← rotate k cos sin;
    Some (q_embed, k_embed)
  else None.

(** A row operation applied to every row of [x], with the rows of tables
    that have the batch size and the positions of [x]. *)
Definition broadcast_rows (f : vec -> vec -> vec -> vec)
    (x : tensor4) (cos sin : tensor3) : tensor4 :=
  zip_with (fun xb cs =>
      map (fun xh => zip_with (fun row (p : vec * vec) => f row p.1 p.2) xh cs) xb)
    x (zip_with zip cos sin).

(** A table with the batch size, the positions and the channels of [x]: the
    case in which nothing is expanded. *)
Definition same_shape (x : tensor4) (table : tensor3) : Prop :=
  Forall2 (fun xb tb =>
    Forall (fun xh => Forall2 (fun (row t : vec) => length row = length t) xh tb) xb)
    x table.

(** The cos/sin tables of an angle tensor [theta], indexed
    [batch][position][frequency]: the rotary table repeats the angles over
    the two halves of the channels ([emb = cat(freqs, freqs)]). *)
Definition cos_table (theta : tensor3) : tensor3 :=
  map (map (fun t => map cos (t ++ t))) theta.
Definition sin_table (theta : tensor3) : tensor3 :=
  map (map (fun t => map sin (t ++ t))) theta.
Definition neg_angles (theta : tensor3) : tensor3 := map (map vneg) theta.

(** [x] is a tensor whose rows are twice as wide as the rows of [theta]. *)
Definition shaped_like (x : tensor4) (theta : tensor3) : Prop :=
  Forall2 (fun xb tb =>
    Forall (fun xh => Forall2 (fun (row t : vec) => length row = (2 * length t)%nat) xh tb) xb)
    x theta.

Example pair_interleave_8 :
  pair_interleave [1; 2; 3; 4; 5; 6; 7; 8] = [1; 3; 5; 7; 2; 4; 6; 8].
Proof. reflexivity. Qed.

Example rotate_half_4 (a b c d : R) : rotate_half [a; b; c; d] = [- c; - d; a; b].
Proof. reflexivity. Qed.


(** *** Algebra of the rotation stage *)

Lemma rotate_half_app (a b : vec) :
  length a = length b -> rotate_half (a ++ b) = vneg b ++ a.
Proof.
  intros Hab. unfold rotate_half.
  assert (Hhalf : (length (a ++ b) / 2 = length a)%nat).
  { rewrite length_app, <- Hab. replace (length a + length a)%nat with (length a * 2)%nat by lia.
    apply Nat.div_mul. lia. }
  rewrite Hhalf, drop_app_length, take_app_length. reflexivity.
Qed.

Lemma rope_formula_halves (a b c s : vec) :
  length a = length b -> length a = length c -> length a = length s ->
  rope_formula (a ++ b) (c ++ c) (s ++ s)
  = vadd (vmul a c) (vmul (vneg b) s) ++ vadd (vmul b c) (vmul a s).
Proof.
  intros Hb Hc Hs. unfold rope_formula. rewrite rotate_half_app by assumption.
  unfold vadd, vmul, vneg.
  rewrite !zip_with_app; try reflexivity;
    rewrite ?length_zip_with, ?length_map; lia.
Qed.

(** Rotating a pair of halves by [(c, s)] and then by [(c, -s)] gives the pair
    back when [c^2 + s^2 = 1]. *)
Lemma unrotate_first (a b c s : vec) :
  length a = length b -> length a = length c -> length a = length s ->
  Forall2 (fun x y => x * x + y * y = 1) c s ->
  vadd (vmul (vadd (vmul a c) (vmul (vneg b) s)) c)
       (vmul (vneg (vadd (vmul b c) (vmul a s))) (vneg s)) = a.
Proof.
  intros Hb Hc Hs Hcs. revert a b Hb Hc Hs.
  induction Hcs as [|c0 s0 c s H1 _ IH]; intros [|a0 a] [|b0 b]; simpl; try discriminate; auto.
  intros Hb Hc Hs. f_equal.
  - transitivity (a0 * (c0 * c0 + s0 * s0)); [ring | rewrite H1; ring].
  - apply IH; lia.
Qed.

Lemma unrotate_second (a b c s : vec) :
  length a = length b -> length a = length c -> length a = length s ->
  Forall2 (fun x y => x * x + y * y = 1) c s ->
  vadd (vmul (vadd (vmul b c) (vmul a s)) c)
       (vmul (vadd (vmul a c) (vmul (vneg b) s)) (vneg s)) = b.
Proof.
  intros Hb Hc Hs Hcs. revert a b Hb Hc Hs.
  induction Hcs as [|c0 s0 c s H1 _ IH]; intros [|a0 a] [|b0 b]; simpl; try discriminate; auto.
  intros Hb Hc Hs. f_equal.
  - transitivity (b0 * (c0 * c0 + s0 * s0)); [ring | rewrite H1; ring].
  - apply IH; lia.
Qed.

Lemma cos_sin_unit (t : vec) :
  Forall2 (fun x y => x * x + y * y = 1) (map cos t) (map sin t).
Proof.
  induction t as [|x t IH]; simpl; constructor; [|exact IH].
  pose proof (sin2_cos2 x) as H. unfold Rsqr in H. lra.
Qed.

Lemma map_cos_vneg (t : vec) : map cos (vneg t) = map cos t.
Proof. unfold vneg. rewrite map_map. apply map_ext. intros x. apply cos_neg. Qed.

Lemma map_sin_vneg (t : vec) : map sin (vneg t) = vneg (map sin t).
Proof. unfold vneg. rewrite !map_map. apply map_ext. intros x. apply sin_neg. Qed.

Lemma pair_interleave_halves (x : vec) (m : nat) :
  length x = (2 * m)%nat ->
  exists a b, pair_interleave x = a ++ b /\ length a = m /\ length b = m.
Proof.
  intros Hx. unfold pair_interleave. rewrite Hx.
  replace (2 * m)%nat with (m * 2)%nat by lia. rewrite Nat.div_mul by lia. simpl.
  eexists _, _. split; [rewrite app_nil_r; reflexivity|].
  rewrite !length_map, !length_seq. split; reflexivity.
Qed.

(** One row: the applier with angles [t], followed by the rotation stage
    alone with the opposite angles, yields the pair-interleaved row. *)
Lemma rotary_row_undo (x t : vec) :
  length x = (2 * length t)%nat ->
  rope_formula (rotary_row x (map cos (t ++ t)) (map sin (t ++ t)))
               (map cos (vneg t ++ vneg t)) (map sin (vneg t ++ vneg t))
  = pair_interleave x.
Proof.
  intros Hx. destruct (pair_interleave_halves x (length t) Hx) as (a & b & Hab & Ha & Hb).
  unfold rotary_row. rewrite Hab, !map_app, map_cos_vneg, map_sin_vneg.
  rewrite rope_formula_halves by (rewrite ?length_map; lia).
  rewrite rope_formula_halves;
    [| unfold vadd, vmul, vneg; rewrite ?length_zip_with, ?length_map; lia ..].
  f_equal.
  - apply unrotate_first; rewrite ?length_map; try lia. apply cos_sin_unit.
  - apply unrotate_second; rewrite ?length_map; try lia. apply cos_sin_unit.
Qed.

(** *** The applier on whole tensors *)

Lemma length_pair_interleave (x : vec) :
  Nat.even (length x) = true -> length (pair_interleave x) = length x.
Proof.
  intros He. apply Nat.even_spec in He as [m Hm].
  destruct (pair_interleave_halves x m Hm) as (a & b & -> & Ha & Hb).
  rewrite length_app. lia.
Qed.

Lemma rotate_half_length (x : vec) : length (rotate_half x) = length x.
Proof.
  unfold rotate_half, vneg.
  rewrite length_app, length_map, length_drop, length_take.
  pose proof (Nat.Div0.div_le_upper_bound (length x) 2 (length x)). lia.
Qed.

(** **** Tables of the shape of the input: nothing is expanded *)

Lemma broadcast_cons {A B C} (f : A -> B -> option C) (x : A) (xs : list A) (y : B) (ys : list B) :
  length xs = length ys ->
  broadcast f (x :: xs) (y :: ys) = (c ← f x y; cs ← broadcast f xs ys; Some (c :: cs)).
Proof.
  intros Hl. rewrite !broadcast_zip by (simpl; lia). reflexivity.
Qed.

Lemma rows_op (f : R -> R -> R) (a b : vec) :
  length a = length b ->
  broadcast (fun x y => Some (f x y)) a b = Some (zip_with f a b).
Proof.
  intros Hl. apply broadcast_Forall2.
  revert b Hl. induction a as [|x a IH]; intros [|y b] Hl; try discriminate; constructor;
    [reflexivity | apply IH; simpl in Hl; lia].
Qed.

Lemma positions_op (f : R -> R -> R) (xh th : list vec) :
  Forall2 (fun row t : vec => length row = length t) xh th ->
  broadcast (broadcast (fun x y => Some (f x y))) xh th = Some (zip_with (zip_with f) xh th).
Proof.
  intros H. apply broadcast_Forall2. eapply Forall2_impl; [exact H|].
  intros row t Hl. apply rows_op, Hl.
Qed.

Lemma heads_op (f : R -> R -> R) (xb : list (list vec)) (tb : list vec) :
  Forall (fun xh => Forall2 (fun row t : vec => length row = length t) xh tb) xb ->
  broadcast (broadcast (broadcast (fun x y => Some (f x y)))) xb [tb]
  = Some (map (fun xh => zip_with (zip_with f) xh tb) xb).
Proof.
  intros H. apply (broadcast_Forall _ (fun xh tb => zip_with (zip_with f) xh tb)).
  eapply Forall_impl; [exact H|]. intros xh Hxh. apply positions_op, Hxh.
Qed.

Lemma elementwise_same_shape (f : R -> R -> R) (x : tensor4) (table : tensor3) :
  same_shape x table ->
  elementwise f x (unsqueeze table)
  = Some (zip_with (fun xb tb => map (fun xh => zip_with (zip_with f) xh tb) xb) x table).
Proof.
  unfold same_shape, elementwise, unsqueeze. intros H.
  induction H as [|xb tb x table Hb Hrest IH]; [reflexivity|].
  simpl. rewrite broadcast_cons by (rewrite length_map; eapply Forall2_length, Hrest).
  rewrite (heads_op f xb tb Hb). simpl. rewrite IH. reflexivity.
Qed.

Lemma same_shape_tmap4 (f : vec -> vec) (x : tensor4) (table : tensor3) :
  (forall row, length (f row) = length row) ->
  same_shape x table -> same_shape (tmap4 f x) table.
Proof.
  intros Hf H. unfold same_shape, tmap4 in *. apply Forall2_fmap_l.
  eapply Forall2_impl; [exact H|]. intros xb tb Hb. simpl.
  apply Forall_fmap. eapply Forall_impl; [exact Hb|]. intros xh Hh. simpl.
  apply Forall2_fmap_l. eapply Forall2_impl; [exact Hh|]. intros row t Hl. simpl.
  rewrite Hf. exact Hl.
Qed.

(** The sum of the two products, position by position. *)
Lemma add_products_positions (xh cb sb : list vec) :
  Forall2 (fun row t : vec => length row = length t) xh cb ->
  Forall2 (fun row t : vec => length row = length t) xh sb ->
  broadcast (broadcast (fun x y => Some (x + y)))
    (zip_with (zip_with Rmult) xh cb) (zip_with (zip_with Rmult) (map rotate_half xh) sb)
  = Some (zip_with (fun row (p : vec * vec) => rope_formula row p.1 p.2) xh (zip cb sb)).
Proof.
  intros Hc. revert sb. induction Hc as [|row c xh cb Hrc Hc IH]; intros sb Hs.
  - inversion Hs; subst. reflexivity.
  - inversion Hs as [|? s ? sb' Hrs Hs']; subst. simpl.
    rewrite broadcast_cons
      by (rewrite !length_zip_with, length_map, <- (Forall2_length _ _ _ Hc),
            <- (Forall2_length _ _ _ Hs'); lia).
    rewrite rows_op by (rewrite !length_zip_with, rotate_half_length; lia).
    simpl. rewrite (IH sb' Hs'). reflexivity.
Qed.

Lemma add_products_heads (xb : list (list vec)) (cb sb : list vec) :
  Forall (fun xh => Forall2 (fun row t : vec => length row = length t) xh cb) xb ->
  Forall (fun xh => Forall2 (fun row t : vec => length row = length t) xh sb) xb ->
  broadcast (broadcast (broadcast (fun x y => Some (x + y))))
    (map (fun xh => zip_with (zip_with Rmult) xh cb) xb)
    (map (fun xh => zip_with (zip_with Rmult) xh sb) (map (map rotate_half) xb))
  = Some (map (fun xh => zip_with (fun row (p : vec * vec) => rope_formula row p.1 p.2)
                           xh (zip cb sb)) xb).
Proof.
  intros Hc Hs. induction Hc as [|xh xb Hh Hc IH]; [reflexivity|].
  apply Forall_cons in Hs as [Hhs Hs]. simpl.
  rewrite broadcast_cons by (rewrite !length_map; reflexivity).
  rewrite (add_products_positions xh cb sb Hh Hhs). simpl.
  rewrite (IH Hs). reflexivity.
Qed.

Lemma rotate_same_shape (x : tensor4) (cos sin : tensor3) :
  same_shape x cos -> same_shape x sin ->
  rotate x (unsqueeze cos) (unsqueeze sin) = Some (broadcast_rows rope_formula x cos sin).
Proof.
  intros Hc Hs. unfold rotate.
  rewrite (elementwise_same_shape Rmult x cos Hc). simpl.
  rewrite (elementwise_same_shape Rmult (tmap4 rotate_half x) sin
             (same_shape_tmap4 _ _ _ rotate_half_length Hs)). simpl.
  unfold elementwise, broadcast_rows, tmap4, same_shape in *.
  revert sin Hs. induction Hc as [|xb cb x cos Hb Hc IH]; intros sin Hs.
  - inversion Hs; subst. reflexivity.
  - inversion Hs as [|? sb ? sin' Hsb Hs']; subst. simpl.
    rewrite broadcast_cons
      by (rewrite !length_zip_with, !length_map, <- (Forall2_length _ _ _ Hc),
            <- (Forall2_length _ _ _ Hs'); lia).
    rewrite (add_products_heads xb cb sb Hb Hsb). simpl.
    rewrite (IH sin' Hs'). reflexivity.
Qed.

Lemma last_dim_even_length (f : vec -> vec) (x : tensor4) :
  (forall row, Nat.even (length row) = true -> length (f row) = length row) ->
  last_dim_even x = true ->
  Forall (Forall (Forall (fun row => length (f row) = length row))) x.
Proof.
  intros Hf. unfold last_dim_even. intros He.
  apply Forall_forall. intros xb Hxb. apply Forall_forall. intros xh Hxh.
  apply Forall_forall. intros row Hrow. apply Hf.
  rewrite forallb_forall in He. apply list_elem_of_In in Hxb. specialize (He xb Hxb).
  rewrite forallb_forall in He. apply list_elem_of_In in Hxh. specialize (He xh Hxh).
  rewrite forallb_forall in He. apply list_elem_of_In in Hrow. exact (He row Hrow).
Qed.

Lemma same_shape_interleave (x : tensor4) (table : tensor3) :
  last_dim_even x = true -> same_shape x table -> same_shape (tmap4 pair_interleave x) table.
Proof.
  intros He H. pose proof (last_dim_even_length pair_interleave x length_pair_interleave He) as Hl.
  unfold same_shape, tmap4 in *. apply Forall2_fmap_l.
  apply Forall2_same_length_lookup_2; [eapply Forall2_length, H|].
  intros i xb tb Hxb Htb. pose proof (Forall2_lookup_lr _ _ _ _ _ _ H Hxb Htb) as Hb. simpl in *.
  rewrite Forall_forall in Hl. specialize (Hl xb (list_elem_of_lookup_2 _ _ _ Hxb)).
  apply Forall_fmap, Forall_forall. intros xh Hxh. simpl.
  rewrite Forall_forall in Hb, Hl. specialize (Hb xh Hxh). specialize (Hl xh Hxh).
  apply Forall2_fmap_l.
  apply Forall2_same_length_lookup_2; [eapply Forall2_length, Hb|].
  intros j row t Hrow Ht. simpl.
  rewrite Forall_forall in Hl. rewrite (Hl row (list_elem_of_lookup_2 _ _ _ Hrow)).
  exact (Forall2_lookup_lr _ _ _ _ _ _ Hb Hrow Ht).
Qed.

Lemma broadcast_rows_interleave (x : tensor4) (cos sin : tensor3) :
  broadcast_rows rope_formula (tmap4 pair_interleave x) cos sin
  = broadcast_rows rotary_row x cos sin.
Proof.
  unfold broadcast_rows, tmap4. rewrite zip_with_fmap_l.
  apply zip_with_ext; [| reflexivity..]. intros xb cs.
  rewrite map_map. apply map_ext. intros xh. rewrite zip_with_fmap_l. reflexivity.
Qed.

(** With tables of the shape of the inputs the applier is the row operation
    [rotary_row] on every row. *)
Lemma apply_rotary_same_shape (q k : tensor4) (cos sin : tensor3) :
  last_dim_even q = true -> last_dim_even k = true ->
  same_shape q cos -> same_shape q sin -> same_shape k cos -> same_shape k sin ->
  apply_rotary_pos_emb q k cos sin
  = Some (broadcast_rows rotary_row q cos sin, broadcast_rows rotary_row k cos sin).
Proof.
  intros Heq Hek Hqc Hqs Hkc Hks. unfold apply_rotary_pos_emb. rewrite Heq, Hek. simpl.
  rewrite (rotate_same_shape _ _ _ (same_shape_interleave _ _ Heq Hqc)
             (same_shape_interleave _ _ Heq Hqs)). simpl.
  rewrite (rotate_same_shape _ _ _ (same_shape_interleave _ _ Hek Hkc)
             (same_shape_interleave _ _ Hek Hks)). simpl.
  rewrite !broadcast_rows_interleave. reflexivity.
Qed.

(** **** Expanded tables: what the result keeps of the shape of the input *)

(** The broadcast of a row [x] with another row gives a row of the width of
    [x], unless [x] has a single channel. *)
Definition row_extends (x r : vec) : Prop := length r = length x \/ length x = 1%nat.

Definition tensor_extends (x r : tensor4) : Prop :=
  extends (extends (extends row_extends)) x r.

Lemma elementwise_extends (f : R -> R -> R) (x y r : tensor4) :
  elementwise f x y = Some r -> tensor_extends x r.
Proof.
  unfold elementwise, tensor_extends.
  apply broadcast_extends_l. intros xb yb rb _ _.
  apply broadcast_extends_l. intros xh yh rh _ _.
  apply broadcast_extends_l. intros xr yr rr _ _ Hr.
  apply (broadcast_extends_l _ (fun _ _ => True)) in Hr; [| auto].
  destruct Hr as [Hr|(a & -> & _)]; [left | right; reflexivity].
  symmetry. eapply Forall2_length, Hr.
Qed.

Lemma row_extends_trans (x a r : vec) : row_extends x a -> row_extends a r -> row_extends x r.
Proof. unfold row_extends. intros [H1|H1] [H2|H2]; try (right; lia); left; lia. Qed.

Lemma tensor_extends_trans (x a r : tensor4) :
  tensor_extends x a -> tensor_extends a r -> tensor_extends x r.
Proof.
  unfold tensor_extends. intros H1 H2.
  eapply extends_impl; [| exact (extends_trans _ _ _ _ _ H1 H2)].
  intros xb rb _ _ (ab & Hb1 & Hb2).
  eapply extends_impl; [| exact (extends_trans _ _ _ _ _ Hb1 Hb2)].
  intros xh rh _ _ (ah & Hh1 & Hh2).
  eapply extends_impl; [| exact (extends_trans _ _ _ _ _ Hh1 Hh2)].
  intros xr rr _ _ (ar & Hr1 & Hr2). eapply row_extends_trans; eassumption.
Qed.

Lemma tensor_extends_tmap4 (f : vec -> vec) (x : tensor4) :
  Forall (Forall (Forall (fun row => length (f row) = length row))) x ->
  tensor_extends x (tmap4 f x).
Proof.
  intros H. unfold tensor_extends, tmap4.
  apply extends_fmap. eapply Forall_impl; [exact H|]. intros xb Hb. simpl.
  apply extends_fmap. eapply Forall_impl; [exact Hb|]. intros xh Hh. simpl.
  apply extends_fmap. eapply Forall_impl; [exact Hh|]. intros row Hr. left. exact Hr.
Qed.

Lemma rotate_extends (x cos sin r : tensor4) :
  rotate x cos sin = Some r -> tensor_extends x r.
Proof.
  unfold rotate.
  destruct (elementwise Rmult x cos) as [a|] eqn:Ha; simpl; [|discriminate].
  destruct (elementwise Rmult _ sin) as [b|] eqn:Hb; simpl; [|discriminate].
  intros Hr. eapply tensor_extends_trans; eapply elementwise_extends; eassumption.
Qed.

(** The number of heads is kept: the tables have a head axis of size one. *)
Lemma heads_kept (f : R -> R -> R) (h : nat) (x : tensor4) (table : tensor3) (r : tensor4) :
  Forall (fun xb => length xb = h) x ->
  elementwise f x (unsqueeze table) = Some r -> Forall (fun rb => length rb = h) r.
Proof.
  intros Hx. unfold elementwise, unsqueeze. apply broadcast_elem_of.
  intros xb yb rb Hxb Hyb Hrb.
  apply list_elem_of_fmap in Hyb as (tb & -> & _).
  rewrite broadcast_singleton_r in Hrb. apply length_mapM in Hrb.
  rewrite Forall_forall in Hx. rewrite <- Hrb. apply Hx, Hxb.
Qed.

Lemma rotate_heads (h : nat) (x : tensor4) (cos sin : tensor3) (r : tensor4) :
  Forall (fun xb => length xb = h) x ->
  rotate x (unsqueeze cos) (unsqueeze sin) = Some r -> Forall (fun rb => length rb = h) r.
Proof.
  intros Hx. unfold rotate.
  destruct (elementwise Rmult x _) as [a|] eqn:Ha; simpl; [|discriminate].
  destruct (elementwise Rmult (tmap4 rotate_half x) _) as [b|] eqn:Hb; simpl; [|discriminate].
  pose proof (heads_kept _ h _ _ _ Hx Ha) as Hah.
  assert (Hx' : Forall (fun xb => length xb = h) (tmap4 rotate_half x)).
  { unfold tmap4. apply Forall_fmap. eapply Forall_impl; [exact Hx|].
    intros xb Hxb. simpl. rewrite length_map. exact Hxb. }
  pose proof (heads_kept _ h _ _ _ Hx' Hb) as Hbh.
  unfold elementwise. apply broadcast_elem_of. intros ab bb rb Hab Hbb Hrb.
  apply broadcast_length in Hrb. rewrite Forall_forall in Hah, Hbh.
  rewrite (Hah ab Hab), (Hbh bb Hbb) in Hrb. destruct Hrb; assumption.
Qed.

(** What [apply_rotary_pos_emb] keeps of the shape of its inputs, whatever
    the shape of the tables. *)
Lemma apply_rotary_extends (q k : tensor4) (cos sin : tensor3) (q_embed k_embed : tensor4) :
  apply_rotary_pos_emb q k cos sin = Some (q_embed, k_embed) ->
  last_dim_even q = true /\ last_dim_even k = true
  /\ tensor_extends q q_embed /\ tensor_extends k k_embed
  /\ (forall h, Forall (fun xb => length xb = h) q -> Forall (fun rb => length rb = h) q_embed)
  /\ (forall h, Forall (fun xb => length xb = h) k -> Forall (fun rb => length rb = h) k_embed).
Proof.
  unfold apply_rotary_pos_emb.
  destruct (last_dim_even q && last_dim_even k) eqn:He; [|discriminate].
  apply andb_true_iff in He as [Heq Hek].
  destruct (rotate (tmap4 pair_interleave q) _ _) as [qe|] eqn:Hq; simpl; [|discriminate].
  destruct (rotate (tmap4 pair_interleave k) _ _) as [ke|] eqn:Hk; simpl; [|discriminate].
  intros [= <- <-].
  assert (Hh : forall (h : nat) (x : tensor4),
            Forall (fun xb => length xb = h) x ->
            Forall (fun xb => length xb = h) (tmap4 pair_interleave x)).
  { intros h x Hx. unfold tmap4. apply Forall_fmap. eapply Forall_impl; [exact Hx|].
    intros xb Hxb. simpl. rewrite length_map. exact Hxb. }
  repeat split; try assumption.
  - eapply tensor_extends_trans; [| eapply rotate_extends, Hq].
    apply tensor_extends_tmap4, last_dim_even_length; [apply length_pair_interleave | exact Heq].
  - eapply tensor_extends_trans; [| eapply rotate_extends, Hk].
    apply tensor_extends_tmap4, last_dim_even_length; [apply length_pair_interleave | exact Hek].
  - intros h Hx. eapply rotate_heads; [apply Hh, Hx | exact Hq].
  - intros h Hx. eapply rotate_heads; [apply Hh, Hx | exact Hk].
Qed.

Lemma shaped_like_even (x : tensor4) (theta : tensor3) :
  shaped_like x theta -> last_dim_even x = true.
Proof.
  unfold shaped_like, last_dim_even.
  induction 1 as [|xb tb x theta Hb _ IH]; simpl; [reflexivity|].
  rewrite IH, andb_true_r.
  induction Hb as [|xh xb Hh _ IHb]; simpl; [reflexivity|].
  rewrite IHb, andb_true_r.
  induction Hh as [|row t xh tb Hr _ IHh]; simpl; [reflexivity|].
  rewrite IHh, andb_true_r, Hr, Nat.even_mul. reflexivity.
Qed.

Lemma shaped_like_table (f : R -> R) (x : tensor4) (theta : tensor3) :
  shaped_like x theta ->
  same_shape x (map (map (fun t => map f (t ++ t))) theta).
Proof.
  unfold shaped_like, same_shape. intros Hx.
  induction Hx as [|xb tb x theta Hb _ IH]; simpl; constructor; [clear IH | exact IH].
  induction Hb as [|xh xb Hh _ IHb]; constructor; [clear IHb | exact IHb].
  induction Hh as [|row t xh tb Hr _ IHh]; simpl; constructor; [| exact IHh].
  rewrite length_map, length_app. lia.
Qed.

Lemma shaped_like_rotary (x : tensor4) (theta : tensor3) :
  shaped_like x theta ->
  broadcast_rows rope_formula
    (broadcast_rows rotary_row x (cos_table theta) (sin_table theta))
    (cos_table (neg_angles theta)) (sin_table (neg_angles theta))
  = map (map (map pair_interleave)) x.
Proof.
  unfold shaped_like, broadcast_rows, cos_table, sin_table, neg_angles.
  induction 1 as [|xb tb x theta Hb _ IH]; simpl; [reflexivity|].
  f_equal; [clear IH | exact IH].
  induction Hb as [|xh xb Hh _ IHb]; simpl; [reflexivity|].
  f_equal; [clear IHb | exact IHb].
  induction Hh as [|row t xh tb Hr _ IHh]; simpl; [reflexivity|].
  f_equal; [| exact IHh].
  apply rotary_row_undo, Hr.
Qed.

(** C5 (amended). For tensors [q] and [k] of positional slices and angles
    [theta], [apply_rotary_pos_emb] with [theta] followed by the rotation
    stage [(y * cos) + (rotate_half(y) * sin)] with the opposite angles,
    without a second pair-interleave, returns the pair-interleaved rows of
    [q] from the embedded query and those of [k] from the embedded key. *)
Theorem rotary_undo_gives_interleaved (q k : tensor4) (theta : tensor3) :
  shaped_like q theta -> shaped_like k theta ->
  exists q_embed k_embed,
    apply_rotary_pos_emb q k (cos_table theta) (sin_table theta) = Some (q_embed, k_embed)
    /\ broadcast_rows rope_formula q_embed
         (cos_table (neg_angles theta)) (sin_table (neg_angles theta))
       = map (map (map pair_interleave)) q
    /\ broadcast_rows rope_formula k_embed
         (cos_table (neg_angles theta)) (sin_table (neg_angles theta))
       = map (map (map pair_interleave)) k.
Proof.
  intros Hq Hk.
  rewrite (apply_rotary_same_shape q k (cos_table theta) (sin_table theta))
    by first [apply (shaped_like_even q theta Hq) | apply (shaped_like_even k theta Hk)
             | apply (shaped_like_table _ _ _ Hq) | apply (shaped_like_table _ _ _ Hk)].
  eexists _, _. split; [reflexivity|].
  split; apply shaped_like_rotary; assumption.
Qed.

Lemma rotary_undo_gives_interleaved_witness :
  let q : tensor4 := [[[ [1; 2; 3; 4] ]]] in
  let k : tensor4 := [[[ [5; 6; 7; 8] ]]] in
  let theta : tensor3 := [[ [PI / 2; 0] ]] in
  exists q_embed k_embed,
    apply_rotary_pos_emb q k (cos_table theta) (sin_table theta) = Some (q_embed, k_embed)
    /\ broadcast_rows rope_formula q_embed
         (cos_table (neg_angles theta)) (sin_table (neg_angles theta))
       = [[[ [1; 3; 2; 4] ]]]
    /\ broadcast_rows rope_formula k_embed
         (cos_table (neg_angles theta)) (sin_table (neg_angles theta))
       = [[[ [5; 7; 6; 8] ]]].
Proof.
  intros q k theta.
  apply (rotary_undo_gives_interleaved q k theta); repeat constructor.
Defined.

(** C5, as stated, fails: at angle 0 (position 0) the applier only
    pair-interleaves, and applying it twice to a row of width 8 permutes the
    row twice instead of restoring it. *)
Lemma rotary_round_trip_fails :
  let x : tensor4 := [[[ [1; 2; 3; 4; 5; 6; 7; 8] ]]] in
  let theta : tensor3 := [[ [0; 0; 0; 0] ]] in
  exists y y' z z',
    apply_rotary_pos_emb x x (cos_table theta) (sin_table theta) = Some (y, y')
    /\ apply_rotary_pos_emb y y (cos_table (neg_angles theta)) (sin_table (neg_angles theta))
       = Some (z, z')
    /\ z = [[[ [1; 5; 2; 6; 3; 7; 4; 8] ]]]
    /\ z <> x.
Proof.
  intros x theta. eexists _, _, _, _.
  split; [reflexivity|]. split; [reflexivity|].
  assert (Hz : forall a b c d e f g h : R,
    [[[ [a; b; c; d; e; f; g; h] ]]] = [[[ [1; 5; 2; 6; 3; 7; 4; 8] ]]] :> tensor4 ->
    [[[ [a; b; c; d; e; f; g; h] ]]] <> x).
  { intros a b c d e f g h H1 H2. rewrite H1 in H2. unfold x in H2.
    assert (H5 : (5:R) = 2) by congruence. lra. }
  cbn -[cos sin].
  rewrite !Ropp_0, !cos_0, !sin_0.
  match goal with |- ?l = _ /\ _ =>
    assert (E : l = [[[ [1; 5; 2; 6; 3; 7; 4; 8] ]]]) end.
  { repeat (f_equal; try lra). }
  split; [exact E | apply Hz, E].
Qed.

(** *** Further properties of the rotary embedding *)

Lemma pair_interleave_cons2 (a b : R) (r : vec) (m : nat) :
  length r = (2 * m)%nat ->
  exists ev od,
    pair_interleave r = ev ++ od /\ length ev = m /\ length od = m
    /\ pair_interleave (a :: b :: r) = (a :: ev) ++ (b :: od).
Proof.
  intros Hr.
  exists (map (fun i => r !!! (2 * i + 0)%nat) (seq 0 m)),
         (map (fun i => r !!! (2 * i + 1)%nat) (seq 0 m)).
  assert (Hdiv : forall n, ((2 * n) / 2 = n)%nat)
    by (intros n; rewrite Nat.mul_comm; apply Nat.div_mul; lia).
  split; [| split; [| split]].
  - unfold pair_interleave. rewrite Hr, Hdiv. simpl. rewrite app_nil_r. reflexivity.
  - rewrite length_map, length_seq. reflexivity.
  - rewrite length_map, length_seq. reflexivity.
  - unfold pair_interleave.
    replace (length (a :: b :: r)) with (2 * S m)%nat by (simpl; lia).
    rewrite Hdiv.
    change (seq 0 2) with [0%nat; 1%nat]. cbn [map mjoin list_join].
    rewrite app_nil_r. cbn [seq map].
    rewrite <- !fmap_S_seq, !map_map.
    f_equal; [f_equal | f_equal]; apply map_ext; intros i.
    + replace (2 * S i + 0)%nat with (S (S (2 * i + 0))) by lia. reflexivity.
    + replace (2 * S i + 1)%nat with (S (S (2 * i + 1))) by lia. reflexivity.
Qed.

Lemma pair_interleave_Permutation (m : nat) :
  forall x : vec, length x = (2 * m)%nat -> pair_interleave x ≡ₚ x.
Proof.
  induction m as [|m IH]; intros x Hm.
  - destruct x; [reflexivity | discriminate Hm].
  - destruct x as [|a [|b r]]; try (simpl in Hm; lia).
    assert (Hr : length r = (2 * m)%nat) by (simpl in Hm; lia).
    destruct (pair_interleave_cons2 a b r m Hr) as (ev & od & Hsplit & _ & _ & ->).
    specialize (IH r Hr). rewrite Hsplit in IH.
    simpl. constructor. rewrite <- Permutation_middle. constructor. exact IH.
Qed.

(** X3. On a row of even width the pair-interleave only reorders the
    channels: its result is a permutation of the row. *)
Theorem pair_interleave_permutes (x : vec) :
  Nat.even (length x) = true -> pair_interleave x ≡ₚ x.
Proof.
  intros He. apply Nat.even_spec in He as [m Hm].
  exact (pair_interleave_Permutation m x Hm).
Qed.

Lemma pair_interleave_permutes_witness : pair_interleave [1; 2; 3; 4] ≡ₚ [1; 2; 3; 4].
Proof. apply (pair_interleave_permutes [1; 2; 3; 4]). reflexivity. Defined.

Lemma rotation_keeps_squares (a b c s : vec) :
  length a = length b -> length a = length c ->
  Forall2 (fun x y => x * x + y * y = 1) c s ->
  dot (vadd (vmul a c) (vmul (vneg b) s)) (vadd (vmul a c) (vmul (vneg b) s))
  + dot (vadd (vmul b c) (vmul a s)) (vadd (vmul b c) (vmul a s))
  = dot a a + dot b b.
Proof.
  intros Hb Hc Hcs. revert a b Hb Hc.
  induction Hcs as [|c0 s0 c s H1 _ IH]; intros [|a0 a] [|b0 b]; simpl; try discriminate.
  - intros _ _. unfold dot; simpl. lra.
  - intros Hb Hc. specialize (IH a b ltac:(lia) ltac:(lia)).
    unfold dot, vmul, vadd, vneg in *. simpl.
    assert (Hsq : (a0 * c0 + - b0 * s0) * (a0 * c0 + - b0 * s0)
                  + (b0 * c0 + a0 * s0) * (b0 * c0 + a0 * s0)
                  = (a0 * a0 + b0 * b0) * (c0 * c0 + s0 * s0)) by ring.
    rewrite H1 in Hsq. lra.
Qed.

(** X4. The rotary embedding keeps the Euclidean norm of every row: for
    tables built from angles, the sum of the squares of the embedded row
    equals that of the input row. *)
Theorem rotary_row_preserves_norm (x t : vec) :
  length x = (2 * length t)%nat ->
  dot (rotary_row x (map cos (t ++ t)) (map sin (t ++ t)))
      (rotary_row x (map cos (t ++ t)) (map sin (t ++ t)))
  = dot x x.
Proof.
  intros Hx. destruct (pair_interleave_halves x (length t) Hx) as (a & b & Hab & Ha & Hb).
  assert (Hperm : pair_interleave x ≡ₚ x).
  { exact (pair_interleave_Permutation (length t) x Hx). }
  assert (Hsq : dot x x = dot (pair_interleave x) (pair_interleave x)).
  { rewrite !dot_diag. apply Rsum_Permutation, Permutation_map. symmetry. exact Hperm. }
  rewrite Hsq. unfold rotary_row. rewrite Hab, !map_app.
  rewrite rope_formula_halves by (rewrite ?length_map; lia).
  rewrite !dot_app
    by (unfold vadd, vmul, vneg; rewrite ?length_zip_with, ?length_map; lia).
  apply rotation_keeps_squares; rewrite ?length_map; try lia. apply cos_sin_unit.
Qed.

Lemma rotary_row_preserves_norm_witness :
  dot (rotary_row [3; 4] (map cos ([PI / 3] ++ [PI / 3])) (map sin ([PI / 3] ++ [PI / 3])))
      (rotary_row [3; 4] (map cos ([PI / 3] ++ [PI / 3])) (map sin ([PI / 3] ++ [PI / 3])))
  = dot [3; 4] [3; 4].
Proof. apply (rotary_row_preserves_norm [3; 4] [PI / 3]). reflexivity. Defined.

Lemma rotation_relative (a b a' b' t u : vec) :
  length a = length t -> length b = length t ->
  length a' = length t -> length b' = length t -> length u = length t ->
  dot (vadd (vmul a (map cos t)) (vmul (vneg b) (map sin t)))
      (vadd (vmul a' (map cos u)) (vmul (vneg b') (map sin u)))
  + dot (vadd (vmul b (map cos t)) (vmul a (map sin t)))
        (vadd (vmul b' (map cos u)) (vmul a' (map sin u)))
  = dot (vadd (vmul a (map cos (zip_with Rminus t u)))
              (vmul (vneg b) (map sin (zip_with Rminus t u)))) a'
    + dot (vadd (vmul b (map cos (zip_with Rminus t u)))
                (vmul a (map sin (zip_with Rminus t u)))) b'.
Proof.
  revert a b a' b' u.
  induction t as [|t0 t IH]; intros [|a0 a] [|b0 b] [|a0' a'] [|b0' b'] [|u0 u];
    simpl; try discriminate.
  - intros _ _ _ _ _. unfold dot; simpl. lra.
  - intros Ha Hb Ha' Hb' Hu.
    specialize (IH a b a' b' u ltac:(lia) ltac:(lia) ltac:(lia) ltac:(lia) ltac:(lia)).
    unfold dot, vmul, vadd, vneg in *. simpl.
    rewrite cos_minus, sin_minus. lra.
Qed.

(** X5. The score of a rotated query against a rotated key depends on their
    angles only through the difference: embedding the query with angles [t]
    and the key with angles [u] gives the same dot product as embedding the
    query with [t - u] and only pair-interleaving the key. *)
Theorem rotary_scores_depend_on_relative_angle (q k t u : vec) :
  length q = (2 * length t)%nat -> length k = (2 * length t)%nat ->
  length u = length t ->
  dot (rotary_row q (map cos (t ++ t)) (map sin (t ++ t)))
      (rotary_row k (map cos (u ++ u)) (map sin (u ++ u)))
  = dot (rotary_row q (map cos (zip_with Rminus t u ++ zip_with Rminus t u))
                      (map sin (zip_with Rminus t u ++ zip_with Rminus t u)))
        (pair_interleave k).
Proof.
  intros Hq Hk Hu.
  destruct (pair_interleave_halves q (length t) Hq) as (a & b & Hab & Ha & Hb).
  destruct (pair_interleave_halves k (length t) Hk) as (a' & b' & Hab' & Ha' & Hb').
  assert (Hd : length (zip_with Rminus t u) = length t)
    by (rewrite length_zip_with; lia).
  unfold rotary_row. rewrite Hab, Hab', !map_app.
  rewrite !rope_formula_halves by (rewrite ?length_map; lia).
  rewrite !dot_app
    by (unfold vadd, vmul, vneg; rewrite ?length_zip_with, ?length_map; lia).
  apply rotation_relative; lia.
Qed.

Lemma rotary_scores_depend_on_relative_angle_witness :
  dot (rotary_row [1; 2] (map cos ([3] ++ [3])) (map sin ([3] ++ [3])))
      (rotary_row [5; 7] (map cos ([1] ++ [1])) (map sin ([1] ++ [1])))
  = dot (rotary_row [1; 2] (map cos (zip_with Rminus [3] [1] ++ zip_with Rminus [3] [1]))
                           (map sin (zip_with Rminus [3] [1] ++ zip_with Rminus [3] [1])))
        (pair_interleave [5; 7]).
Proof.
  apply (rotary_scores_depend_on_relative_angle [1; 2] [5; 7] [3] [1]); reflexivity.
Defined.

Lemma rope_formula_at_zero (y r : vec) (t : vec) :
  length y = length t -> length r = length t -> Forall (fun a => a = 0) t ->
  vadd (vmul y (map cos t)) (vmul r (map sin t)) = y.
Proof.
  intros Hy Hr Ht. revert y r Hy Hr.
  induction Ht as [|a t -> _ IH]; intros [|y0 y] [|r0 r]; simpl; try discriminate;
    [reflexivity|].
  intros Hy Hr. rewrite cos_0, sin_0. f_equal; [lra | apply IH; lia].
Qed.

(** X6. At angle zero (position 0 of the rotary table) the embedding is not
    the identity: [apply_rotary_pos_emb] returns the pair-interleaved rows of
    its inputs. *)
Theorem rotary_at_angle_zero (x : tensor4) (theta : tensor3) :
  shaped_like x theta ->
  Forall (Forall (Forall (fun a => a = 0))) theta ->
  apply_rotary_pos_emb x x (cos_table theta) (sin_table theta)
  = Some (map (map (map pair_interleave)) x, map (map (map pair_interleave)) x).
Proof.
  intros Hx Hzero.
  rewrite (apply_rotary_same_shape x x (cos_table theta) (sin_table theta))
    by first [apply (shaped_like_even x theta Hx) | apply (shaped_like_table _ _ _ Hx)].
  assert (Hrows : broadcast_rows rotary_row x (cos_table theta) (sin_table theta)
                  = map (map (map pair_interleave)) x).
  { clear -Hx Hzero. unfold shaped_like, broadcast_rows, cos_table, sin_table in *.
    revert Hzero. induction Hx as [|xb tb x theta Hb _ IH]; intros Hzero; simpl; [reflexivity|].
    apply Forall_cons in Hzero as [Hzb Hzero].
    f_equal; [clear IH | apply IH, Hzero].
    induction Hb as [|xh xb Hh _ IHb]; simpl; [reflexivity|].
    f_equal; [clear IHb | exact IHb].
    revert Hzb. induction Hh as [|row t xh tb Hr _ IHh]; intros Hzb; simpl; [reflexivity|].
    apply Forall_cons in Hzb as [Hzt Hzb].
    f_equal; [| apply IHh, Hzb].
    unfold rotary_row, rope_formula.
    assert (He : Nat.even (length row) = true) by (rewrite Hr, Nat.even_mul; reflexivity).
    destruct (pair_interleave_halves row (length t) Hr) as (a & b & Hab & Ha & Hb').
    apply rope_formula_at_zero.
    - rewrite Hab, !length_app. lia.
    - rewrite rotate_half_length, Hab, !length_app. lia.
    - apply Forall_app. split; exact Hzt. }
  rewrite Hrows. reflexivity.
Qed.

Lemma rotary_at_angle_zero_witness :
  apply_rotary_pos_emb [[[ [1; 2; 3; 4] ]]] [[[ [1; 2; 3; 4] ]]]
    (cos_table [[ [0; 0] ]]) (sin_table [[ [0; 0] ]])
  = Some ([[[ [1; 3; 2; 4] ]]], [[[ [1; 3; 2; 4] ]]]).
Proof.
  apply (rotary_at_angle_zero [[[ [1; 2; 3; 4] ]]] [[ [0; 0] ]]); repeat constructor.
Defined.

End Rotary.

(** ** Expert routing: [MoEGate] *)

Module Gate.

#[global] Instance Rle_decision (x y : R) : Decision (x <= y) := Rle_dec x y.

(** [torch.sigmoid] *)
Definition sigmoid (x : R) : R := / (1 + exp (- x)).

(** The contract of [torch.topk(xs, k, sorted=False)] on one row: [k]
    distinct positions of [xs] whose values are at least the values at all
    other positions.  Which of several equal values is taken is left to the
    implementation. *)
Definition is_topk (k : nat) (xs : vec) (idx : list nat) : Prop :=
  length idx = k
  /\ NoDup idx
  /\ (forall i, i ∈ idx -> (i < length xs)%nat)
  /\ (forall i j, i ∈ idx -> (j < length xs)%nat -> j ∉ idx -> xs !!! j <= xs !!! i).

(** An implementation of the index selection of [torch.topk]. *)
Class TopK := {
  topk_indices : nat -> vec -> list nat;
  topk_indices_spec : forall k xs, (k <= length xs)%nat -> is_topk k xs (topk_indices k xs);
}.

(** [x.gather(-1, idx)] on one row. *)
Definition gather (xs : vec) (idx : list nat) : vec := map (fun i => xs !!! i) idx.

(** [torch.topk(xs, k)]: the pair (values, indices); raises when [k] exceeds
    the size of the row. *)
Definition torch_topk `{TopK} (k : nat) (xs : vec) : option (vec * list nat) :=
  guard (k <= length xs)%nat;;
  let idx := topk_indices k xs in
  Some (gather xs idx, idx).

(** One implementation: sort the positions by decreasing value and keep the
    first [k]. *)
Definition sort_topk (k : nat) (xs : vec) : list nat :=
  take k (merge_sort (fun i j => xs !!! j <= xs !!! i) (seq 0 (length xs))).

Record Config := {
  hidden_size : nat;
  num_experts_per_tok : nat;
  n_routed_experts : nat;
  routed_scaling_factor : R;
  n_group : nat;
  topk_group : nat;
  norm_topk_prob : bool;
}.

(** [MoEGate]: the configuration and the two parameters, with the shapes
    that [__init__] gives them (lines 106-107): [weight] has
    [n_routed_experts] rows of [hidden_size] entries and
    [e_score_correction_bias] has [n_routed_experts] entries. *)
Record MoEGate := {
  config : Config;
  weight : list vec;
  e_score_correction_bias : vec;
  weight_shape : has_shape (n_routed_experts config) (hidden_size config) weight;
  e_score_correction_bias_shape :
    length e_score_correction_bias = n_routed_experts config;
}.

Section forward.
Context `{TopK} (gate : MoEGate).

Let top_k := num_experts_per_tok (config gate).
Let n_experts := n_routed_experts (config gate).
Let groups := n_group (config gate).

(** [n_routed_experts // n_group] *)
Definition group_size : nat := (n_experts / groups)%nat.

(** [scores = logits.sigmoid()] for one token. *)
Definition scores_of (hidden : vec) : vec :=
  map sigmoid (F_linear hidden (weight gate)).

(** [scores.view(-1, n_routed_experts) + e_score_correction_bias.unsqueeze(0)] *)
Definition scores_for_choice_of (hidden : vec) : vec :=
  vadd (scores_of hidden) (e_score_correction_bias gate).

(** [scores_for_choice.view(-1, n_group, n // n_group).topk(2, dim=-1)[0].sum(dim=-1)] *)
Definition group_scores_of (scores_for_choice : vec) : option vec :=
  mapM (fun g =>
      '(values, _) ← torch_topk 2 (take group_size (drop (g * group_size) scores_for_choice));
      Some (Rsum values))
    (seq 0 groups).

(** [group_mask = zeros_like(group_scores); group_mask.scatter_(1, group_idx, 1)] *)
Definition group_mask_of (group_idx : list nat) : vec :=
  foldr (fun g mask => <[g := 1]> mask) (replicate groups 0) group_idx.

(** [group_mask.unsqueeze(-1).expand(n, n_group, n // n_group).reshape(-1, n)] *)
Definition score_mask_of (group_mask : vec) : vec :=
  mjoin (map (replicate group_size) group_mask).

(** [x.masked_fill(~mask.bool(), 0.0)] *)
Definition masked_fill_not (x mask : vec) : vec :=
  zip_with (fun s m => if Req_dec_T m 0 then 0 else s) x mask.

(** The groups kept for one token: [group_idx].  The guard stands for the
    division [n_routed_experts // n_group], which raises when [n_group] is 0,
    and for the shapes of lines 117 and 126: the scores of a token are cut
    into [n_group] groups of [n_routed_experts // n_group], and [expand] to
    [batch_size * seq_length] rows raises when the groups do not make up the
    [n_routed_experts] scores of the token. *)
Definition selected_groups (hidden : vec) : option (list nat) :=
  guard (groups <> 0%nat /\ (groups * group_size)%nat = n_experts);;
  group_scores ← group_scores_of (scores_for_choice_of hidden);
  '(_, group_idx) ← torch_topk (topk_group (config gate)) group_scores;
  Some group_idx.

(** The masked scores from which the experts are taken. *)
Definition masked_scores (hidden : vec) (group_idx : list nat) : vec :=
  masked_fill_not (scores_for_choice_of hidden) (score_mask_of (group_mask_of group_idx)).

(** Lines 110-131 for one token: the indices and the gathered raw weights. *)
Definition select_row (hidden : vec) : option (list nat * vec) :=
  group_idx ← selected_groups hidden;
  '(_, topk_idx) ← torch_topk top_k (masked_scores hidden group_idx);
  let topk_weights := gather (scores_of hidden) topk_idx in
  Some (topk_idx, topk_weights).

(** Lines 132-135: normalisation and scaling of the weights of one token. *)
Definition normalize_and_scale (topk_weights : vec) : vec :=
  let topk_weights :=
    if norm_topk_prob (config gate) then
      let denominator := Rsum topk_weights + 1e-20 in
      map (fun w => w / denominator) topk_weights
    else topk_weights in
  map (fun w => w * routed_scaling_factor (config gate)) topk_weights.

Definition forward_row (hidden : vec) : option (list nat * vec) :=
  '(topk_idx, topk_weights) ← select_row hidden;
  Some (topk_idx, normalize_and_scale topk_weights).

(** The inputs of which [hidden_states.view(-1, hidden_size)], line 111,
    makes one row per token: the last axis has [hidden_size] channels.  The
    rows then have the width of the rows of [weight], as [F.linear] asks. *)
Definition token_shaped (hidden_states : list (list vec)) : Prop :=
  hidden_size (config gate) <> 0%nat
  /\ Forall (Forall (fun hidden : vec => length hidden = hidden_size (config gate)))
       hidden_states.

#[global] Instance token_shaped_dec (hidden_states : list (list vec)) :
  Decision (token_shaped hidden_states).
Proof. unfold token_shaped. apply _. Defined.

(** [MoEGate.forward] on hidden states indexed [batch][position][channel].
    On an input that is not [token_shaped] the view of line 111 raises or
    cuts rows that are no tokens, and the model has no result.  With the
    configuration of [valid_gate] below the code has none either: a view
    that yields another number of rows than there are tokens makes it raise
    at [expand], line 126, or at [gather], line 131.  On an input without
    tokens the model returns the empty decision: what PyTorch checks of the
    configuration on tensors without rows is not modelled. *)
Definition forward (hidden_states : list (list vec)) : option (list (list nat) * list vec) :=
  guard (token_shaped hidden_states);;
  rows ← mapM forward_row (mjoin hidden_states);
  Some (rows.*1, rows.*2).

End forward.


(** *** The sorting implementation meets the contract of [torch.topk] *)

Lemma sort_topk_spec (k : nat) (xs : vec) :
  (k <= length xs)%nat -> is_topk k xs (sort_topk k xs).
Proof.
  intros Hk. unfold sort_topk.
  set (rel := fun i j : nat => xs !!! j <= xs !!! i).
  assert (Htrans : Transitive rel) by (intros a b c Hab Hbc; unfold rel in *; lra).
  assert (Htotal : Total rel) by (intros a b; unfold rel; lra).
  set (s := merge_sort rel (seq 0 (length xs))).
  assert (Hperm : s ≡ₚ seq 0 (length xs)) by apply merge_sort_Permutation.
  assert (Hsorted : StronglySorted rel s) by (apply StronglySorted_merge_sort; assumption).
  assert (Hlen : length s = length xs) by (rewrite Hperm; apply length_seq).
  assert (Hnd : NoDup s) by (rewrite Hperm; apply NoDup_seq).
  rewrite <- (take_drop k s) in Hsorted, Hnd.
  apply StronglySorted_app in Hsorted as (Hdom & _ & _).
  apply NoDup_app in Hnd as (Hnd & _ & _).
  repeat split.
  - rewrite length_take. lia.
  - exact Hnd.
  - intros i Hi. apply elem_of_take in Hi as (n & Hn & _).
    apply list_elem_of_lookup_2 in Hn. rewrite Hperm in Hn.
    apply elem_of_seq in Hn. lia.
  - intros i j Hi Hj Hnot. apply (Hdom i j Hi).
    assert (Hjs : j ∈ s) by (rewrite Hperm; apply elem_of_seq; lia).
    rewrite <- (take_drop k s) in Hjs. apply elem_of_app in Hjs as [?|?]; [contradiction|assumption].
Qed.

#[global] Instance sort_TopK : TopK :=
  {| topk_indices := sort_topk; topk_indices_spec := sort_topk_spec |}.

(** *** Shapes and masks *)

Lemma sigmoid_pos (x : R) : 0 < sigmoid x.
Proof.
  unfold sigmoid. apply Rinv_0_lt_compat.
  pose proof (exp_pos (- x)). lra.
Qed.

Lemma lookup_total_join_replicate (w : nat) (l : vec) (e : nat) :
  (0 < w)%nat -> (e < length l * w)%nat ->
  mjoin (map (replicate w) l) !!! e = l !!! (e / w)%nat.
Proof.
  intros Hw. revert e. induction l as [|x l IH]; intros e He; simpl in *; [lia|].
  destruct (decide (e < w)%nat) as [Hlt|Hge].
  - rewrite lookup_total_app_l by (rewrite length_replicate; lia).
    rewrite lookup_total_replicate_2 by lia.
    rewrite Nat.div_small by lia. reflexivity.
  - rewrite lookup_total_app_r by (rewrite length_replicate; lia).
    rewrite length_replicate, IH by lia.
    replace e with ((e - w) + 1 * w)%nat at 2 by lia.
    rewrite Nat.div_add by lia.
    replace ((e - w) / w + 1)%nat with (S ((e - w) / w)) by lia. reflexivity.
Qed.

Lemma lookup_total_zip_with_R (f : R -> R -> R) (l k : vec) (i : nat) :
  (i < length l)%nat -> (i < length k)%nat ->
  zip_with f l k !!! i = f (l !!! i) (k !!! i).
Proof. apply lookup_total_zip_with. Qed.

Lemma length_join_replicate (w : nat) (l : vec) :
  length (mjoin (map (replicate w) l)) = (length l * w)%nat.
Proof.
  induction l as [|x l IH]; simpl; [reflexivity|].
  rewrite length_app, length_replicate, IH. reflexivity.
Qed.

Section gate_facts.
Context `{TopK} (gate : MoEGate).

Let cfg := config gate.
Let n := n_routed_experts cfg.
Let gs := group_size gate.

(** The shapes fixed by [MoEGate.__init__] and the configuration invariants
    under which [forward] does not raise and enough experts remain after the
    group mask. *)
Definition valid_gate : Prop :=
  length (weight gate) = n
  /\ length (e_score_correction_bias gate) = n
  /\ n_group cfg <> 0%nat
  /\ (n_group cfg * gs)%nat = n
  /\ (2 <= gs)%nat
  /\ (topk_group cfg <= n_group cfg)%nat
  /\ (num_experts_per_tok cfg <= topk_group cfg * gs)%nat.

Lemma length_scores_of (hidden : vec) : length (scores_of gate hidden) = length (weight gate).
Proof. unfold scores_of, F_linear. rewrite !length_map. reflexivity. Qed.

Lemma length_scores_for_choice (hidden : vec) :
  valid_gate -> length (scores_for_choice_of gate hidden) = n.
Proof.
  intros (Hw & Hb & _). unfold scores_for_choice_of.
  rewrite length_vadd, length_scores_of, Hw, Hb. lia.
Qed.

Lemma group_mask_length (group_idx : list nat) :
  length (group_mask_of gate group_idx) = n_group cfg.
Proof.
  unfold group_mask_of. induction group_idx as [|g l IH]; simpl.
  - apply length_replicate.
  - rewrite length_insert. exact IH.
Qed.

Lemma group_mask_lookup (group_idx : list nat) (g : nat) :
  (g < n_group cfg)%nat ->
  group_mask_of gate group_idx !!! g = if decide (g ∈ group_idx) then 1 else 0.
Proof.
  intros Hg. unfold group_mask_of. induction group_idx as [|g0 l IH]; simpl.
  - rewrite lookup_total_replicate_2 by exact Hg.
    destruct (decide (g ∈ [])) as [Hin|_]; [inversion Hin | reflexivity].
  - destruct (decide (g0 = g)) as [->|Hne].
    + rewrite list_lookup_total_insert_eq by (fold (group_mask_of gate l); rewrite group_mask_length; exact Hg).
      destruct (decide (g ∈ g :: l)) as [_|Hnin]; [reflexivity|].
      exfalso; apply Hnin; left.
    + rewrite list_lookup_total_insert_ne by exact Hne. rewrite IH.
      destruct (decide (g ∈ l)), (decide (g ∈ g0 :: l)) as [Hin|Hnin]; try reflexivity.
      * exfalso; apply Hnin; right; assumption.
      * apply elem_of_cons in Hin as [->|?]; [congruence | contradiction].
Qed.

Lemma masked_scores_length (hidden : vec) (group_idx : list nat) :
  valid_gate -> length (masked_scores gate hidden group_idx) = n.
Proof.
  intros Hv. pose proof (length_scores_for_choice hidden Hv) as Hs.
  destruct Hv as (_ & _ & _ & Hdiv & _).
  unfold masked_scores, masked_fill_not, score_mask_of.
  rewrite length_zip_with, length_join_replicate, group_mask_length, Hs.
  fold cfg gs. lia.
Qed.

Lemma masked_scores_lookup (hidden : vec) (group_idx : list nat) (e : nat) :
  valid_gate -> (e < n)%nat ->
  masked_scores gate hidden group_idx !!! e
  = if decide ((e / gs)%nat ∈ group_idx) then scores_for_choice_of gate hidden !!! e else 0.
Proof.
  intros Hv He. pose proof (length_scores_for_choice hidden Hv) as Hs.
  destruct Hv as (_ & _ & _ & Hdiv & Hgs & _).
  unfold masked_scores, masked_fill_not, score_mask_of.
  rewrite lookup_total_zip_with_R
    by (rewrite ?length_join_replicate, ?group_mask_length, ?Hs; fold cfg gs; lia).
  rewrite lookup_total_join_replicate
    by (rewrite ?group_mask_length; fold cfg gs; lia).
  assert (Hg : (e / group_size gate < n_group cfg)%nat).
  { apply Nat.Div0.div_lt_upper_bound. fold gs. lia. }
  rewrite group_mask_lookup by exact Hg. fold gs.
  destruct (decide ((e / gs)%nat ∈ group_idx)).
  - destruct (Req_dec_T 1 0); [lra | reflexivity].
  - destruct (Req_dec_T 0 0); [reflexivity | lra].
Qed.

End gate_facts.

Section gate_selection.
Context `{TopK} (gate : MoEGate).

#[local] Abbreviation cfg := (config gate).
#[local] Abbreviation n := (n_routed_experts (config gate)).
#[local] Abbreviation gs := (group_size gate).

Lemma torch_topk_Some (k : nat) (xs : vec) :
  (k <= length xs)%nat ->
  torch_topk k xs = Some (gather xs (topk_indices k xs), topk_indices k xs)
  /\ is_topk k xs (topk_indices k xs).
Proof.
  intros Hk. unfold torch_topk. rewrite option_guard_True by exact Hk.
  split; [reflexivity | apply topk_indices_spec, Hk].
Qed.

Lemma group_scores_total (sfc : vec) :
  valid_gate gate -> length sfc = n ->
  exists group_scores,
    group_scores_of gate sfc = Some group_scores /\ length group_scores = n_group cfg.
Proof.
  intros (_ & _ & _ & Hdiv & Hgs & _) Hlen.
  assert (Hsome : is_Some (group_scores_of gate sfc)).
  { unfold group_scores_of. apply mapM_is_Some_2, Forall_forall. intros g Hg.
    apply elem_of_seq in Hg. simpl.
    assert (Hchunk : (2 <= length (take (group_size gate) (drop (g * group_size gate) sfc)))%nat).
    { assert (((g + 1) * gs <= n)%nat) by nia.
      rewrite length_take, length_drop, Hlen. lia. }
    destruct (torch_topk_Some 2 _ Hchunk) as [-> _]. simpl. eauto. }
  destruct Hsome as [group_scores Hgsc]. exists group_scores. split; [exact Hgsc|].
  apply length_mapM in Hgsc. rewrite length_seq in Hgsc. symmetry. exact Hgsc.
Qed.

(** The group stage never raises on a valid gate and returns [topk_group]
    distinct groups. *)
Lemma selected_groups_topk (hidden : vec) :
  valid_gate gate ->
  exists group_scores group_idx,
    group_scores_of gate (scores_for_choice_of gate hidden) = Some group_scores
    /\ length group_scores = n_group cfg
    /\ selected_groups gate hidden = Some group_idx
    /\ is_topk (topk_group cfg) group_scores group_idx.
Proof.
  intros Hv.
  destruct (group_scores_total (scores_for_choice_of gate hidden) Hv
              (length_scores_for_choice gate hidden Hv)) as (gsc & Hgsc & Hlen).
  destruct Hv as (Hw & Hb & Hg0 & Hdiv & Hgs & Htg & Htk).
  assert (Hk : (topk_group cfg <= length gsc)%nat) by lia.
  destruct (torch_topk_Some _ _ Hk) as [Htop Hspec].
  exists gsc, (topk_indices (topk_group cfg) gsc).
  unfold selected_groups.
  rewrite option_guard_True by (split; assumption).
  rewrite Hgsc. simpl. rewrite Htop. simpl. repeat split; try assumption; apply Hspec.
Qed.

Lemma selected_groups_total (hidden : vec) :
  valid_gate gate ->
  exists group_idx,
    selected_groups gate hidden = Some group_idx
    /\ length group_idx = topk_group cfg
    /\ NoDup group_idx
    /\ (forall g, g ∈ group_idx -> (g < n_group cfg)%nat).
Proof.
  intros Hv.
  destruct (selected_groups_topk hidden Hv) as (gsc & gi & _ & Hlen & Hsel & Hl & Hnd & Hrange & _).
  exists gi. repeat split; try assumption.
  intros g Hg. rewrite <- Hlen. apply Hrange, Hg.
Qed.

(** The expert stage: [top_k] positions of the masked scores, and the raw
    weights gathered from the sigmoid scores. *)
Lemma select_row_total (hidden : vec) :
  valid_gate gate ->
  exists group_idx topk_idx,
    selected_groups gate hidden = Some group_idx
    /\ select_row gate hidden = Some (topk_idx, gather (scores_of gate hidden) topk_idx)
    /\ is_topk (num_experts_per_tok cfg) (masked_scores gate hidden group_idx) topk_idx.
Proof.
  intros Hv. destruct (selected_groups_total hidden Hv) as (gi & Hsel & Hlen & _ & _).
  pose proof (masked_scores_length gate hidden gi Hv) as Hm.
  assert (Hk : (num_experts_per_tok cfg <= length (masked_scores gate hidden gi))%nat).
  { rewrite Hm. destruct Hv as (_ & _ & _ & Hdiv & _ & Htg & Htk).
    nia. }
  destruct (torch_topk_Some _ _ Hk) as [Htop Hspec].
  exists gi, (topk_indices (num_experts_per_tok cfg) (masked_scores gate hidden gi)).
  split; [exact Hsel|]. split; [|exact Hspec].
  unfold select_row. rewrite Hsel. simpl. rewrite Htop. reflexivity.
Qed.

(** The experts of the kept groups, listed group by group. *)
Definition experts_of_groups (group_idx : list nat) : list nat :=
  group_idx ≫= (fun g => seq (g * gs) gs).

Lemma experts_of_groups_length (group_idx : list nat) :
  length (experts_of_groups group_idx) = (length group_idx * gs)%nat.
Proof.
  unfold experts_of_groups. induction group_idx as [|g l IH]; [reflexivity|].
  rewrite bind_cons, length_app, length_seq, IH. reflexivity.
Qed.

Lemma elem_of_experts_of_groups (group_idx : list nat) (e : nat) :
  (0 < gs)%nat ->
  e ∈ experts_of_groups group_idx <-> (e / gs)%nat ∈ group_idx.
Proof.
  intros Hgs. unfold experts_of_groups. rewrite list_elem_of_bind. split.
  - intros (g & He & Hg). apply elem_of_seq in He.
    replace (e / gs)%nat with g; [exact Hg|].
    apply Nat.div_unique with (r := (e - g * gs)%nat); lia.
  - intros Hg. exists (e / gs)%nat. split; [|exact Hg].
    apply elem_of_seq. pose proof (Nat.div_mod_eq e gs).
    pose proof (Nat.mod_upper_bound e gs). lia.
Qed.

Lemma experts_of_groups_NoDup (group_idx : list nat) :
  (0 < gs)%nat -> NoDup group_idx -> NoDup (experts_of_groups group_idx).
Proof.
  intros Hgs Hnd. unfold experts_of_groups. apply NoDup_bind; [| intros; apply NoDup_seq | exact Hnd].
  intros g1 g2 e _ _ H1 H2. apply elem_of_seq in H1, H2.
  assert (e / gs = g1)%nat by (symmetry; apply Nat.div_unique with (r := (e - g1 * gs)%nat); lia).
  assert (e / gs = g2)%nat by (symmetry; apply Nat.div_unique with (r := (e - g2 * gs)%nat); lia).
  congruence.
Qed.

(** When the scores of the kept groups are positive, no expert of another
    group (masked to 0) enters the top [top_k]. *)
Lemma topk_within_groups (hidden : vec) (group_idx topk_idx : list nat) :
  valid_gate gate ->
  length group_idx = topk_group cfg -> NoDup group_idx ->
  (forall g, g ∈ group_idx -> (g < n_group cfg)%nat) ->
  is_topk (num_experts_per_tok cfg) (masked_scores gate hidden group_idx) topk_idx ->
  (forall e, (e < n)%nat -> (e / gs)%nat ∈ group_idx ->
             0 < scores_for_choice_of gate hidden !!! e) ->
  forall e, e ∈ topk_idx -> (e / gs)%nat ∈ group_idx.
Proof.
  intros Hv Hlen Hnd Hrange (Hl & Hndk & Hlt & Hdom) Hpos e He.
  pose proof (masked_scores_length gate hidden group_idx Hv) as Hm.
  rewrite Hm in Hlt, Hdom.
  destruct (decide ((e / gs)%nat ∈ group_idx)) as [Hin|Hout]; [exact Hin | exfalso].
  assert (Hgs : (0 < gs)%nat) by (destruct Hv as (_ & _ & _ & _ & ? & _); lia).
  set (inside := experts_of_groups group_idx).
  destruct (decide (Forall (fun j => j ∈ topk_idx) inside)) as [Hall|Hsome].
  - (* all experts of the kept groups are taken, and [e] as well: too many *)
    assert (Hsub : e :: inside ⊆+ topk_idx).
    { apply NoDup_submseteq.
      - constructor; [| apply experts_of_groups_NoDup; assumption].
        unfold inside. rewrite elem_of_experts_of_groups by exact Hgs. exact Hout.
      - intros x Hx. apply elem_of_cons in Hx as [->|Hx]; [exact He|].
        rewrite Forall_forall in Hall. apply Hall, Hx. }
    apply submseteq_length in Hsub. simpl in Hsub.
    unfold inside in Hsub. rewrite experts_of_groups_length, Hlen, Hl in Hsub.
    destruct Hv as (_ & _ & _ & _ & _ & _ & Htk). lia.
  - apply not_Forall_Exists in Hsome; [| intros j; apply _].
    apply Exists_exists in Hsome as (j & Hj & Hjn).
    unfold inside in Hj. rewrite elem_of_experts_of_groups in Hj by exact Hgs.
    assert (Hjlt : (j < n)%nat).
    { specialize (Hrange _ Hj). destruct Hv as (_ & _ & _ & Hdiv & _).
      pose proof (Nat.div_mod_eq j gs). pose proof (Nat.mod_upper_bound j gs). nia. }
    specialize (Hdom e j He Hjlt Hjn).
    rewrite !masked_scores_lookup in Hdom by (auto using Hlt).
    destruct (decide ((j / gs)%nat ∈ group_idx)); [|contradiction].
    destruct (decide ((e / gs)%nat ∈ group_idx)); [contradiction|].
    specialize (Hpos j Hjlt Hj). lra.
Qed.

End gate_selection.

Lemma mapM_total_with {A B} (f : A -> option B) (P : A -> B -> Prop) (l : list A) :
  (forall x, exists y, f x = Some y /\ P x y) ->
  exists k, mapM f l = Some k /\ Forall2 P l k.
Proof.
  intros Hf. induction l as [|x l (k & Hk & HP)].
  - exists []. split; [reflexivity | constructor].
  - destruct (Hf x) as (y & Hy & Hxy). exists (y :: k).
    split; [| constructor; assumption].
    apply mapM_Some_2. constructor; [exact Hy|]. apply mapM_Some_1, Hk.
Qed.

Section gate_claims.
Context `{TopK} (gate : MoEGate).

#[local] Abbreviation cfg := (config gate).
#[local] Abbreviation n := (n_routed_experts (config gate)).
#[local] Abbreviation gs := (group_size gate).

(** What the gate guarantees for the indices [topk_idx] of one token. *)
Definition routed_within_groups (hidden : vec) (topk_idx : list nat) : Prop :=
  length topk_idx = num_experts_per_tok cfg
  /\ NoDup topk_idx
  /\ (forall e, e ∈ topk_idx -> (e < n)%nat)
  /\ exists group_idx,
       selected_groups gate hidden = Some group_idx
       /\ length group_idx = topk_group cfg
       /\ NoDup group_idx
       /\ ((forall e, (e < n)%nat -> (e / gs)%nat ∈ group_idx ->
                      0 < scores_for_choice_of gate hidden !!! e) ->
           forall e, e ∈ topk_idx -> (e / gs)%nat ∈ group_idx).

Lemma forward_row_routed (hidden : vec) :
  valid_gate gate ->
  exists row, forward_row gate hidden = Some row /\ routed_within_groups hidden row.1.
Proof.
  intros Hv.
  destruct (select_row_total gate hidden Hv) as (gi & idx & Hsel & Hrow & Hspec).
  destruct (selected_groups_total gate hidden Hv) as (gi' & Hsel' & Hlen & Hnd & Hrange).
  assert (gi' = gi) by congruence. subst gi'.
  eexists. split; [unfold forward_row; rewrite Hrow; reflexivity|]. simpl.
  pose proof Hspec as (Hl & Hndk & Hlt & _).
  rewrite (masked_scores_length gate hidden gi Hv) in Hlt.
  repeat split; try assumption.
  exists gi. repeat split; try assumption.
  intros Hpos. eapply topk_within_groups; eassumption.
Qed.

(** C1 (amended). On a gate whose configuration is valid and hidden states
    of [hidden_size] channels, [MoEGate.forward] returns for every token
    exactly [top_k] distinct expert indices, and they all lie in the
    [topk_group] selected groups whenever the bias-adjusted scores of the
    experts of those groups are strictly positive. *)
Theorem gate_topk_in_selected_groups (hidden_states : list (list vec)) :
  valid_gate gate -> token_shaped gate hidden_states ->
  exists topk_idx topk_weights,
    forward gate hidden_states = Some (topk_idx, topk_weights)
    /\ Forall2 routed_within_groups (mjoin hidden_states) topk_idx.
Proof.
  intros Hv Hshape.
  destruct (mapM_total_with (forward_row gate) (fun h row => routed_within_groups h row.1)
              (mjoin hidden_states) (fun h => forward_row_routed h Hv)) as (rows & Hrows & HP).
  exists (rows.*1), (rows.*2). unfold forward.
  rewrite option_guard_True by exact Hshape. simpl. rewrite Hrows. split; [reflexivity|].
  apply Forall2_fmap_r. exact HP.
Qed.

End gate_claims.

(** A gate with four experts in two groups, one group kept, two experts per
    token. *)
Definition small_config : Config := {|
  hidden_size := 1; num_experts_per_tok := 2; n_routed_experts := 4;
  routed_scaling_factor := 1; n_group := 2; topk_group := 1; norm_topk_prob := true |}.

Lemma small_weight_shape :
  has_shape (n_routed_experts small_config) (hidden_size small_config) [[0]; [0]; [0]; [0]].
Proof. split; [reflexivity | repeat constructor]. Qed.

Definition small_gate : MoEGate := {|
  config := small_config;
  weight := [[0]; [0]; [0]; [0]];
  e_score_correction_bias := [0; 0; 0; 0];
  weight_shape := small_weight_shape;
  e_score_correction_bias_shape := eq_refl |}.

(** The same gate with negative correction biases. *)
Definition biased_gate : MoEGate := {|
  config := small_config;
  weight := [[0]; [0]; [0]; [0]];
  e_score_correction_bias := [-1; -1; -2; -2];
  weight_shape := small_weight_shape;
  e_score_correction_bias_shape := eq_refl |}.

Lemma one_token_shaped (gate : MoEGate) (x : R) :
  hidden_size (config gate) = 1%nat -> token_shaped gate [[ [x] ]].
Proof. intros Hh. unfold token_shaped. rewrite Hh. split; [discriminate | repeat constructor]. Qed.

Lemma small_gate_valid : valid_gate small_gate.
Proof. repeat split; vm_compute; lia. Qed.

Lemma biased_gate_valid : valid_gate biased_gate.
Proof. repeat split; vm_compute; lia. Qed.

Lemma gate_topk_in_selected_groups_witness :
  exists topk_idx topk_weights,
    forward (H := sort_TopK) small_gate [[ [1] ]] = Some (topk_idx, topk_weights)
    /\ Forall2 (routed_within_groups (H := sort_TopK) small_gate) [[1]] topk_idx.
Proof.
  apply (gate_topk_in_selected_groups (H := sort_TopK) small_gate [[ [1] ]]).
  - repeat split; vm_compute; lia.
  - split; [discriminate | repeat constructor].
Defined.

Lemma sigmoid_0 : sigmoid 0 = / 2.
Proof. unfold sigmoid. rewrite Ropp_0, exp_0. f_equal; lra. Qed.

Lemma gather_constant (xs : vec) (idx : list nat) (c : R) :
  Forall (fun x => x = c) xs ->
  (forall i, i ∈ idx -> (i < length xs)%nat) ->
  gather xs idx = replicate (length idx) c.
Proof.
  intros Hc Hidx. unfold gather. induction idx as [|i idx IH]; simpl; [reflexivity|].
  f_equal.
  - assert (Hi : (i < length xs)%nat) by (apply Hidx; left).
    destruct (lookup_lt_is_Some_2 xs i Hi) as [x Hx].
    rewrite (list_lookup_total_correct _ _ _ Hx).
    rewrite Forall_forall in Hc. apply Hc. eapply list_elem_of_lookup_2, Hx.
  - apply IH. intros j Hj. apply Hidx. right. exact Hj.
Qed.

Lemma biased_scores_for_choice `{TopK} :
  scores_for_choice_of biased_gate [0] = [-1/2; -1/2; -3/2; -3/2].
Proof.
  unfold scores_for_choice_of, scores_of, F_linear, dot, vmul, vadd. simpl.
  replace (0 * 0 + 0) with 0 by lra. rewrite sigmoid_0.
  repeat (f_equal; try lra).
Qed.

Lemma biased_group_scores `{TopK} (group_scores : vec) :
  group_scores_of biased_gate (scores_for_choice_of biased_gate [0]) = Some group_scores ->
  group_scores = [-1; -3].
Proof.
  rewrite biased_scores_for_choice. unfold group_scores_of.
  change (group_size biased_gate) with 2%nat. simpl.
  assert (Hpair : forall c : R, Rsum (gather [c; c] (topk_indices 2 [c; c])) = c + c).
  { intros c. destruct (topk_indices_spec 2 [c; c]) as (Hl & _ & Hlt & _); [simpl; lia|].
    rewrite (gather_constant _ _ c), Hl; [simpl; lra | repeat constructor | exact Hlt]. }
  intros [= <-]. rewrite !Hpair. f_equal; [lra | f_equal; lra].
Qed.

(** With negative bias-adjusted scores in the kept group, the experts masked
    to 0.0 outrank them: whatever the tie-breaking of [torch.topk], group 0 is
    kept and the two experts of group 1 are returned. *)
Lemma biased_gate_escapes `{TopK} :
  exists topk_idx topk_weights,
    forward biased_gate [[ [0] ]] = Some ([topk_idx], [topk_weights])
    /\ selected_groups biased_gate [0] = Some [0%nat]
    /\ topk_idx ≡ₚ [2%nat; 3%nat].
Proof.
  pose proof biased_gate_valid as Hv.
  destruct (selected_groups_topk biased_gate [0] Hv)
    as (gsc & gi & Hgsc & _ & Hsel & Hgl & _ & Hglt & Hgdom).
  apply biased_group_scores in Hgsc. subst gsc.
  assert (Hgi : gi = [0%nat]).
  { destruct gi as [|g [|? ?]]; try discriminate Hgl.
    assert (Hg : (g < 2)%nat) by (apply Hglt; left).
    destruct g as [|[|g]]; [reflexivity | exfalso | lia].
    assert (Hd : [-1; -3] !!! 0%nat <= [-1; -3] !!! 1%nat).
    { apply Hgdom; [left | simpl; lia |].
      intros Hin. apply list_elem_of_singleton in Hin. discriminate. }
    simpl in Hd. lra. }
  subst gi.
  destruct (select_row_total biased_gate [0] Hv) as (gi & idx & Hsel' & Hrow & Hl & Hnd & Hlt & Hdom).
  assert (gi = [0%nat]) by congruence. subst gi.
  rewrite (masked_scores_length biased_gate [0] [0%nat] Hv) in Hlt, Hdom.
  assert (Hmask : forall e, (e < 4)%nat ->
            masked_scores biased_gate [0] [0%nat] !!! e
            = if decide ((e / 2)%nat ∈ [0%nat]) then [-1/2; -1/2; -3/2; -3/2] !!! e else 0).
  { intros e He. rewrite (masked_scores_lookup biased_gate [0] [0%nat] e Hv He).
    rewrite biased_scores_for_choice. reflexivity. }
  assert (Hhigh : forall e, e ∈ idx -> e ∈ [2%nat; 3%nat]).
  { intros e He. pose proof (Hlt e He) as He4. change (e < 4)%nat in He4.
    destruct (decide (e ∈ [2%nat; 3%nat])) as [?|Hne]; [assumption | exfalso].
    assert (He2 : (e < 2)%nat).
    { destruct e as [|[|[|[|?]]]]; try lia; exfalso; apply Hne; set_solver. }
    (* one of the experts 2 and 3 is left out *)
    destruct (decide (Forall (fun j => j ∈ idx) [2%nat; 3%nat])) as [Hall|Hsome].
    - assert (Hsub : [e; 2%nat; 3%nat] ⊆+ idx).
      { apply NoDup_submseteq.
        - constructor; [exact Hne|].
          constructor; [| constructor; [apply not_elem_of_nil | constructor]].
          intros Hx. apply list_elem_of_singleton in Hx. discriminate Hx.
        - intros x Hx. rewrite Forall_forall in Hall.
          apply elem_of_cons in Hx as [->|Hx]; [exact He | apply Hall, Hx]. }
      apply submseteq_length in Hsub. simpl in Hsub. simpl in Hl. lia.
    - apply not_Forall_Exists in Hsome; [| intros j; apply _].
      apply Exists_exists in Hsome as (j & Hj & Hjn).
      assert (Hj23 : j = 2%nat \/ j = 3%nat).
      { apply elem_of_cons in Hj as [?|Hj]; [left; assumption | right].
        apply list_elem_of_singleton in Hj. assumption. }
      assert (Hj4 : (j < 4)%nat) by lia.
      specialize (Hdom e j He Hj4 Hjn). rewrite !Hmask in Hdom by lia.
      assert (Hje : [-1/2; -1/2; -3/2; -3/2] !!! e = -1/2)
        by (destruct e as [|[|?]]; [reflexivity | reflexivity | lia]).
      destruct (decide ((e / 2)%nat ∈ [0%nat])) as [_|Hn];
        [| apply Hn; rewrite Nat.div_small by lia; left].
      destruct (decide ((j / 2)%nat ∈ [0%nat])) as [Hj0|_].
      + apply list_elem_of_singleton in Hj0.
        destruct Hj23 as [-> | ->]; discriminate Hj0.
      + rewrite Hje in Hdom. lra. }
  exists idx, (normalize_and_scale biased_gate (gather (scores_of biased_gate [0]) idx)).
  split; [| split; [exact Hsel|]].
  - unfold forward. rewrite option_guard_True by (apply one_token_shaped; reflexivity).
    unfold forward_row. simpl. rewrite Hrow. reflexivity.
  - apply submseteq_length_Permutation.
    + apply NoDup_submseteq; assumption.
    + simpl. simpl in Hl. lia.
Qed.

(** C1, as stated, fails on the sorting implementation of [torch.topk] (as
    on every other one): with biases [-1; -1; -2; -2] group 0 is selected,
    yet both returned experts, 2 and 3, belong to group 1. *)
Lemma gate_topk_outside_groups :
  exists topk_idx topk_weights,
    forward (H := sort_TopK) biased_gate [[ [0] ]] = Some ([topk_idx], [topk_weights])
    /\ selected_groups (H := sort_TopK) biased_gate [0] = Some [0%nat]
    /\ topk_idx ≡ₚ [2%nat; 3%nat]
    /\ forall e, e ∈ topk_idx -> (e / group_size biased_gate)%nat ∉ [0%nat].
Proof.
  destruct (biased_gate_escapes (H := sort_TopK)) as (idx & w & Hf & Hs & Hp).
  exists idx, w. repeat split; try assumption.
  intros e He Hin. rewrite Hp in He. change (group_size biased_gate) with 2%nat in Hin.
  apply list_elem_of_singleton in Hin.
  apply elem_of_cons in He as [->|He]; [discriminate Hin|].
  apply list_elem_of_singleton in He as ->. discriminate Hin.
Qed.

(** *** The weights *)

Section gate_rows.
Context `{TopK} (gate : MoEGate).

Lemma forward_row_inv (hidden : vec) (topk_idx : list nat) (topk_weights : vec) :
  forward_row gate hidden = Some (topk_idx, topk_weights) ->
  topk_weights = normalize_and_scale gate (gather (scores_of gate hidden) topk_idx).
Proof.
  unfold forward_row, select_row.
  destruct (selected_groups gate hidden) as [gi|]; simpl; [|discriminate].
  destruct (torch_topk _ _) as [[values idx]|]; simpl; [|discriminate].
  intros [= <- <-]. reflexivity.
Qed.

Lemma forward_rows (hidden_states : list (list vec))
    (topk_idx : list (list nat)) (topk_weights : list vec) :
  forward gate hidden_states = Some (topk_idx, topk_weights) ->
  Forall2 (fun hidden row => forward_row gate hidden = Some row)
    (mjoin hidden_states) (zip topk_idx topk_weights).
Proof.
  unfold forward. rewrite option_guard_decide. destruct (decide _); simpl; [|discriminate].
  destruct (mapM _ _) as [rows|] eqn:Hrows; simpl; [|discriminate].
  intros [= <- <-]. rewrite zip_fst_snd. apply mapM_Some_1, Hrows.
Qed.


Lemma forward_weights_zip (hidden_states : list (list vec))
    (topk_idx : list (list nat)) (topk_weights : list vec) :
  forward gate hidden_states = Some (topk_idx, topk_weights) ->
  topk_weights
  = zip_with (fun hidden idx => normalize_and_scale gate (gather (scores_of gate hidden) idx))
      (mjoin hidden_states) topk_idx.
Proof.
  unfold forward. rewrite option_guard_decide. destruct (decide _); simpl; [|discriminate].
  destruct (mapM _ _) as [rows|] eqn:Hrows; simpl; [|discriminate].
  intros [= <- <-]. apply mapM_Some_1 in Hrows.
  induction Hrows as [|hidden [idx w] tokens rows Hrow _ IH]; simpl; [reflexivity|].
  f_equal; [apply forward_row_inv, Hrow | exact IH].
Qed.

Lemma forward_lengths (hidden_states : list (list vec))
    (topk_idx : list (list nat)) (topk_weights : list vec) :
  forward gate hidden_states = Some (topk_idx, topk_weights) ->
  length topk_idx = length (mjoin hidden_states)
  /\ length topk_weights = length (mjoin hidden_states).
Proof.
  unfold forward. rewrite option_guard_decide. destruct (decide _); simpl; [|discriminate].
  destruct (mapM _ _) as [rows|] eqn:Hrows; simpl; [|discriminate].
  intros [= <- <-]. apply length_mapM in Hrows. rewrite !length_fmap. lia.
Qed.

End gate_rows.

Section gate_weights.
Context `{TopK} (gate : MoEGate).







End gate_weights.

Lemma forward_total `{TopK} (gate : MoEGate) (hidden_states : list (list vec)) :
  valid_gate gate -> token_shaped gate hidden_states ->
  exists result, forward gate hidden_states = Some result.
Proof.
  intros Hv Hshape.
  destruct (mapM_total_with (forward_row gate) (fun _ _ => True)
              (mjoin hidden_states)) as (rows & Hrows & _).
  - intros h. destruct (forward_row_routed gate h Hv) as (row & Hrow & _). eauto.
  - eexists. unfold forward. rewrite option_guard_True by exact Hshape. simpl.
    rewrite Hrows. reflexivity.
Qed.

Lemma small_gate_forward :
  exists result, forward (H := sort_TopK) small_gate [[ [1] ]] = Some result.
Proof.
  apply forward_total; [exact small_gate_valid | apply one_token_shaped; reflexivity].
Qed.



(** *** Further properties of the gate *)

Lemma sigmoid_lt_1 (x : R) : sigmoid x < 1.
Proof.
  unfold sigmoid. pose proof (exp_pos (- x)) as He.
  rewrite <- Rinv_1 at 2. apply Rinv_lt_contravar; lra.
Qed.

Lemma Rsum_ge_elem (l : vec) (x : R) :
  Forall (fun y => 0 <= y) l -> x ∈ l -> x <= Rsum l.
Proof.
  induction 1 as [|y l Hy Hl IH]; intros Hx; [inversion Hx|].
  pose proof (Rsum_nonneg l Hl). simpl.
  apply elem_of_cons in Hx as [->|Hx]; [lra | specialize (IH Hx); lra].
Qed.

Section gate_extras.
Context `{TopK} (gate : MoEGate).

#[local] Abbreviation cfg := (config gate).
#[local] Abbreviation n := (n_routed_experts (config gate)).
#[local] Abbreviation gs := (group_size gate).

Lemma gather_scores_unit (hidden : vec) (idx : list nat) :
  Forall (fun x => 0 <= x <= 1) (gather (scores_of gate hidden) idx).
Proof.
  unfold gather. apply Forall_fmap, Forall_forall. intros i _. simpl.
  rewrite list_lookup_total_alt.
  destruct (scores_of gate hidden !! i) as [x|] eqn:Hx; simpl; [| unfold inhabitant; simpl; lra].
  unfold scores_of in Hx. apply list_lookup_fmap_Some_1 in Hx as (y & -> & _).
  pose proof (sigmoid_pos y). pose proof (sigmoid_lt_1 y). lra.
Qed.

Lemma normalize_and_scale_bounds (raw : vec) :
  0 <= routed_scaling_factor cfg -> Forall (fun x => 0 <= x <= 1) raw ->
  Forall (fun w => 0 <= w <= routed_scaling_factor cfg) (normalize_and_scale gate raw).
Proof.
  intros Hf Hraw. unfold normalize_and_scale.
  assert (Hnn : Forall (fun y => 0 <= y) raw)
    by (eapply Forall_impl; [exact Hraw | simpl; intros; lra]).
  pose proof (Rsum_nonneg raw Hnn) as HS.
  apply Forall_fmap, Forall_forall. intros x Hx. simpl.
  destruct (norm_topk_prob cfg).
  - apply list_elem_of_fmap in Hx as (y & -> & Hy).
    rewrite Forall_forall in Hraw. pose proof (Hraw y Hy) as [Hy0 _].
    pose proof (Rsum_ge_elem raw y Hnn Hy) as Hle.
    assert (Hd : 0 < Rsum raw + 1e-20) by lra.
    assert (Hq : 0 <= y / (Rsum raw + 1e-20) <= 1).
    { split; [apply Rmult_le_pos; [lra | left; apply Rinv_0_lt_compat; lra]|].
      apply Rmult_le_reg_r with (r := Rsum raw + 1e-20); [exact Hd|].
      unfold Rdiv. rewrite Rmult_assoc, Rinv_l by lra. lra. }
    nra.
  - rewrite Forall_forall in Hraw. pose proof (Hraw x Hx). nra.
Qed.

(** X7. With a [routed_scaling_factor] that is not negative every weight
    that [MoEGate.forward] returns lies between 0 and [routed_scaling_factor],
    with or without normalisation.  The weights are computed here in exact
    arithmetic, where neither bound is reached; the statement has the bounds
    that floating-point rounding can reach (a sigmoid that underflows to 0, a
    single normalised weight that rounds to 1). *)
Theorem weights_between_zero_and_factor (hidden_states : list (list vec))
    (topk_idx : list (list nat)) (topk_weights : list vec) :
  0 <= routed_scaling_factor cfg ->
  forward gate hidden_states = Some (topk_idx, topk_weights) ->
  Forall (Forall (fun w => 0 <= w <= routed_scaling_factor cfg)) topk_weights.
Proof.
  intros Hf Hfw. rewrite (forward_weights_zip gate _ _ _ Hfw).
  apply Forall_forall. intros w Hw.
  apply elem_of_lookup_zip_with in Hw as (t & hidden & idx & -> & _ & _).
  apply normalize_and_scale_bounds; [exact Hf | apply gather_scores_unit].
Qed.

(** X8. With a correction bias without negative entries the selection is
    group-limited: every returned expert belongs to one of the selected
    groups. *)
Theorem nonnegative_bias_routes_within_groups (hidden_states : list (list vec))
    (topk_idx : list (list nat)) (topk_weights : list vec) :
  valid_gate gate ->
  Forall (fun b => 0 <= b) (e_score_correction_bias gate) ->
  forward gate hidden_states = Some (topk_idx, topk_weights) ->
  Forall2 (fun hidden idx =>
      exists group_idx,
        selected_groups gate hidden = Some group_idx
        /\ forall e, e ∈ idx -> (e / gs)%nat ∈ group_idx)
    (mjoin hidden_states) topk_idx.
Proof.
  intros Hv Hbias Hfw. pose proof (forward_rows gate _ _ _ Hfw) as Hrows.
  assert (Hlen : length topk_idx = length topk_weights)
    by (destruct (forward_lengths gate _ _ _ Hfw); lia).
  apply Forall2_same_length_lookup_2.
  - rewrite (Forall2_length _ _ _ Hrows), length_zip. lia.
  - intros t hidden idx Hh Hidx.
    destruct (Forall2_lookup_l _ _ _ _ _ Hrows Hh) as ([idx' w] & Hz & Hrow).
    apply lookup_zip_Some in Hz as [Hidx' _].
    assert (idx' = idx) by congruence. subst idx'.
    destruct (forward_row_routed gate hidden Hv)
      as (row & Hrow' & _ & _ & _ & gi & Hsel & _ & _ & Hin).
    assert (row = (idx, w)) by congruence. subst row. simpl in Hin.
    exists gi. split; [exact Hsel|]. apply Hin.
    intros e He _. pose proof Hv as (Hwl & Hbl & _).
    unfold scores_for_choice_of, vadd.
    rewrite lookup_total_zip_with_R by (rewrite ?length_scores_of; lia).
    assert (Hs : 0 < scores_of gate hidden !!! e).
    { destruct (lookup_lt_is_Some_2 (scores_of gate hidden) e) as [x Hx];
        [rewrite length_scores_of; lia|].
      rewrite (list_lookup_total_correct _ _ _ Hx).
      unfold scores_of in Hx. apply list_lookup_fmap_Some_1 in Hx as (y & -> & _).
      apply sigmoid_pos. }
    assert (Hb : 0 <= e_score_correction_bias gate !!! e).
    { destruct (lookup_lt_is_Some_2 (e_score_correction_bias gate) e) as [x Hx]; [lia|].
      rewrite (list_lookup_total_correct _ _ _ Hx).
      rewrite Forall_forall in Hbias. apply Hbias. eapply list_elem_of_lookup_2, Hx. }
    lra.
Qed.

End gate_extras.

Lemma weights_between_zero_and_factor_witness :
  exists topk_idx topk_weights,
    forward (H := sort_TopK) small_gate [[ [1] ]] = Some (topk_idx, topk_weights)
    /\ Forall (Forall (fun w => 0 <= w <= 1)) topk_weights.
Proof.
  destruct small_gate_forward as [[topk_idx topk_weights] Hf].
  exists topk_idx, topk_weights. split; [exact Hf|].
  apply (weights_between_zero_and_factor (H := sort_TopK) small_gate [[ [1] ]]
           topk_idx topk_weights); [simpl; lra | exact Hf].
Defined.

Lemma nonnegative_bias_routes_within_groups_witness :
  exists topk_idx topk_weights,
    forward (H := sort_TopK) small_gate [[ [1] ]] = Some (topk_idx, topk_weights)
    /\ Forall2 (fun hidden idx =>
         exists group_idx,
           selected_groups (H := sort_TopK) small_gate hidden = Some group_idx
           /\ forall e, e ∈ idx -> (e / group_size small_gate)%nat ∈ group_idx)
       [[1]] topk_idx.
Proof.
  destruct small_gate_forward as [[topk_idx topk_weights] Hf].
  exists topk_idx, topk_weights. split; [exact Hf|].
  apply (nonnegative_bias_routes_within_groups (H := sort_TopK) small_gate [[ [1] ]]
           topk_idx topk_weights small_gate_valid); [| exact Hf].
  repeat constructor; simpl; lra.
Defined.

Section gate_errors.
Context `{TopK} (gate : MoEGate).

#[local] Abbreviation cfg := (config gate).
#[local] Abbreviation n := (n_routed_experts (config gate)).
#[local] Abbreviation gs := (group_size gate).

Lemma torch_topk_Some_inv (k : nat) (xs : vec) (r : vec * list nat) :
  torch_topk k xs = Some r -> (k <= length xs)%nat.
Proof.
  unfold torch_topk. rewrite option_guard_decide.
  destruct (decide _) as [Hk|]; [intros _; exact Hk | discriminate].
Qed.

Lemma forward_row_Some_inv (hidden : vec) (row : list nat * vec) :
  forward_row gate hidden = Some row ->
  n_group cfg <> 0%nat
  /\ (n_group cfg * gs)%nat = n
  /\ (2 <= gs)%nat
  /\ (topk_group cfg <= n_group cfg)%nat
  /\ (num_experts_per_tok cfg <= n)%nat.
Proof.
  unfold forward_row, select_row.
  destruct (selected_groups gate hidden) as [gi|] eqn:Hsel; simpl; [|discriminate].
  destruct (torch_topk _ _) as [[values idx]|] eqn:Htop; simpl; [|discriminate].
  intros _. unfold selected_groups in Hsel.
  rewrite option_guard_decide in Hsel. destruct (decide _) as [[Hg Hdiv]|]; [|discriminate].
  destruct (group_scores_of _ _) as [gsc|] eqn:Hgsc; simpl in Hsel; [|discriminate].
  destruct (torch_topk (topk_group cfg) gsc) as [[gv gidx]|] eqn:Hgtop; simpl in Hsel;
    [|discriminate].
  assert (Hsfc : length (scores_for_choice_of gate hidden) = n).
  { unfold scores_for_choice_of.
    rewrite length_vadd, length_scores_of, (proj1 (weight_shape gate)),
      (e_score_correction_bias_shape gate). lia. }
  repeat split; try assumption.
  - (* a group holds at least two experts: [topk(2)] went through *)
    unfold group_scores_of in Hgsc. apply mapM_Some_1 in Hgsc.
    destruct (n_group cfg) as [|g] eqn:Hng; [contradiction|]. simpl in Hgsc.
    inversion Hgsc as [|? y ? ? Hfirst _]; subst.
    destruct (torch_topk 2 _) as [r|] eqn:H2; simpl in Hfirst; [|discriminate].
    apply torch_topk_Some_inv in H2. rewrite length_take in H2. lia.
  - apply torch_topk_Some_inv in Hgtop.
    apply length_mapM in Hgsc. rewrite length_seq in Hgsc. lia.
  - apply torch_topk_Some_inv in Htop.
    unfold masked_scores, masked_fill_not in Htop. rewrite length_zip_with in Htop. lia.
Qed.

(** X9. What [MoEGate.forward] checks of its configuration at run time: when
    it returns on hidden states of [hidden_size] channels with at least one
    token, [n_group] is positive and divides [n_routed_experts], a group holds
    at least two experts, [topk_group <= n_group] and
    [top_k <= n_routed_experts].  ([top_k] is not compared with the number of
    experts of the kept groups.) *)
Theorem forward_checks_configuration (hidden_states : list (list vec))
    (result : list (list nat) * list vec) :
  token_shaped gate hidden_states ->
  mjoin hidden_states <> [] ->
  forward gate hidden_states = Some result ->
  n_group cfg <> 0%nat
  /\ (n_group cfg * gs)%nat = n
  /\ (2 <= gs)%nat
  /\ (topk_group cfg <= n_group cfg)%nat
  /\ (num_experts_per_tok cfg <= n)%nat.
Proof.
  intros _ Hne Hf. destruct result as [topk_idx topk_weights].
  apply forward_rows in Hf.
  destruct (mjoin hidden_states) as [|hidden tokens]; [contradiction|].
  inversion Hf as [|? row ? ? Hrow _]; subst.
  eapply forward_row_Some_inv, Hrow.
Qed.

End gate_errors.

Lemma forward_checks_configuration_witness :
  exists result,
    forward (H := sort_TopK) small_gate [[ [1] ]] = Some result
    /\ (num_experts_per_tok (config small_gate) <= n_routed_experts (config small_gate))%nat.
Proof.
  destruct small_gate_forward as [result Hf].
  exists result. split; [exact Hf|].
  apply (forward_checks_configuration (H := sort_TopK) small_gate [[ [1] ]] result);
    [apply one_token_shaped; reflexivity | discriminate | exact Hf].
Defined.

End Gate.

(** ** Expert dispatch: [DeepseekV3MLP] and [DeepseekV3MoE] *)

Module MoE.
Import Gate.

(** [DeepseekV3MLP]: three bias-free linear maps and the activation
    [ACT2FN[config.hidden_act]].  The weights have the shapes that
    [__init__] gives them (lines 85-87): (out_features, in_features). *)
Record DeepseekV3MLP := {
  hidden_size : nat;
  intermediate_size : nat;
  gate_proj : list vec;
  up_proj : list vec;
  down_proj : list vec;
  act_fn : R -> R;
  gate_proj_shape : has_shape intermediate_size hidden_size gate_proj;
  up_proj_shape : has_shape intermediate_size hidden_size up_proj;
  down_proj_shape : has_shape hidden_size intermediate_size down_proj;
}.

Lemma empty_shape : has_shape 0 0 [].
Proof. split; [reflexivity | constructor]. Qed.

#[global] Instance DeepseekV3MLP_inhabited : Inhabited DeepseekV3MLP :=
  populate {| hidden_size := 0; intermediate_size := 0;
              gate_proj := []; up_proj := []; down_proj := []; act_fn := fun x => x;
              gate_proj_shape := empty_shape; up_proj_shape := empty_shape;
              down_proj_shape := empty_shape |}.

(** [down_proj(act_fn(gate_proj(x)) * up_proj(x))] on one row of
    [hidden_size] channels.  On a row of another width [F.linear] raises:
    the callers below check the width before they apply the expert. *)
Definition MLP_row (mlp : DeepseekV3MLP) (x : vec) : vec :=
  F_linear (vmul (map (act_fn mlp) (F_linear x (gate_proj mlp))) (F_linear x (up_proj mlp)))
           (down_proj mlp).

(** [DeepseekV3MLP.forward] on a batch of rows: the linear maps and the
    activation act on the last dimension. *)
Definition MLP_forward (mlp : DeepseekV3MLP) (x : list vec) : list vec :=
  map (MLP_row mlp) x.

(** The contract of [x.argsort()] on a one-dimensional index tensor: a
    permutation of the positions along which the values are non-decreasing.
    The order among equal values is left to the implementation. *)
Definition is_argsort (xs perm : list nat) : Prop :=
  perm ≡ₚ seq 0 (length xs)
  /\ StronglySorted le (map (fun i => xs !!! i) perm).

Class ArgSort := {
  argsort : list nat -> list nat;
  argsort_spec : forall xs, is_argsort xs (argsort xs);
}.

(** One implementation: merge sort of the positions by value. *)
Definition key_le (xs : list nat) (i j : nat) : Prop := (xs !!! i <= xs !!! j)%nat.

#[global] Instance key_le_dec (xs : list nat) : RelDecision (key_le xs) :=
  fun i j => decide (xs !!! i <= xs !!! j)%nat.

Definition sort_argsort (xs : list nat) : list nat :=
  merge_sort (key_le xs) (seq 0 (length xs)).

Record DeepseekV3MoE := {
  experts : list DeepseekV3MLP;
  gate : MoEGate;
  shared_experts : DeepseekV3MLP;
}.

(** One row of [expert_counts] after [scatter_(1, topk_indices, 1)]. *)
Definition expert_counts_row (num_experts : nat) (idx : list nat) : list nat :=
  foldr (fun e row => <[e := 1%nat]> row) (replicate num_experts 0%nat) idx.

(** [expert_counts.sum(dim=0)] *)
Definition column_sums (num_experts : nat) (rows : list (list nat)) : list nat :=
  foldr (zip_with Nat.add) (replicate num_experts 0%nat) rows.

(** [matmul(w.unsqueeze(0), rows)] followed by [sum(dim=0)] over the single
    row of the product: entry [c] is [sum_s w[s] * rows[s][c]]. *)
Definition weighted_sum (width : nat) (w : vec) (rows : list vec) : vec :=
  map (fun c => Rsum (zip_with (fun a (row : vec) => a * row !!! c) w rows)) (seq 0 width).

(** [reordered[sorted_indices] = expert_outputs] *)
Definition index_put {A} (dst : list A) (indices : list nat) (src : list A) : list A :=
  foldl (fun acc (p : nat * A) => <[p.1 := p.2]> acc) dst (zip indices src).

Section dispatch.
Context `{ArgSort}.

(** The contents of a freshly allocated tensor ([torch.empty_like]). *)
Variable uninitialized : vec.

(** The loop over [enumerate(tokens_per_expert)], from expert [expert_idx]
    on: the list of (expert, output batch) pairs appended to
    [expert_outputs], in order. *)
Fixpoint experts_loop (experts : list DeepseekV3MLP) (sorted_tokens : list vec)
    (expert_idx : nat) (tokens_per_expert : list nat) (current_pos : nat)
    : list (nat * list vec) :=
  match tokens_per_expert with
  | [] => []
  | num_tokens :: rest =>
      if decide (num_tokens = 0%nat) then
        experts_loop experts sorted_tokens (S expert_idx) rest current_pos
      else
        let next_pos := (current_pos + num_tokens)%nat in
        let expert := experts !!! expert_idx in
        let expert_tokens := take (next_pos - current_pos) (drop current_pos sorted_tokens) in
        (expert_idx, MLP_forward expert expert_tokens)
          :: experts_loop experts sorted_tokens (S expert_idx) rest next_pos
  end.

(** [tokens_per_expert], lines 183-185.  *)
Definition tokens_per_expert_of (num_experts : nat) (topk_indices : list (list nat)) : list nat :=
  column_sums num_experts (map (expert_counts_row num_experts) topk_indices).

(** The calls [expert(expert_tokens)] of the loop go through: every expert
    named in [topk_indices] has tokens and is called on rows of
    [sorted_tokens], which are rows of the tensor [hidden_states] and have its
    width; [F.linear] raises unless that is the [hidden_size] of the expert. *)
Definition experts_accept (experts : list DeepseekV3MLP) (hidden_states : list vec)
    (topk_indices : list (list nat)) : Prop :=
  Forall (fun e => Forall (fun x : vec => length x = hidden_size (experts !!! e)) hidden_states)
    (mjoin topk_indices).

#[global] Instance experts_accept_dec experts hidden_states topk_indices :
  Decision (experts_accept experts hidden_states topk_indices).
Proof. unfold experts_accept. apply _. Defined.

(** Lines 179-211 of [moe_infer]: the outputs of the experts put back in the
    order of the flattened (token, slot) pairs.  [topk_indices] has shape
    (batch_size, num_topk).  [None] stands for an exception: an expert index
    out of range in [scatter_], a token index out of range, an expert called
    on rows of another width than its own, a shape mismatch in the indexed
    assignment. *)
Definition reordered_outputs (experts : list DeepseekV3MLP) (hidden_states : list vec)
    (num_topk : nat) (topk_indices : list (list nat)) : option (list vec) :=
  let num_experts := length experts in
  guard (Forall (Forall (fun e => (e < num_experts)%nat)) topk_indices);;
  let tokens_per_expert := tokens_per_expert_of num_experts topk_indices in
  let sorted_indices := argsort (mjoin topk_indices) in
  sorted_tokens ← mapM (fun i => hidden_states !! (i / num_topk)%nat) sorted_indices;
  guard (experts_accept experts hidden_states topk_indices);;
  let expert_outputs :=
    mjoin (map snd (experts_loop experts sorted_tokens 0 tokens_per_expert 0)) in
  guard (length expert_outputs = length sorted_indices);;
  Some (index_put (replicate (length expert_outputs) uninitialized) sorted_indices expert_outputs).

(** [moe_infer].  The last guard is the error of
    [view(batch_size, num_topk, -1)] on a tensor without elements. *)
Definition moe_infer (experts : list DeepseekV3MLP) (hidden_states : list vec)
    (num_topk : nat) (topk_indices : list (list nat)) (topk_weights : list vec)
    : option (list vec) :=
  let batch_size := length topk_indices in
  reordered ← reordered_outputs experts hidden_states num_topk topk_indices;
  guard (reordered <> []);;
  let width := length (reordered !!! 0%nat) in
  let per_token :=
    map (fun t => take num_topk (drop (t * num_topk) reordered)) (seq 0 batch_size) in
  Some (zip_with (weighted_sum width) topk_weights per_token).

End dispatch.

(** The rows of a tensor of shape [orig_shape] taken from the flat list of
    token rows [flat], batch by batch. *)
Fixpoint view_as {A B} (orig : list (list A)) (flat : list B) : list (list B) :=
  match orig with
  | [] => []
  | row :: orig => take (length row) flat :: view_as orig (drop (length row) flat)
  end.

(** [y.view] with [orig_shape], line 162, on the (tokens, width) output of [moe_infer]: the
    view raises unless the output has as many elements as the input, that is
    one row of the width of the input per token. *)
Definition view (orig : list (list vec)) (y : list vec) : option (list (list vec)) :=
  guard (Forall2 (fun x out : vec => length out = length x) (mjoin orig) y);;
  Some (view_as orig y).

(** [DeepseekV3MoE.forward] on hidden states indexed
    [batch][position][channel].  The shared expert is applied to the input
    itself; [F.linear] raises unless its rows have the [hidden_size] of that
    expert, and the sum then adds rows of one width. *)
Definition forward `{TopK, ArgSort} (uninitialized : vec) (moe : DeepseekV3MoE)
    (hidden_states : list (list vec)) : option (list (list vec)) :=
  let identity := hidden_states in
  '(topk_indices, topk_weights) ← Gate.forward (gate moe) hidden_states;
  let hidden_states := mjoin hidden_states in
  y ← moe_infer uninitialized (experts moe) hidden_states
         (num_experts_per_tok (config (gate moe))) topk_indices topk_weights;
  y ← view identity y;
  guard (Forall (Forall (fun x : vec => length x = hidden_size (shared_experts moe))) identity);;
  Some (zip_with (zip_with vadd) y (map (MLP_forward (shared_experts moe)) identity)).

(** *** The merge sort meets the contract of [argsort] *)

Lemma sort_argsort_spec (xs : list nat) : is_argsort xs (sort_argsort xs).
Proof.
  unfold is_argsort, sort_argsort. split; [apply merge_sort_Permutation|].
  assert (Htrans : Transitive (key_le xs)) by (intros a b c; unfold key_le; lia).
  assert (Htotal : Total (key_le xs)) by (intros a b; unfold key_le; lia).
  apply (StronglySorted_fmap (fun i => xs !!! i) (key_le xs) le).
  - intros i j Hij. exact Hij.
  - apply StronglySorted_merge_sort; assumption.
Qed.

#[global] Instance sort_ArgSort : ArgSort :=
  {| argsort := sort_argsort; argsort_spec := sort_argsort_spec |}.

Example sort_argsort_example :
  sort_argsort [2; 0; 1; 0]%nat = [1; 3; 2; 0]%nat.
Proof. reflexivity. Qed.

(** *** Counting the tokens of each expert *)

Abbreviation count := (count_occ Nat.eq_dec).

Lemma expert_counts_row_length (num_experts : nat) (idx : list nat) :
  length (expert_counts_row num_experts idx) = num_experts.
Proof.
  unfold expert_counts_row. induction idx as [|e idx IH]; simpl.
  - apply length_replicate.
  - rewrite length_insert. exact IH.
Qed.

Lemma expert_counts_row_lookup (num_experts : nat) (idx : list nat) (e : nat) :
  (e < num_experts)%nat -> NoDup idx ->
  expert_counts_row num_experts idx !! e = Some (count idx e).
Proof.
  intros He Hnd. induction Hnd as [|e0 idx Hnin Hnd IH]; simpl.
  - apply lookup_replicate_2, He.
  - fold (expert_counts_row num_experts idx).
    destruct (Nat.eq_dec e0 e) as [->|Hne].
    + rewrite list_lookup_insert_eq by (rewrite expert_counts_row_length; exact He).
      f_equal. symmetry. rewrite (proj1 (count_occ_not_In Nat.eq_dec idx e)); [reflexivity|].
      intros Hin. apply Hnin, list_elem_of_In, Hin.
    + rewrite list_lookup_insert_ne by exact Hne. exact IH.
Qed.

Lemma expert_counts_row_map (num_experts : nat) (idx : list nat) :
  NoDup idx ->
  expert_counts_row num_experts idx = map (count idx) (seq 0 num_experts).
Proof.
  intros Hnd. apply list_eq. intros e.
  destruct (decide (e < num_experts)%nat) as [He|He].
  - rewrite expert_counts_row_lookup by assumption.
    rewrite list_lookup_fmap, lookup_seq_lt by exact He. reflexivity.
  - rewrite !lookup_ge_None_2; [reflexivity | |].
    + rewrite length_map, length_seq. lia.
    + rewrite expert_counts_row_length. lia.
Qed.

Lemma zip_with_add_map {A} (f g : A -> nat) (l : list A) :
  zip_with Nat.add (map f l) (map g l) = map (fun x => (f x + g x)%nat) l.
Proof. induction l as [|x l IH]; simpl; [reflexivity | rewrite IH; reflexivity]. Qed.

Lemma replicate_as_map {A} (x : A) (n j : nat) :
  replicate n x = map (fun _ => x) (seq j n).
Proof. revert j. induction n as [|n IH]; intros j; simpl; [reflexivity | f_equal; apply IH]. Qed.

Lemma tokens_per_expert_count (num_experts : nat) (topk_indices : list (list nat)) :
  Forall NoDup topk_indices ->
  tokens_per_expert_of num_experts topk_indices
  = map (count (mjoin topk_indices)) (seq 0 num_experts).
Proof.
  unfold tokens_per_expert_of, column_sums.
  induction 1 as [|idx rows Hnd _ IH]; simpl.
  - apply replicate_as_map.
  - rewrite IH, expert_counts_row_map by exact Hnd.
    rewrite zip_with_add_map. apply map_ext. intros e.
    rewrite count_occ_app. reflexivity.
Qed.

(** *** The loop over the experts *)

Lemma sorted_split_head (e0 : nat) (vs : list nat) :
  StronglySorted le vs -> Forall (fun v => (e0 <= v)%nat) vs ->
  take (count vs e0) vs = replicate (count vs e0) e0
  /\ Forall (fun v => (S e0 <= v)%nat) (drop (count vs e0) vs).
Proof.
  induction 1 as [|x vs Hs IH Hx]; intros Hge; [split; constructor|].
  apply Forall_cons in Hge as [Hx0 Hge].
  destruct (Nat.eq_dec x e0) as [->|Hne].
  - rewrite count_occ_cons_eq by reflexivity. simpl.
    destruct (IH Hge) as [Ht Hd]. split; [f_equal; exact Ht | exact Hd].
  - rewrite count_occ_cons_neq by exact Hne.
    assert (Hnone : count vs e0 = 0%nat).
    { apply count_occ_not_In. intros Hin. apply list_elem_of_In in Hin.
      rewrite Forall_forall in Hx. specialize (Hx _ Hin). lia. }
    rewrite Hnone. simpl. split; [reflexivity|].
    constructor; [lia|]. eapply Forall_impl; [exact Hx | simpl; intros; lia].
Qed.

Lemma count_drop_head (e0 e : nat) (vs : list nat) :
  StronglySorted le vs -> Forall (fun v => (e0 <= v)%nat) vs -> e <> e0 ->
  count (drop (count vs e0) vs) e = count vs e.
Proof.
  intros Hs Hge Hne. destruct (sorted_split_head e0 vs Hs Hge) as [Ht _].
  rewrite <- (take_drop (count vs e0) vs) at 3. rewrite count_occ_app, Ht.
  assert (Hrep : forall c, count (replicate c e0) e = 0%nat).
  { induction c as [|c IHc]; simpl; [reflexivity|].
    destruct (Nat.eq_dec e0 e); [congruence | exact IHc]. }
  rewrite Hrep. reflexivity.
Qed.

Lemma zip_with_replicate_l {A B C} (f : A -> B -> C) (n : nat) (x : A) (l : list B) :
  length l = n -> zip_with f (replicate n x) l = map (f x) l.
Proof.
  revert n. induction l as [|y l IH]; intros [|n] Hn; simpl in *; try lia; [reflexivity|].
  f_equal. apply IH. lia.
Qed.

Section loop.
Context (experts : list DeepseekV3MLP) (sorted_tokens : list vec).

(** The concatenated outputs: position by position, the expert named by the
    sorted index list applied to the sorted token. *)
Lemma experts_loop_outputs (cnts : list nat) :
  forall (e0 pos : nat) (vs : list nat) (toks : list vec),
  drop pos sorted_tokens = toks -> length toks = length vs ->
  StronglySorted le vs ->
  Forall (fun v => (e0 <= v < e0 + length cnts)%nat) vs ->
  cnts = map (count vs) (seq e0 (length cnts)) ->
  mjoin (map snd (experts_loop experts sorted_tokens e0 cnts pos))
  = zip_with (fun v tok => MLP_row (experts !!! v) tok) vs toks.
Proof.
  induction cnts as [|c cnts IH]; intros e0 pos vs toks Hdrop Hlen Hs Hrange Hc.
  - destruct vs as [|v vs]; [reflexivity|].
    apply Forall_cons in Hrange as [Hv _]. simpl in Hv. lia.
  - simpl in Hc. injection Hc as Hc0 Hc.
    assert (Hge : Forall (fun v => (e0 <= v)%nat) vs)
      by (eapply Forall_impl; [exact Hrange | simpl; intros; lia]).
    destruct (sorted_split_head e0 vs Hs Hge) as [Htake Hrest].
    rewrite <- Hc0 in Htake, Hrest.
    assert (Hcle : (c <= length vs)%nat) by (rewrite Hc0; apply count_occ_bound).
    assert (Hs' : StronglySorted le (drop c vs)).
    { rewrite <- (take_drop c vs) in Hs. apply StronglySorted_app in Hs. apply Hs. }
    assert (Hrange' : Forall (fun v => (S e0 <= v < S e0 + length cnts)%nat) (drop c vs)).
    { apply Forall_forall. intros v Hv. rewrite Forall_forall in Hrest, Hrange.
      specialize (Hrest v Hv).
      assert (Hi : v ∈ vs) by (rewrite <- (take_drop c vs); apply elem_of_app; right; exact Hv).
      specialize (Hrange v Hi). simpl in Hrange. lia. }
    assert (Hc' : cnts = map (count (drop c vs)) (seq (S e0) (length cnts))).
    { rewrite Hc at 1. apply map_ext_in. intros e He. apply in_seq in He.
      rewrite Hc0. symmetry. apply count_drop_head; [assumption | assumption | lia]. }
    simpl. destruct (decide (c = 0%nat)) as [->|Hc1].
    + rewrite drop_0 in Hs', Hrange', Hc'.
      apply (IH (S e0) pos vs toks); assumption.
    + simpl. replace (pos + c - pos)%nat with c by lia.
      rewrite (IH (S e0) (pos + c)%nat (drop c vs) (drop c toks)); try assumption.
      * rewrite Hdrop.
        transitivity (zip_with (fun v tok => MLP_row (experts !!! v) tok)
                        (replicate c e0 ++ drop c vs) (take c toks ++ drop c toks)).
        -- rewrite zip_with_app by (rewrite length_replicate, length_take; lia).
           f_equal. rewrite zip_with_replicate_l by (rewrite length_take; lia).
           reflexivity.
        -- rewrite <- Htake, !take_drop. reflexivity.
      * rewrite <- Hdrop, drop_drop. reflexivity.
      * rewrite !length_drop. lia.
Qed.

(** Only experts with a non-zero token count are evaluated. *)
Lemma experts_loop_invoked (cnts : list nat) :
  forall (e0 pos e : nat),
  e ∈ map fst (experts_loop experts sorted_tokens e0 cnts pos) ->
  exists c, cnts !! (e - e0)%nat = Some c /\ c <> 0%nat /\ (e0 <= e)%nat.
Proof.
  induction cnts as [|c cnts IH]; intros e0 pos e He; simpl in He; [inversion He|].
  destruct (decide (c = 0%nat)) as [->|Hc].
  - destruct (IH _ _ _ He) as (c' & Hc' & Hne & Hle). exists c'.
    replace (e - e0)%nat with (S (e - S e0)) by lia. auto with lia.
  - simpl in He. apply elem_of_cons in He as [->|He].
    + exists c. rewrite Nat.sub_diag. auto.
    + destruct (IH _ _ _ He) as (c' & Hc' & Hne & Hle). exists c'.
      replace (e - e0)%nat with (S (e - S e0)) by lia. auto with lia.
Qed.

(** Experts with a zero count at the end of the list change nothing. *)
Lemma experts_loop_trailing_zeros (cnts : list nat) (m : nat) :
  forall (e0 pos : nat),
  experts_loop experts sorted_tokens e0 (cnts ++ replicate m 0%nat) pos
  = experts_loop experts sorted_tokens e0 cnts pos.
Proof.
  induction cnts as [|c cnts IH]; intros e0 pos; simpl.
  - revert e0. induction m as [|m IHm]; intros e0; simpl; [reflexivity | apply IHm].
  - destruct (decide (c = 0%nat)); [apply IH | f_equal; apply IH].
Qed.

End loop.

(** The loop reads an expert only where the count is non-zero. *)
Lemma experts_loop_ext (experts experts' : list DeepseekV3MLP) (sorted_tokens : list vec)
    (cnts : list nat) :
  forall (e0 pos : nat),
  (forall i c, cnts !! i = Some c -> c <> 0%nat ->
               experts !!! (e0 + i)%nat = experts' !!! (e0 + i)%nat) ->
  experts_loop experts sorted_tokens e0 cnts pos
  = experts_loop experts' sorted_tokens e0 cnts pos.
Proof.
  induction cnts as [|c cnts IH]; intros e0 pos Hagree; simpl; [reflexivity|].
  assert (Hrest : forall i c', cnts !! i = Some c' -> c' <> 0%nat ->
                    experts !!! (S e0 + i)%nat = experts' !!! (S e0 + i)%nat).
  { intros i c' Hi Hc'. replace (S e0 + i)%nat with (e0 + S i)%nat by lia.
    apply (Hagree (S i) c'); assumption. }
  destruct (decide (c = 0%nat)) as [->|Hc]; [apply IH, Hrest|].
  f_equal; [| apply IH, Hrest].
  f_equal. f_equal. specialize (Hagree 0%nat c eq_refl Hc).
  rewrite Nat.add_0_r in Hagree. exact Hagree.
Qed.

(** *** The indexed assignment *)

Lemma index_put_cons {A} (dst : list A) (j : nat) (idx : list nat) (x : A) (src : list A) :
  index_put dst (j :: idx) (x :: src) = index_put (<[j := x]> dst) idx src.
Proof. reflexivity. Qed.

Lemma index_put_length {A} (idx : list nat) :
  forall (dst src : list A), length (index_put dst idx src) = length dst.
Proof.
  induction idx as [|j idx IH]; intros dst [|x src]; try reflexivity.
  rewrite index_put_cons, IH, length_insert. reflexivity.
Qed.

Lemma index_put_other {A} (idx : list nat) (j : nat) :
  forall (dst src : list A), j ∉ idx -> index_put dst idx src !! j = dst !! j.
Proof.
  induction idx as [|j0 idx IH]; intros dst [|x src] Hj; try reflexivity.
  apply not_elem_of_cons in Hj as [Hne Hj].
  rewrite index_put_cons, IH by exact Hj.
  apply list_lookup_insert_ne. congruence.
Qed.

(** Entry [i] of the source lands at position [indices[i]]. *)
Lemma index_put_lookup {A} (idx : list nat) :
  forall (dst src : list A) (i j : nat) (x : A),
  NoDup idx -> idx !! i = Some j -> src !! i = Some x -> (j < length dst)%nat ->
  index_put dst idx src !! j = Some x.
Proof.
  induction idx as [|j0 idx IH]; intros dst src i j x Hnd Hi Hx Hj; [discriminate|].
  destruct src as [|x0 src]; [discriminate|].
  apply NoDup_cons in Hnd as [Hnin Hnd]. rewrite index_put_cons.
  destruct i as [|i]; simpl in Hi, Hx.
  - injection Hi as ->. injection Hx as ->.
    rewrite index_put_other by exact Hnin. apply list_lookup_insert_eq, Hj.
  - apply (IH _ _ i); try assumption. rewrite length_insert. exact Hj.
Qed.

(** *** Rows of a flattened rectangular tensor *)

Lemma Forall_join {A} (P : A -> Prop) (ls : list (list A)) :
  Forall (Forall P) ls -> Forall P (mjoin ls).
Proof.
  induction 1 as [|l ls Hl _ IH]; simpl; [constructor | apply Forall_app; split; assumption].
Qed.

Lemma join_length_uniform {A} (k : nat) (rows : list (list A)) :
  Forall (fun row => length row = k) rows -> length (mjoin rows) = (length rows * k)%nat.
Proof.
  induction 1 as [|row rows Hrow _ IH]; simpl; [reflexivity|].
  rewrite length_app, IH, Hrow. reflexivity.
Qed.

Lemma join_lookup_uniform {A} (k : nat) (rows : list (list A)) (t s : nat) (row : list A) :
  Forall (fun row => length row = k) rows ->
  rows !! t = Some row -> (s < k)%nat ->
  mjoin rows !! (t * k + s)%nat = row !! s.
Proof.
  intros Hk. revert t. induction Hk as [|row0 rows Hrow _ IH]; intros t Ht Hs; [discriminate|].
  simpl. destruct t as [|t]; simpl in Ht.
  - injection Ht as ->. simpl. apply lookup_app_l. lia.
  - rewrite lookup_app_r by (rewrite Hrow; lia).
    replace (S t * k + s - length row0)%nat with (t * k + s)%nat by (rewrite Hrow; lia).
    apply IH; assumption.
Qed.

Lemma mapM_lookup_map {A B} `{!Inhabited A} (g : B -> nat) (l : list A) (js : list B) :
  Forall (fun j => (g j < length l)%nat) js ->
  mapM (fun j => l !! g j) js = Some (map (fun j => l !!! g j) js).
Proof.
  intros Hjs. apply mapM_Some_2.
  induction Hjs as [|j js Hj _ IH]; simpl; constructor; [|exact IH].
  apply list_lookup_lookup_total_lt, Hj.
Qed.

Lemma map_lookup_total_seq {A} `{!Inhabited A} (l : list A) :
  map (fun i => l !!! i) (seq 0 (length l)) = l.
Proof.
  apply list_eq. intros i. rewrite list_lookup_fmap.
  destruct (decide (i < length l)%nat) as [Hi|Hi].
  - rewrite lookup_seq_lt by exact Hi. simpl. symmetry.
    apply list_lookup_lookup_total_lt, Hi.
  - rewrite lookup_seq_ge by lia. simpl. symmetry. apply lookup_ge_None_2. lia.
Qed.

(** *** The dispatch puts every (token, slot) output back in place *)

Section dispatch_correct.
Context `{ArgSort} (uninitialized : vec).
Context (experts : list DeepseekV3MLP) (hidden_states : list vec).
Context (num_topk : nat) (topk_indices : list (list nat)).

(** A gate decision of shape (tokens, num_topk) whose rows hold distinct
    indices of existing experts. *)
Definition well_routed : Prop :=
  length topk_indices = length hidden_states
  /\ Forall (fun row => length row = num_topk /\ NoDup row
                        /\ Forall (fun e => (e < length experts)%nat) row) topk_indices.

(** The output owed to the flattened (token, slot) position [j]: the expert
    chosen in that slot applied to the hidden state of that token. *)
Definition slot_output (j : nat) : vec :=
  MLP_row (experts !!! (mjoin topk_indices !!! j)) (hidden_states !!! (j / num_topk)%nat).

Lemma reordered_outputs_correct :
  well_routed ->
  experts_accept experts hidden_states topk_indices ->
  reordered_outputs uninitialized experts hidden_states num_topk topk_indices
  = Some (map slot_output (seq 0 (length topk_indices * num_topk))).
Proof.
  intros [Hn Hrows] Hacc.
  set (flat := mjoin topk_indices). set (N := (length topk_indices * num_topk)%nat).
  assert (Hflat : length flat = N).
  { apply join_length_uniform. eapply Forall_impl; [exact Hrows|]. simpl. tauto. }
  assert (Hrange : Forall (fun e => (e < length experts)%nat) flat).
  { unfold flat. clear -Hrows. induction Hrows as [|row rows (_ & _ & Hr) _ IH]; simpl;
      [constructor | apply Forall_app; split; assumption]. }
  destruct (argsort_spec flat) as [Hperm Hsorted].
  set (sigma := argsort flat) in *.
  assert (Hsig : forall i, i ∈ sigma -> (i < N)%nat).
  { intros i Hi. rewrite Hperm in Hi. apply elem_of_seq in Hi. lia. }
  assert (Hnd : NoDup sigma) by (rewrite Hperm; apply NoDup_seq).
  assert (Hlsig : length sigma = N) by (rewrite Hperm, length_seq; exact Hflat).
  unfold reordered_outputs. fold flat sigma.
  rewrite option_guard_True
    by (eapply Forall_impl; [exact Hrows | simpl; tauto]).
  rewrite (mapM_lookup_map (fun i => (i / num_topk)%nat) hidden_states sigma).
  2:{ apply Forall_forall. intros i Hi. specialize (Hsig i Hi). rewrite <- Hn.
      apply Nat.Div0.div_lt_upper_bound. unfold N in Hsig. lia. }
  simpl. rewrite (option_guard_True (experts_accept _ _ _)) by exact Hacc. simpl.
  set (st := map (fun i => hidden_states !!! (i / num_topk)%nat) sigma).
  set (vs := map (fun i => flat !!! i) sigma) in *.
  assert (Hvs : vs ≡ₚ flat).
  { unfold vs. rewrite Hperm. rewrite map_lookup_total_seq. reflexivity. }
  assert (Hcnt : tokens_per_expert_of (length experts) topk_indices
                 = map (count vs) (seq 0 (length experts))).
  { rewrite tokens_per_expert_count
      by (eapply Forall_impl; [exact Hrows | simpl; tauto]).
    apply map_ext. intros e. symmetry. fold flat.
    apply (proj1 (Permutation_count_occ Nat.eq_dec vs flat)), Hvs. }
  assert (Hout : mjoin (map snd (experts_loop experts st 0
                    (tokens_per_expert_of (length experts) topk_indices) 0))
                 = zip_with (fun v tok => MLP_row (experts !!! v) tok) vs st).
  { apply experts_loop_outputs.
    - reflexivity.
    - unfold st, vs. rewrite !length_map. reflexivity.
    - exact Hsorted.
    - rewrite Hcnt, length_map, length_seq. rewrite Hvs.
      eapply Forall_impl; [exact Hrange | simpl; intros; lia].
    - rewrite Hcnt, length_map, length_seq. reflexivity. }
  rewrite Hout.
  assert (Hlout : length (zip_with (fun v tok => MLP_row (experts !!! v) tok) vs st) = N).
  { rewrite length_zip_with. unfold vs, st. rewrite !length_map. lia. }
  rewrite option_guard_True by lia.
  f_equal. apply list_eq. intros j. rewrite list_lookup_fmap.
  destruct (decide (j < N)%nat) as [Hj|Hj].
  - rewrite lookup_seq_lt by exact Hj. simpl.
    assert (Hin : j ∈ sigma) by (rewrite Hperm; apply elem_of_seq; lia).
    apply list_elem_of_lookup_1 in Hin as [i Hi].
    apply (index_put_lookup sigma _ _ i); [exact Hnd | exact Hi | | rewrite length_replicate; lia].
    rewrite lookup_zip_with. unfold vs, st. rewrite !list_lookup_fmap, Hi. reflexivity.
  - rewrite lookup_seq_ge by lia. simpl. apply lookup_ge_None_2.
    rewrite index_put_length, length_replicate. lia.
Qed.

(** An expert called on rows of another width than its own raises. *)
Lemma reordered_outputs_rejected :
  ~ experts_accept experts hidden_states topk_indices ->
  reordered_outputs uninitialized experts hidden_states num_topk topk_indices = None.
Proof.
  intros Hrej. unfold reordered_outputs.
  rewrite (option_guard_False (experts_accept _ _ _)) by exact Hrej.
  destruct (guard _) as [Hguard|]; simpl; [|reflexivity].
  destruct (mapM _ _) as [sorted_tokens|]; reflexivity.
Qed.

End dispatch_correct.

Section combine_correct.
Context `{ArgSort} (uninitialized : vec).
Context (experts : list DeepseekV3MLP) (hidden_states : list vec).
Context (num_topk : nat) (topk_indices : list (list nat)).

(** The outputs owed to the slots of one token. *)
Definition token_slots (idx : list nat) (hidden : vec) : list vec :=
  map (fun e => MLP_row (experts !!! e) hidden) idx.

Lemma per_token_rows :
  well_routed experts hidden_states num_topk topk_indices ->
  map (fun t => take num_topk (drop (t * num_topk)
          (map (slot_output experts hidden_states num_topk topk_indices)
             (seq 0 (length topk_indices * num_topk)))))
      (seq 0 (length topk_indices))
  = zip_with token_slots topk_indices hidden_states.
Proof.
  intros [Hn Hrows]. set (n := length topk_indices) in *.
  assert (Hk : Forall (fun row => length row = num_topk) topk_indices)
    by (eapply Forall_impl; [exact Hrows | simpl; tauto]).
  apply list_eq. intros t. rewrite list_lookup_fmap, lookup_zip_with.
  destruct (decide (t < n)%nat) as [Ht|Ht].
  2:{ rewrite lookup_seq_ge by lia. rewrite (lookup_ge_None_2 topk_indices t) by (fold n; lia).
      reflexivity. }
  rewrite lookup_seq_lt by exact Ht. simpl.
  destruct (lookup_lt_is_Some_2 topk_indices t Ht) as [row Hrow].
  destruct (lookup_lt_is_Some_2 hidden_states t ltac:(lia)) as [h Hh].
  rewrite Hrow, Hh. simpl. f_equal.
  assert (Hlen : length row = num_topk)
    by (rewrite Forall_forall in Hk; apply Hk; eapply list_elem_of_lookup_2, Hrow).
  assert (Hseq : take num_topk (drop (t * num_topk) (seq 0 (n * num_topk)))
                 = Nat.add (t * num_topk) <$> seq 0 num_topk).
  { rewrite drop_seq, take_seq.
    replace (num_topk `min` (n * num_topk - t * num_topk))%nat with num_topk by nia.
    rewrite (fmap_add_seq (t * num_topk) 0 num_topk). f_equal; lia. }
  rewrite <- fmap_drop, <- fmap_take, Hseq, <- list_fmap_compose.
  unfold token_slots.
  transitivity (map (fun e => MLP_row (experts !!! e) h)
                  (map (fun i => row !!! i) (seq 0 (length row))));
    [| rewrite map_lookup_total_seq; reflexivity].
  rewrite Hlen, map_map. apply map_ext_in. intros s Hs. apply in_seq in Hs.
  unfold slot_output; simpl.
  assert (Hdiv : ((t * num_topk + s) / num_topk = t)%nat).
  { symmetry. apply Nat.div_unique with (r := s); lia. }
  rewrite Hdiv. rewrite (list_lookup_total_correct _ _ _ Hh). f_equal. f_equal.
  rewrite !list_lookup_total_alt.
  rewrite (join_lookup_uniform num_topk topk_indices t s row Hk Hrow) by lia.
  reflexivity.
Qed.

Lemma length_MLP_row (mlp : DeepseekV3MLP) (x : vec) :
  length (MLP_row mlp x) = length (down_proj mlp).
Proof. unfold MLP_row, F_linear. apply length_map. Qed.

(** [moe_infer] returns, token by token, the weighted sum of the outputs of
    the experts chosen for that token. *)
Lemma moe_infer_correct (width : nat) (topk_weights : list vec) :
  well_routed experts hidden_states num_topk topk_indices ->
  experts_accept experts hidden_states topk_indices ->
  (length topk_indices * num_topk)%nat <> 0%nat ->
  Forall (fun mlp => length (down_proj mlp) = width) experts ->
  moe_infer uninitialized experts hidden_states num_topk topk_indices topk_weights
  = Some (zip_with (weighted_sum width) topk_weights
            (zip_with token_slots topk_indices hidden_states)).
Proof.
  intros Hwr Hacc HN Hwidth. unfold moe_infer.
  rewrite (reordered_outputs_correct uninitialized _ _ _ _ Hwr Hacc). simpl.
  set (N := (length topk_indices * num_topk)%nat) in *.
  destruct N as [|N'] eqn:HNeq; [contradiction|].
  rewrite option_guard_True by (simpl; discriminate).
  rewrite <- HNeq. subst N. rewrite (per_token_rows Hwr).
  rewrite HNeq. f_equal. f_equal. f_equal. simpl.
  unfold slot_output. rewrite length_MLP_row.
  destruct Hwr as [_ Hrows].
  assert (He : (mjoin topk_indices !!! 0%nat < length experts)%nat).
  { destruct topk_indices as [|row rows]; [discriminate|].
    apply Forall_cons in Hrows as [(Hlen & _ & Hr) _].
    destruct row as [|e row]; [simpl in *; subst num_topk; lia|].
    apply Forall_cons in Hr as [He _]. exact He. }
  destruct (lookup_lt_is_Some_2 experts _ He) as [mlp Hmlp].
  rewrite (list_lookup_total_correct _ _ _ Hmlp).
  rewrite Forall_forall in Hwidth. apply Hwidth. eapply list_elem_of_lookup_2, Hmlp.
Qed.

End combine_correct.

(** *** [DeepseekV3MoE.forward] *)

Lemma gate_forward_shape `{TopK} (g : MoEGate) (hidden_states : list (list vec))
    (topk_indices : list (list nat)) (topk_weights : list vec) :
  valid_gate g ->
  Gate.forward g hidden_states = Some (topk_indices, topk_weights) ->
  length topk_indices = length (mjoin hidden_states)
  /\ length topk_weights = length (mjoin hidden_states)
  /\ Forall (fun row => length row = num_experts_per_tok (config g) /\ NoDup row
                        /\ Forall (fun e => (e < n_routed_experts (config g))%nat) row)
       topk_indices.
Proof.
  intros Hv Hf. pose proof (forward_rows g _ _ _ Hf) as Hrows.
  destruct (forward_lengths g _ _ _ Hf) as [Hli Hlw].
  repeat split; try assumption.
  apply Forall_forall. intros row Hrow.
  apply list_elem_of_lookup_1 in Hrow as [t Ht].
  destruct (lookup_lt_is_Some_2 topk_weights t) as [w Hw];
    [rewrite Hlw, <- Hli; eapply lookup_lt_Some, Ht|].
  assert (Hz : zip topk_indices topk_weights !! t = Some (row, w))
    by (apply lookup_zip_Some; split; assumption).
  destruct (Forall2_lookup_r _ _ _ _ _ Hrows Hz) as (h & _ & Hh).
  destruct (forward_row_routed g h Hv) as (row' & Hrow' & Hl & Hnd & Hlt & _).
  assert (row' = (row, w)) by congruence. subst row'.
  repeat split; try assumption. apply Forall_forall. exact Hlt.
Qed.

Lemma view_as_Forall2 {A B} (P : A -> B -> Prop) (orig : list (list A)) :
  forall flat, Forall2 P (mjoin orig) flat -> Forall2 (Forall2 P) orig (view_as orig flat).
Proof.
  induction orig as [|row orig IH]; intros flat Hf; simpl; [constructor|].
  simpl in Hf. apply Forall2_app_inv_l in Hf as (f1 & f2 & H1 & H2 & ->).
  pose proof (Forall2_length _ _ _ H1) as Hlen.
  rewrite Hlen, take_app_length, drop_app_length.
  constructor; [exact H1 | apply IH, H2].
Qed.

Section forward_value.
Context `{TopK, ArgSort} (uninitialized : vec) (moe : DeepseekV3MoE).

#[local] Abbreviation top_k := (num_experts_per_tok (config (gate moe))).

(** The block on its domain: the value of [forward] in terms of the gate
    decision. *)
Lemma forward_value (width : nat) (hidden_states : list (list vec)) :
  valid_gate (gate moe) ->
  token_shaped (gate moe) hidden_states ->
  width = Gate.hidden_size (config (gate moe)) ->
  length (experts moe) = n_routed_experts (config (gate moe)) ->
  Forall (fun mlp => length (down_proj mlp) = width) (experts moe) ->
  length (down_proj (shared_experts moe)) = width ->
  mjoin hidden_states <> [] ->
  top_k <> 0%nat ->
  exists topk_indices topk_weights,
    Gate.forward (gate moe) hidden_states = Some (topk_indices, topk_weights)
    /\ well_routed (experts moe) (mjoin hidden_states) top_k topk_indices
    /\ experts_accept (experts moe) (mjoin hidden_states) topk_indices
    /\ length topk_weights = length (mjoin hidden_states)
    /\ forward uninitialized moe hidden_states
       = Some (zip_with (zip_with vadd)
                 (view_as hidden_states
                    (zip_with (weighted_sum width) topk_weights
                       (zip_with (token_slots (experts moe)) topk_indices
                          (mjoin hidden_states))))
                 (map (MLP_forward (shared_experts moe)) hidden_states)).
Proof.
  intros Hv Hshape Hw HE Hwidth Hshared Hne Hk.
  destruct (forward_total (gate moe) hidden_states Hv Hshape) as [[idxs ws] Hf].
  destruct (gate_forward_shape _ _ _ _ Hv Hf) as (Hli & Hlw & Hrows).
  assert (Hwr : well_routed (experts moe) (mjoin hidden_states) top_k idxs).
  { split; [exact Hli|]. rewrite HE. exact Hrows. }
  assert (HN : (length idxs * top_k)%nat <> 0%nat).
  { rewrite Hli. destruct (mjoin hidden_states); [contradiction | simpl; lia]. }
  assert (Htok : Forall (fun x : vec => length x = width) (mjoin hidden_states)).
  { rewrite Hw. apply Forall_join, (proj2 Hshape). }
  assert (Hacc : experts_accept (experts moe) (mjoin hidden_states) idxs).
  { unfold experts_accept. apply Forall_join.
    eapply Forall_impl; [exact Hrows|]. intros row (_ & _ & Hrange). simpl.
    eapply Forall_impl; [exact Hrange|]. intros e He. simpl.
    rewrite <- HE in He. destruct (lookup_lt_is_Some_2 _ _ He) as [mlp Hmlp].
    rewrite (list_lookup_total_correct _ _ _ Hmlp).
    rewrite Forall_forall in Hwidth.
    rewrite <- (proj1 (down_proj_shape mlp)), (Hwidth mlp (list_elem_of_lookup_2 _ _ _ Hmlp)).
    exact Htok. }
  exists idxs, ws.
  split; [exact Hf|]. split; [exact Hwr|]. split; [exact Hacc|]. split; [exact Hlw|].
  unfold forward. rewrite Hf. simpl.
  rewrite (moe_infer_correct uninitialized _ _ _ _ width ws Hwr Hacc HN Hwidth). simpl.
  unfold view. rewrite option_guard_True; simpl.
  - rewrite option_guard_True; [reflexivity|].
    rewrite <- (proj1 (down_proj_shape (shared_experts moe))), Hshared, Hw.
    apply (proj2 Hshape).
  - apply Forall2_same_length_lookup_2.
    + rewrite !length_zip_with. lia.
    + intros t h o Hh Ho.
      apply lookup_zip_with_Some in Ho as (w & slots & -> & _ & _).
      unfold weighted_sum. rewrite length_map, length_seq.
      rewrite Forall_forall in Htok. symmetry. apply Htok. eapply list_elem_of_lookup_2, Hh.
Qed.

End forward_value.

Lemma weighted_sum_lookup (width k : nat) (w : vec) (idx : list nat) (F : nat -> vec) (c : nat) :
  length w = k -> length idx = k -> (c < width)%nat ->
  weighted_sum width w (map F idx) !!! c
  = Rsum (map (fun s => w !!! s * F (idx !!! s) !!! c) (seq 0 k)).
Proof.
  intros Hw Hidx Hc. unfold weighted_sum.
  rewrite (list_lookup_total_correct _ c
             (Rsum (zip_with (fun a (row : vec) => a * row !!! c) w (map F idx)))).
  2:{ rewrite list_lookup_fmap, lookup_seq_lt by exact Hc. reflexivity. }
  f_equal. apply list_eq. intros s. rewrite lookup_zip_with, !list_lookup_fmap.
  destruct (decide (s < k)%nat) as [Hs|Hs].
  - rewrite lookup_seq_lt by exact Hs. simpl.
    rewrite (list_lookup_lookup_total_lt w s) by lia.
    rewrite (list_lookup_lookup_total_lt idx s) by lia. reflexivity.
  - rewrite lookup_seq_ge by lia. rewrite (lookup_ge_None_2 w s) by lia. reflexivity.
Qed.

Section forward_correct.
Context `{TopK, ArgSort} (uninitialized : vec) (moe : DeepseekV3MoE).

#[local] Abbreviation top_k := (num_experts_per_tok (config (gate moe))).

(** Channel [c] of the output owed to one token: the sum over its [top_k]
    slots of the weight of the slot times channel [c] of the routed expert of
    the slot applied to the hidden state, plus channel [c] of the shared
    expert applied to the same hidden state. *)
Definition channel_output (hidden : vec) (idx : list nat) (w : vec) (c : nat) : R :=
  Rsum (map (fun s => w !!! s * MLP_row (experts moe !!! (idx !!! s)) hidden !!! c)
          (seq 0 top_k))
  + MLP_row (shared_experts moe) hidden !!! c.

(** The gate decision of a token and the output row it determines. *)
Definition routed_output (width : nat) (hidden out : vec) : Prop :=
  exists idx w,
    forward_row (gate moe) hidden = Some (idx, w)
    /\ length out = width
    /\ forall c, (c < width)%nat -> out !!! c = channel_output hidden idx w c.

(** C2. On hidden states of [hidden_size] channels, [DeepseekV3MoE.forward]
    returns for every token the sum over its [top_k] slots of weight times
    the assigned routed expert applied to the hidden state of the token, plus
    the shared expert applied to the same hidden state; and the indexed
    assignment after the loop puts the output of sorted entry [i] back at the
    flattened (token, slot) position it came from. *)
Theorem moe_forward_correct (width : nat) (hidden_states : list (list vec)) :
  valid_gate (gate moe) ->
  token_shaped (gate moe) hidden_states ->
  width = Gate.hidden_size (config (gate moe)) ->
  length (experts moe) = n_routed_experts (config (gate moe)) ->
  Forall (fun mlp => length (down_proj mlp) = width) (experts moe) ->
  length (down_proj (shared_experts moe)) = width ->
  mjoin hidden_states <> [] ->
  top_k <> 0%nat ->
  exists topk_indices topk_weights reordered y,
    Gate.forward (gate moe) hidden_states = Some (topk_indices, topk_weights)
    /\ reordered_outputs uninitialized (experts moe) (mjoin hidden_states)
         top_k topk_indices = Some reordered
    /\ (forall t s hidden idx e,
          mjoin hidden_states !! t = Some hidden ->
          topk_indices !! t = Some idx -> idx !! s = Some e ->
          reordered !! (t * top_k + s)%nat = Some (MLP_row (experts moe !!! e) hidden))
    /\ forward uninitialized moe hidden_states = Some y
    /\ Forall2 (Forall2 (routed_output width)) hidden_states y.
Proof.
  intros Hv Hshape Hw HE Hwidth Hshared Hne Hk.
  set (tokens := mjoin hidden_states) in *.
  destruct (forward_value uninitialized moe width hidden_states Hv Hshape Hw HE Hwidth
              Hshared Hne Hk) as (idxs & ws & Hf & Hwr & Hacc & Hlw & Hy).
  fold tokens in Hwr, Hacc, Hlw, Hy.
  pose proof (forward_rows (gate moe) _ _ _ Hf) as Hgate. fold tokens in Hgate.
  pose proof Hwr as [Hli Hrows].
  assert (Hkrows : Forall (fun row => length row = top_k) idxs)
    by (eapply Forall_impl; [exact Hrows | simpl; tauto]).
  exists idxs, ws, (map (slot_output (experts moe) tokens top_k idxs)
                      (seq 0 (length idxs * top_k))).
  eexists. split; [exact Hf|].
  split; [apply reordered_outputs_correct; assumption|]. split; [| split; [exact Hy|]].
  - intros t s h idx e Ht Hidx He.
    assert (Hs : (s < top_k)%nat).
    { apply lookup_lt_Some in He. rewrite Forall_forall in Hkrows.
      rewrite (Hkrows idx) in He; [exact He | eapply list_elem_of_lookup_2, Hidx]. }
    assert (Hts : (t * top_k + s < length idxs * top_k)%nat).
    { apply lookup_lt_Some in Hidx. nia. }
    rewrite list_lookup_fmap, lookup_seq_lt by exact Hts. simpl. f_equal.
    unfold slot_output.
    assert (Hdiv : ((t * top_k + s) / top_k = t)%nat)
      by (symmetry; apply Nat.div_unique with (r := s); lia).
    rewrite Hdiv, (list_lookup_total_correct _ _ _ Ht). f_equal. f_equal.
    apply list_lookup_total_correct.
    rewrite (join_lookup_uniform top_k idxs t s idx Hkrows Hidx Hs). exact He.
  - (* token by token *)
    assert (Hmoe : Forall2 (fun h o => exists idx w,
                      forward_row (gate moe) h = Some (idx, w)
                      /\ length idx = top_k
                      /\ o = weighted_sum width w (token_slots (experts moe) idx h))
              tokens
              (zip_with (weighted_sum width) ws
                 (zip_with (token_slots (experts moe)) idxs tokens))).
    { apply Forall2_same_length_lookup_2.
      - rewrite !length_zip_with. lia.
      - intros t h o Hh Ho.
        apply lookup_zip_with_Some in Ho as (w & slots & -> & Hwt & Hslots).
        apply lookup_zip_with_Some in Hslots as (idx & h' & -> & Hidx & Hh').
        assert (h' = h) by congruence. subst h'.
        exists idx, w. split; [| split; [| reflexivity]].
        + assert (Hz : zip idxs ws !! t = Some (idx, w))
            by (apply lookup_zip_Some; split; assumption).
          destruct (Forall2_lookup_l _ _ _ _ _ Hgate Hh) as (row & Hrow & Hfr).
          congruence.
        + rewrite Forall_forall in Hkrows. apply Hkrows. eapply list_elem_of_lookup_2, Hidx. }
    apply view_as_Forall2 in Hmoe.
    revert Hmoe. generalize (view_as hidden_states
      (zip_with (weighted_sum width) ws (zip_with (token_slots (experts moe)) idxs tokens))).
    intros Y HY. clear -HY Hshared.
    induction HY as [|row yrow hs Y Hrow _ IH]; simpl; constructor; [|exact IH].
    clear IH. induction Hrow as [|h o row yrow (idx & w & Hg & Hidx & ->) _ IHr]; simpl;
      constructor; [|exact IHr].
    exists idx, w. split; [exact Hg|].
    assert (Hlw : length w = top_k).
    { rewrite (forward_row_inv (gate moe) _ _ _ Hg).
      unfold normalize_and_scale, gather.
      destruct (norm_topk_prob _); rewrite !length_map; exact Hidx. }
    assert (Hlsum : length (weighted_sum width w (token_slots (experts moe) idx h)) = width)
      by (unfold weighted_sum; rewrite length_map, length_seq; reflexivity).
    split.
    + rewrite length_vadd, Hlsum, length_MLP_row, Hshared. lia.
    + intros c Hc. unfold channel_output, vadd.
      rewrite lookup_total_zip_with_R by (rewrite ?Hlsum, ?length_MLP_row, ?Hshared; exact Hc).
      f_equal. unfold token_slots.
      apply (weighted_sum_lookup width top_k w idx
               (fun e => MLP_row (experts moe !!! e) h) c); assumption.
Qed.

End forward_correct.

Lemma unit_shape : has_shape 1 1 [[1]].
Proof. split; [reflexivity | repeat constructor]. Qed.

(** A bank of four identical one-channel experts around the small gate. *)
Definition unit_mlp : DeepseekV3MLP :=
  {| hidden_size := 1; intermediate_size := 1;
     gate_proj := [[1]]; up_proj := [[1]]; down_proj := [[1]]; act_fn := fun x => x;
     gate_proj_shape := unit_shape; up_proj_shape := unit_shape;
     down_proj_shape := unit_shape |}.

Definition small_moe : DeepseekV3MoE :=
  {| experts := [unit_mlp; unit_mlp; unit_mlp; unit_mlp];
     gate := small_gate; shared_experts := unit_mlp |}.

Lemma moe_forward_correct_witness :
  exists topk_indices topk_weights reordered y,
    Gate.forward (H := sort_TopK) small_gate [[ [1] ]] = Some (topk_indices, topk_weights)
    /\ reordered_outputs (H := sort_ArgSort) [0] (experts small_moe) [[1]] 2 topk_indices
       = Some reordered
    /\ (forall t s hidden idx e,
          [[1]] !! t = Some hidden -> topk_indices !! t = Some idx -> idx !! s = Some e ->
          reordered !! (t * 2 + s)%nat = Some (MLP_row (experts small_moe !!! e) hidden))
    /\ forward (H := sort_TopK) (H0 := sort_ArgSort) [0] small_moe [[ [1] ]] = Some y
    /\ Forall2 (Forall2 (routed_output (H := sort_TopK) small_moe 1)) [[ [1] ]] y.
Proof.
  apply (moe_forward_correct (H := sort_TopK) (H0 := sort_ArgSort) [0] small_moe 1 [[ [1] ]]).
  - exact small_gate_valid.
  - split; [discriminate | repeat constructor].
  - reflexivity.
  - reflexivity.
  - repeat constructor.
  - reflexivity.
  - discriminate.
  - discriminate.
Defined.

(** *** Experts without tokens *)

Lemma length_tokens_per_expert (num_experts : nat) (topk_indices : list (list nat)) :
  length (tokens_per_expert_of num_experts topk_indices) = num_experts.
Proof.
  unfold tokens_per_expert_of, column_sums.
  induction topk_indices as [|row rows IH]; simpl; [apply length_replicate|].
  rewrite length_zip_with, IH, expert_counts_row_length. lia.
Qed.

Lemma expert_counts_row_app (num_experts m : nat) (idx : list nat) :
  Forall (fun e => (e < num_experts)%nat) idx ->
  expert_counts_row (num_experts + m) idx
  = expert_counts_row num_experts idx ++ replicate m 0%nat.
Proof.
  unfold expert_counts_row. induction 1 as [|e idx He _ IH]; simpl.
  - apply replicate_add.
  - rewrite IH. apply insert_app_l.
    fold (expert_counts_row num_experts idx). rewrite expert_counts_row_length. exact He.
Qed.

Lemma tokens_per_expert_app (num_experts m : nat) (topk_indices : list (list nat)) :
  Forall (Forall (fun e => (e < num_experts)%nat)) topk_indices ->
  tokens_per_expert_of (num_experts + m) topk_indices
  = tokens_per_expert_of num_experts topk_indices ++ replicate m 0%nat.
Proof.
  unfold tokens_per_expert_of, column_sums.
  induction 1 as [|row rows Hrow _ IH]; simpl.
  - apply replicate_add.
  - rewrite IH, expert_counts_row_app by exact Hrow.
    rewrite zip_with_app; [f_equal|].
    + clear. induction m as [|m IHm]; simpl; [reflexivity | f_equal; exact IHm].
    + rewrite expert_counts_row_length.
      fold (column_sums num_experts (map (expert_counts_row num_experts) rows)).
      fold (tokens_per_expert_of num_experts rows).
      rewrite length_tokens_per_expert. reflexivity.
Qed.

Lemma expert_counts_row_assigned (num_experts : nat) (idx : list nat) (e c : nat) :
  expert_counts_row num_experts idx !! e = Some c -> c <> 0%nat -> e ∈ idx.
Proof.
  unfold expert_counts_row. induction idx as [|e0 idx IH]; simpl; intros Hc Hne.
  - apply lookup_replicate_1 in Hc as [-> _]. contradiction.
  - destruct (decide (e0 = e)) as [->|Hd]; [left|].
    rewrite list_lookup_insert_ne in Hc by exact Hd. right. apply IH; assumption.
Qed.

(** A non-zero entry of [tokens_per_expert] belongs to an expert that some
    token selected. *)
Lemma tokens_per_expert_assigned (num_experts : nat) (topk_indices : list (list nat))
    (e c : nat) :
  tokens_per_expert_of num_experts topk_indices !! e = Some c -> c <> 0%nat ->
  exists row, row ∈ topk_indices /\ e ∈ row.
Proof.
  unfold tokens_per_expert_of, column_sums.
  revert c. induction topk_indices as [|row rows IH]; simpl; intros c Hc Hne.
  - apply lookup_replicate_1 in Hc as [-> _]. contradiction.
  - apply lookup_zip_with_Some in Hc as (a & b & -> & Ha & Hb).
    destruct (decide (a = 0%nat)) as [->|Ha0].
    + destruct (IH b Hb ltac:(lia)) as (r & Hr & He). exists r. split; [right|]; assumption.
    + exists row. split; [left|]. eapply expert_counts_row_assigned; eassumption.
Qed.

Section unused_experts.
Context `{ArgSort} (uninitialized : vec).
Context (hidden_states : list vec) (num_topk : nat) (topk_indices : list (list nat)).

(** The width check concerns the experts named in [topk_indices] only. *)
Lemma experts_accept_ext (experts experts' : list DeepseekV3MLP) :
  (forall e, e ∈ mjoin topk_indices -> experts' !!! e = experts !!! e) ->
  experts_accept experts' hidden_states topk_indices
  <-> experts_accept experts hidden_states topk_indices.
Proof.
  intros Hagree. unfold experts_accept. rewrite !Forall_forall.
  split; intros Hacc e He; specialize (Hacc e He);
    [rewrite <- (Hagree e He) | rewrite (Hagree e He)]; exact Hacc.
Qed.

Lemma reordered_outputs_app (experts extra : list DeepseekV3MLP) :
  Forall (Forall (fun e => (e < length experts)%nat)) topk_indices ->
  reordered_outputs uninitialized (experts ++ extra) hidden_states num_topk topk_indices
  = reordered_outputs uninitialized experts hidden_states num_topk topk_indices.
Proof.
  intros Hrange. unfold reordered_outputs.
  rewrite !option_guard_True; [| exact Hrange |].
  2:{ eapply Forall_impl; [exact Hrange|]. intros row Hrow.
      eapply Forall_impl; [exact Hrow|]. simpl. intros e He. rewrite length_app. lia. }
  destruct (mapM _ _) as [sorted_tokens|]; simpl; [|reflexivity].
  rewrite (option_guard_iff (experts_accept (experts ++ extra) _ _)
             (experts_accept experts hidden_states topk_indices)).
  2:{ apply experts_accept_ext. intros e He.
      apply lookup_total_app_l. pose proof (Forall_join _ _ Hrange) as Hall.
      rewrite Forall_forall in Hall. apply Hall, He. }
  rewrite length_app, tokens_per_expert_app by exact Hrange.
  rewrite experts_loop_trailing_zeros.
  rewrite (experts_loop_ext (experts ++ extra) experts); [reflexivity|].
  intros i c Hi _. apply lookup_lt_Some in Hi. rewrite length_tokens_per_expert in Hi.
  apply lookup_total_app_l. simpl. exact Hi.
Qed.

Lemma reordered_outputs_insert (experts : list DeepseekV3MLP) (e : nat) (mlp : DeepseekV3MLP) :
  (forall row, row ∈ topk_indices -> e ∉ row) ->
  reordered_outputs uninitialized (<[e := mlp]> experts) hidden_states num_topk topk_indices
  = reordered_outputs uninitialized experts hidden_states num_topk topk_indices.
Proof.
  intros Hunused. unfold reordered_outputs. rewrite length_insert.
  destruct (guard (Forall _ topk_indices)) as [Hguard|]; simpl; [|reflexivity].
  destruct (mapM _ _) as [sorted_tokens|]; simpl; [|reflexivity].
  rewrite (option_guard_iff (experts_accept (<[e := mlp]> experts) _ _)
             (experts_accept experts hidden_states topk_indices)).
  2:{ apply experts_accept_ext. intros e' He'.
      apply list_lookup_total_insert_ne. intros ->.
      apply list_elem_of_join in He' as (row & Hin & Hrow). exact (Hunused row Hrow Hin). }
  rewrite (experts_loop_ext (<[e := mlp]> experts) experts); [reflexivity|].
  intros i c Hi Hc. simpl.
  destruct (tokens_per_expert_assigned _ _ _ _ Hi Hc) as (row & Hrow & Hin).
  apply list_lookup_total_insert_ne. intros ->. exact (Hunused row Hrow Hin).
Qed.

(** C6. The dispatch is unchanged when an expert that no token selected is
    added to the bank or replaced by any other expert; such an expert is
    skipped by the loop: every expert the loop evaluates was selected by
    some token. *)
Theorem moe_infer_ignores_unassigned_experts
    (experts : list DeepseekV3MLP) (topk_weights : list vec) :
  (forall extra,
     Forall (Forall (fun e => (e < length experts)%nat)) topk_indices ->
     moe_infer uninitialized (experts ++ extra) hidden_states num_topk topk_indices topk_weights
     = moe_infer uninitialized experts hidden_states num_topk topk_indices topk_weights)
  /\ (forall e mlp,
        (forall row, row ∈ topk_indices -> e ∉ row) ->
        moe_infer uninitialized (<[e := mlp]> experts) hidden_states num_topk topk_indices
          topk_weights
        = moe_infer uninitialized experts hidden_states num_topk topk_indices topk_weights)
  /\ (forall sorted_tokens e,
        e ∈ map fst (experts_loop experts sorted_tokens 0
                       (tokens_per_expert_of (length experts) topk_indices) 0) ->
        exists row, row ∈ topk_indices /\ e ∈ row).
Proof.
  split; [| split].
  - intros extra Hrange. unfold moe_infer. rewrite reordered_outputs_app by exact Hrange.
    reflexivity.
  - intros e mlp Hunused. unfold moe_infer. rewrite reordered_outputs_insert by exact Hunused.
    reflexivity.
  - intros sorted_tokens e He.
    destruct (experts_loop_invoked _ _ _ _ _ _ He) as (c & Hc & Hne & _).
    rewrite Nat.sub_0_r in Hc. eapply tokens_per_expert_assigned; eassumption.
Qed.

End unused_experts.

Lemma other_shape (a : R) : has_shape 1 1 [[a]].
Proof. split; [reflexivity | repeat constructor]. Qed.

Lemma moe_infer_ignores_unassigned_experts_witness :
  let other := {| hidden_size := 1; intermediate_size := 1;
                  gate_proj := [[2]]; up_proj := [[3]]; down_proj := [[5]];
                  act_fn := fun x => x;
                  gate_proj_shape := other_shape 2; up_proj_shape := other_shape 3;
                  down_proj_shape := other_shape 5 |} in
  moe_infer (H := sort_ArgSort) [0] ([unit_mlp; unit_mlp] ++ [other]) [[1]] 1 [[0%nat]] [[1]]
  = moe_infer (H := sort_ArgSort) [0] [unit_mlp; unit_mlp] [[1]] 1 [[0%nat]] [[1]]
  /\ moe_infer (H := sort_ArgSort) [0] (<[1%nat := other]> [unit_mlp; unit_mlp]) [[1]] 1 [[0%nat]] [[1]]
     = moe_infer (H := sort_ArgSort) [0] [unit_mlp; unit_mlp] [[1]] 1 [[0%nat]] [[1]].
Proof.
  intros other.
  destruct (moe_infer_ignores_unassigned_experts (H := sort_ArgSort) [0] [[1]] 1 [[0%nat]]
              [unit_mlp; unit_mlp] [[1]]) as (Happ & Hins & _).
  split.
  - apply Happ. repeat constructor.
  - apply Hins. intros row Hrow Hin.
    apply list_elem_of_singleton in Hrow. subst row.
    apply list_elem_of_singleton in Hin. discriminate Hin.
Defined.

(** *** Further properties of the dispatch *)

Lemma index_put_overwrites {A} (idx : list nat) (dst dst' src : list A) :
  NoDup idx -> (forall j, (j < length dst)%nat -> j ∈ idx) ->
  length src = length idx -> length dst = length dst' ->
  index_put dst idx src = index_put dst' idx src.
Proof.
  intros Hnd Hall Hsrc Hlen. apply list_eq. intros j.
  destruct (decide (j < length dst)%nat) as [Hj|Hj].
  - destruct (proj1 (list_elem_of_lookup _ _) (Hall j Hj)) as [i Hi].
    destruct (lookup_lt_is_Some_2 src i) as [x Hx];
      [rewrite Hsrc; eapply lookup_lt_Some, Hi|].
    rewrite (index_put_lookup idx dst src i j x), (index_put_lookup idx dst' src i j x);
      try assumption; [reflexivity | lia].
  - rewrite !lookup_ge_None_2; [reflexivity | |]; rewrite index_put_length; lia.
Qed.

(** X10. The tensor allocated by [torch.empty_like] is overwritten entirely:
    whenever [moe_infer] returns, its result does not depend on the contents
    of the uninitialized memory, and neither does [DeepseekV3MoE.forward]. *)
Theorem moe_never_reads_uninitialized `{TopK, ArgSort} (u u' : vec) :
  (forall experts hidden_states num_topk topk_indices topk_weights,
     moe_infer u experts hidden_states num_topk topk_indices topk_weights
     = moe_infer u' experts hidden_states num_topk topk_indices topk_weights)
  /\ (forall moe hidden_states, forward u moe hidden_states = forward u' moe hidden_states).
Proof.
  assert (Hr : forall experts hidden_states num_topk topk_indices,
             reordered_outputs u experts hidden_states num_topk topk_indices
             = reordered_outputs u' experts hidden_states num_topk topk_indices).
  { intros experts hidden_states num_topk topk_indices. unfold reordered_outputs.
    destruct (guard (Forall _ topk_indices)) as [Hg|]; simpl; [|reflexivity].
    destruct (mapM _ _) as [sorted_tokens|]; simpl; [|reflexivity].
    destruct (guard (experts_accept _ _ _)) as [Hacc|]; simpl; [|reflexivity].
    rewrite !option_guard_decide. destruct (decide _) as [Hlen|]; [|reflexivity].
    f_equal.
    destruct (argsort_spec (mjoin topk_indices)) as [Hperm _].
    apply index_put_overwrites.
    - rewrite Hperm. apply NoDup_seq.
    - intros j Hj. rewrite length_replicate, Hlen in Hj.
      rewrite Hperm in Hj |- *. rewrite length_seq in Hj. apply elem_of_seq. lia.
    - exact Hlen.
    - rewrite !length_replicate. reflexivity. }
  assert (Hm : forall experts hidden_states num_topk topk_indices topk_weights,
     moe_infer u experts hidden_states num_topk topk_indices topk_weights
     = moe_infer u' experts hidden_states num_topk topk_indices topk_weights).
  { intros. unfold moe_infer. rewrite Hr. reflexivity. }
  split; [exact Hm|].
  intros moe hidden_states. unfold forward.
  destruct (Gate.forward _ _) as [[idxs ws]|]; simpl; [|reflexivity].
  rewrite Hm. reflexivity.
Qed.

Lemma sum_list_insert (row : list nat) (i v w : nat) :
  row !! i = Some v -> (sum_list (<[i := w]> row) + v = sum_list row + w)%nat.
Proof.
  revert i. induction row as [|x row IH]; intros [|i] Hi; simpl in *; try discriminate.
  - injection Hi as ->. lia.
  - specialize (IH i Hi). lia.
Qed.

Lemma sum_list_zip_add (a b : list nat) :
  length a = length b -> sum_list (zip_with Nat.add a b) = (sum_list a + sum_list b)%nat.
Proof.
  revert b. induction a as [|x a IH]; intros [|y b] Hl; simpl in *; try discriminate;
    [reflexivity|].
  rewrite IH by lia. lia.
Qed.

Lemma sum_list_replicate_0 (m : nat) : sum_list (replicate m 0%nat) = 0%nat.
Proof. induction m; simpl; lia. Qed.

Lemma expert_counts_row_flag (num_experts : nat) (idx : list nat) (e : nat) :
  (e < num_experts)%nat ->
  expert_counts_row num_experts idx !! e = Some (if decide (e ∈ idx) then 1%nat else 0%nat).
Proof.
  intros He. unfold expert_counts_row. induction idx as [|e0 idx IH]; simpl.
  - rewrite lookup_replicate_2 by exact He.
    destruct (decide (e ∈ [])) as [Hin|_]; [inversion Hin | reflexivity].
  - fold (expert_counts_row num_experts idx) in *.
    destruct (decide (e0 = e)) as [->|Hne].
    + rewrite list_lookup_insert_eq by (rewrite expert_counts_row_length; exact He).
      destruct (decide (e ∈ e :: idx)) as [_|Hn]; [reflexivity | exfalso; apply Hn; left].
    + rewrite list_lookup_insert_ne by exact Hne. rewrite IH.
      destruct (decide (e ∈ idx)), (decide (e ∈ e0 :: idx)) as [Hin|Hn]; try reflexivity.
      * exfalso. apply Hn. right. assumption.
      * apply elem_of_cons in Hin as [->|?]; [congruence | contradiction].
Qed.

(** The ones of a row of [expert_counts] number the distinct experts of the
    token. *)
Lemma expert_counts_row_sum (num_experts : nat) (idx : list nat) :
  Forall (fun e => (e < num_experts)%nat) idx ->
  (sum_list (expert_counts_row num_experts idx) <= length idx)%nat
  /\ (sum_list (expert_counts_row num_experts idx) = length idx <-> NoDup idx).
Proof.
  induction 1 as [|e idx He _ [IHle IHeq]]; simpl.
  - rewrite sum_list_replicate_0. split; [lia | split; [constructor | reflexivity]].
  - fold (expert_counts_row num_experts idx) in *.
    pose proof (expert_counts_row_flag num_experts idx e He) as Hflag.
    pose proof (sum_list_insert _ e _ 1%nat Hflag) as Hsum.
    rewrite NoDup_cons.
    destruct (decide (e ∈ idx)) as [Hin|Hnin]; (split; [lia|]); split.
    + intros Heq. lia.
    + intros [Hn _]. contradiction.
    + intros Heq. split; [exact Hnin | apply IHeq; lia].
    + intros [_ Hnd]. apply IHeq in Hnd. lia.
Qed.

Lemma tokens_per_expert_sum (num_experts : nat) (topk_indices : list (list nat)) :
  Forall (Forall (fun e => (e < num_experts)%nat)) topk_indices ->
  (sum_list (tokens_per_expert_of num_experts topk_indices) <= length (mjoin topk_indices))%nat
  /\ (sum_list (tokens_per_expert_of num_experts topk_indices) = length (mjoin topk_indices)
      <-> Forall NoDup topk_indices).
Proof.
  induction 1 as [|row rows Hrow _ [IHle IHeq]].
  - unfold tokens_per_expert_of, column_sums. simpl. rewrite sum_list_replicate_0.
    split; [lia | split; [constructor | reflexivity]].
  - unfold tokens_per_expert_of, column_sums in *. simpl.
    fold (column_sums num_experts (map (expert_counts_row num_experts) rows)) in *.
    fold (tokens_per_expert_of num_experts rows) in *.
    rewrite sum_list_zip_add
      by (rewrite expert_counts_row_length, length_tokens_per_expert; reflexivity).
    destruct (expert_counts_row_sum num_experts row Hrow) as [Hle Heq].
    rewrite length_app, Forall_cons. split; [lia|]. split.
    + intros Hsum. split; [apply Heq | apply IHeq]; lia.
    + intros [Hnd Hnds]. apply Heq in Hnd. apply IHeq in Hnds. lia.
Qed.

Lemma experts_loop_length (experts : list DeepseekV3MLP) (sorted_tokens : list vec)
    (cnts : list nat) :
  forall e0 pos,
  (length (mjoin (map snd (experts_loop experts sorted_tokens e0 cnts pos)))
   <= sum_list cnts)%nat.
Proof.
  induction cnts as [|c cnts IH]; intros e0 pos; simpl; [lia|].
  destruct (decide (c = 0%nat)) as [->|Hc]; [apply IH|].
  simpl. rewrite length_app. unfold MLP_forward. rewrite length_map, length_take.
  specialize (IH (S e0) (pos + c)%nat). lia.
Qed.

Section decisions.
Context `{ArgSort} (uninitialized : vec).

(** X11. [moe_infer] returns only for gate decisions whose rows hold
    distinct indices of existing experts: a repeated expert in the row of a
    token, or an index outside the bank, makes it raise. *)
Theorem moe_infer_requires_distinct_experts (experts : list DeepseekV3MLP)
    (hidden_states : list vec) (num_topk : nat) (topk_indices : list (list nat))
    (topk_weights y : list vec) :
  moe_infer uninitialized experts hidden_states num_topk topk_indices topk_weights = Some y ->
  Forall (fun row => NoDup row /\ Forall (fun e => (e < length experts)%nat) row) topk_indices.
Proof.
  unfold moe_infer.
  destruct (reordered_outputs _ _ _ _ _) as [r|] eqn:Hr; simpl; [|discriminate].
  intros _. unfold reordered_outputs in Hr.
  rewrite option_guard_decide in Hr. destruct (decide _) as [Hrange|]; [|discriminate].
  destruct (mapM _ _) as [sorted_tokens|]; simpl in Hr; [|discriminate].
  rewrite option_guard_decide in Hr. destruct (decide _) as [Hacc|]; [|discriminate].
  rewrite option_guard_decide in Hr. destruct (decide _) as [Hlen|]; [|discriminate].
  destruct (argsort_spec (mjoin topk_indices)) as [Hperm _].
  rewrite Hperm, length_seq in Hlen.
  pose proof (experts_loop_length experts sorted_tokens
                (tokens_per_expert_of (length experts) topk_indices) 0 0) as Hle.
  destruct (tokens_per_expert_sum _ _ Hrange) as [Hsum Hnd].
  assert (Hall : Forall NoDup topk_indices) by (apply Hnd; lia).
  apply Forall_forall. intros row Hrow. rewrite Forall_forall in Hall, Hrange. auto.
Qed.

End decisions.

Lemma moe_infer_requires_distinct_experts_witness :
  exists y,
    moe_infer (H := sort_ArgSort) [0] [unit_mlp; unit_mlp] [[1]] 2 [[1%nat; 0%nat]] [[1; 1]]
    = Some y
    /\ Forall (fun row => NoDup row /\ Forall (fun e => (e < 2)%nat) row) [[1%nat; 0%nat]].
Proof.
  assert (Hs : is_Some (moe_infer (H := sort_ArgSort) [0] [unit_mlp; unit_mlp] [[1]] 2
                          [[1%nat; 0%nat]] [[1; 1]])) by (eexists; reflexivity).
  destruct Hs as [y Hy]. exists y. split; [exact Hy|].
  exact (moe_infer_requires_distinct_experts (H := sort_ArgSort) [0] _ _ _ _ _ _ Hy).
Defined.

(** X12. For rows of distinct, existing experts [tokens_per_expert] counts
    exactly: entry [e] is the number of (token, slot) pairs assigned to expert
    [e], and the entries add up to the number of pairs. *)
Theorem tokens_per_expert_exact (num_experts : nat) (topk_indices : list (list nat)) :
  Forall (fun row => NoDup row /\ Forall (fun e => (e < num_experts)%nat) row) topk_indices ->
  tokens_per_expert_of num_experts topk_indices
  = map (count (mjoin topk_indices)) (seq 0 num_experts)
  /\ sum_list (tokens_per_expert_of num_experts topk_indices) = length (mjoin topk_indices).
Proof.
  intros Hrows.
  assert (Hnd : Forall NoDup topk_indices)
    by (eapply Forall_impl; [exact Hrows | simpl; tauto]).
  assert (Hrange : Forall (Forall (fun e => (e < num_experts)%nat)) topk_indices)
    by (eapply Forall_impl; [exact Hrows | simpl; tauto]).
  split; [apply tokens_per_expert_count, Hnd|].
  apply (tokens_per_expert_sum _ _ Hrange), Hnd.
Qed.

Lemma tokens_per_expert_exact_witness :
  tokens_per_expert_of 3 [[2; 0]; [0; 1]]%nat = [2; 1; 1]%nat
  /\ sum_list (tokens_per_expert_of 3 [[2; 0]; [0; 1]]%nat) = 4%nat.
Proof.
  destruct (tokens_per_expert_exact 3 [[2; 0]; [0; 1]]%nat) as [H1 H2].
  - repeat constructor; try lia; intros Hin;
      repeat (apply elem_of_cons in Hin as [Hin|Hin]; [discriminate Hin|]);
      inversion Hin.
  - split; [rewrite H1; reflexivity | exact H2].
Defined.

Lemma experts_loop_trace (experts : list DeepseekV3MLP) (sorted_tokens : list vec)
    (cnts : list nat) :
  forall e0 pos,
  (pos + sum_list cnts <= length sorted_tokens)%nat ->
  map (fun p : nat * list vec => (p.1, length p.2))
    (experts_loop experts sorted_tokens e0 cnts pos)
  = filter (fun p : nat * nat => p.2 <> 0%nat) (zip (seq e0 (length cnts)) cnts).
Proof.
  induction cnts as [|c cnts IH]; intros e0 pos Hpos; simpl in *; [reflexivity|].
  destruct (decide (c = 0%nat)) as [->|Hc].
  - rewrite filter_cons_False by (simpl; lia). apply IH. lia.
  - rewrite filter_cons_True by (simpl; lia). simpl. f_equal.
    + f_equal. unfold MLP_forward. rewrite length_map, length_take, length_drop. lia.
    + apply IH. lia.
Qed.

(** X13. On a gate decision with distinct, existing experts per token, the
    loop evaluates the experts in increasing order, each expert with at least
    one token exactly once, on a batch of exactly as many rows as (token,
    slot) pairs were assigned to it; experts without tokens are skipped. *)
Theorem experts_called_once_on_their_tokens (experts : list DeepseekV3MLP)
    (topk_indices : list (list nat)) (sorted_tokens : list vec) :
  Forall (fun row => NoDup row /\ Forall (fun e => (e < length experts)%nat) row)
    topk_indices ->
  length sorted_tokens = length (mjoin topk_indices) ->
  map (fun p : nat * list vec => (p.1, length p.2))
    (experts_loop experts sorted_tokens 0
       (tokens_per_expert_of (length experts) topk_indices) 0)
  = filter (fun p : nat * nat => p.2 <> 0%nat)
      (map (fun e => (e, count (mjoin topk_indices) e)) (seq 0 (length experts))).
Proof.
  intros Hrows Hlen.
  assert (Hnd : Forall NoDup topk_indices)
    by (eapply Forall_impl; [exact Hrows | simpl; tauto]).
  assert (Hrange : Forall (Forall (fun e => (e < length experts)%nat)) topk_indices)
    by (eapply Forall_impl; [exact Hrows | simpl; tauto]).
  pose proof (tokens_per_expert_count (length experts) _ Hnd) as Hcnt.
  pose proof (proj2 (proj2 (tokens_per_expert_sum _ _ Hrange)) Hnd) as Hsum.
  rewrite experts_loop_trace by (rewrite Hsum, Hlen; lia).
  rewrite length_tokens_per_expert, Hcnt. f_equal.
  generalize (seq 0 (length experts)). intros l.
  induction l as [|e l IHl]; simpl; [reflexivity | f_equal; exact IHl].
Qed.

Lemma experts_called_once_on_their_tokens_witness :
  map (fun p : nat * list vec => (p.1, length p.2))
    (experts_loop [unit_mlp; unit_mlp; unit_mlp] [[1]; [2]; [3]; [4]] 0
       (tokens_per_expert_of 3 [[2; 0]; [0; 2]]%nat) 0)
  = [(0, 2); (2, 2)]%nat.
Proof.
  refine (eq_trans (experts_called_once_on_their_tokens [unit_mlp; unit_mlp; unit_mlp]
             [[2; 0]; [0; 2]]%nat [[1]; [2]; [3]; [4]] _ _) _).
  - repeat constructor; try lia; intros Hin;
      repeat (apply elem_of_cons in Hin as [Hin|Hin]; [discriminate Hin|]);
      inversion Hin.
  - reflexivity.
  - reflexivity.
Defined.

Lemma weighted_sum_pairs (width : nat) (F : nat -> vec) (pairs : list (nat * R)) :
  weighted_sum width (map snd pairs) (map F (map fst pairs))
  = map (fun c => Rsum (map (fun p : nat * R => p.2 * F p.1 !!! c) pairs)) (seq 0 width).
Proof.
  unfold weighted_sum. apply map_ext. intros c. f_equal.
  induction pairs as [|p pairs IH]; simpl; [reflexivity | f_equal; exact IH].
Qed.

Lemma weighted_sum_Permutation (width : nat) (F : nat -> vec) (pairs pairs' : list (nat * R)) :
  pairs ≡ₚ pairs' ->
  weighted_sum width (map snd pairs) (map F (map fst pairs))
  = weighted_sum width (map snd pairs') (map F (map fst pairs')).
Proof.
  intros Hp. rewrite !weighted_sum_pairs. apply map_ext. intros c.
  apply Rsum_Permutation, Permutation_map, Hp.
Qed.

Section slot_order.
Context `{ArgSort} (uninitialized : vec).

(** X14. The order of the slots of a token does not matter: two gate
    decisions whose (expert, weight) pairs agree token by token up to
    permutation give the same [moe_infer] output. *)
Theorem moe_infer_slot_order_irrelevant (experts : list DeepseekV3MLP)
    (hidden_states : list vec) (num_topk width : nat)
    (decision decision' : list (list (nat * R))) :
  well_routed experts hidden_states num_topk (map (map fst) decision) ->
  Forall (fun mlp => length (down_proj mlp) = width) experts ->
  Forall2 Permutation decision decision' ->
  moe_infer uninitialized experts hidden_states num_topk
    (map (map fst) decision) (map (map snd) decision)
  = moe_infer uninitialized experts hidden_states num_topk
      (map (map fst) decision') (map (map snd) decision').
Proof.
  intros Hwr Hwidth Hperm.
  assert (Hwr' : well_routed experts hidden_states num_topk (map (map fst) decision')).
  { destruct Hwr as [Hn Hrows]. split.
    - rewrite length_map in *. rewrite <- (Forall2_length _ _ _ Hperm). exact Hn.
    - clear Hn. induction Hperm as [|d d' ds ds' Hd _ IH]; [constructor|].
      simpl in Hrows. apply Forall_cons in Hrows as [(Hl & Hnd & Hr) Hrows].
      simpl. constructor; [| apply IH, Hrows].
      assert (Hf : map fst d ≡ₚ map fst d') by (apply Permutation_map, Hd).
      rewrite <- Hf. repeat split; assumption. }
  assert (Hflat : mjoin (map (map fst) decision) ≡ₚ mjoin (map (map fst) decision')).
  { clear -Hperm. induction Hperm as [|d d' ds ds' Hd _ IH]; simpl; [reflexivity|].
    apply Permutation_app; [apply Permutation_map, Hd | exact IH]. }
  destruct (decide (experts_accept experts hidden_states (map (map fst) decision)))
    as [Hacc|Hrej].
  2:{ (* an expert called on rows of another width: both calls raise *)
      unfold moe_infer. rewrite !reordered_outputs_rejected; [reflexivity | | exact Hrej].
      unfold experts_accept in *. rewrite <- Hflat. exact Hrej. }
  assert (Hacc' : experts_accept experts hidden_states (map (map fst) decision'))
    by (unfold experts_accept in *; rewrite <- Hflat; exact Hacc).
  destruct (decide (length (map (map fst) decision) * num_topk = 0)%nat) as [HN|HN].
  - (* no (token, slot) pair at all: both calls raise *)
    assert (HN' : (length (map (map fst) decision') * num_topk = 0)%nat).
    { rewrite length_map in *. rewrite <- (Forall2_length _ _ _ Hperm). exact HN. }
    unfold moe_infer.
    rewrite !(reordered_outputs_correct uninitialized) by assumption.
    rewrite HN, HN'. reflexivity.
  - assert (HN' : (length (map (map fst) decision') * num_topk <> 0)%nat).
    { rewrite length_map in *. rewrite <- (Forall2_length _ _ _ Hperm). exact HN. }
    rewrite !(moe_infer_correct uninitialized _ _ _ _ width) by assumption.
    f_equal. clear -Hperm. revert hidden_states.
    induction Hperm as [|d d' ds ds' Hd _ IH]; intros [|h hs]; simpl; try reflexivity.
    f_equal; [| apply IH].
    unfold token_slots. apply (weighted_sum_Permutation width _ d d' Hd).
Qed.

End slot_order.

Lemma moe_infer_slot_order_irrelevant_witness :
  moe_infer (H := sort_ArgSort) [0] [unit_mlp; unit_mlp] [[1]] 2
    (map (map fst) [[(0%nat, 3); (1%nat, 5)]]) (map (map snd) [[(0%nat, 3); (1%nat, 5)]])
  = moe_infer (H := sort_ArgSort) [0] [unit_mlp; unit_mlp] [[1]] 2
      (map (map fst) [[(1%nat, 5); (0%nat, 3)]]) (map (map snd) [[(1%nat, 5); (0%nat, 3)]]).
Proof.
  apply (moe_infer_slot_order_irrelevant (H := sort_ArgSort) [0] [unit_mlp; unit_mlp]
           [[1]] 2 1).
  - split; [reflexivity|]. repeat constructor; try (simpl; lia); intros Hin;
      repeat (apply elem_of_cons in Hin as [Hin|Hin]; [discriminate Hin|]);
      inversion Hin.
  - repeat constructor.
  - constructor; [apply perm_swap | constructor].
Defined.

Lemma add_shared_shape (shared : DeepseekV3MLP) (width : nat) (hidden_states : list (list vec)) :
  length (down_proj shared) = width ->
  forall y,
  Forall2 (Forall2 (fun (_ out : vec) => length out = width)) hidden_states y ->
  Forall2 (fun xb yb => Forall2 (fun (_ out : vec) => length out = width) xb yb)
    hidden_states
    (zip_with (zip_with vadd) y (map (MLP_forward shared) hidden_states)).
Proof.
  intros Hs y Hy. induction Hy as [|xb yb xs ys Hb _ IH]; simpl; [constructor|].
  constructor; [| exact IH]. clear IH.
  induction Hb as [|h o hs os Ho _ IHb]; simpl; [constructor|].
  constructor; [| exact IHb].
  rewrite length_vadd, length_MLP_row, Ho, Hs. lia.
Qed.

Section forward_shape.
Context `{TopK, ArgSort} (uninitialized : vec) (moe : DeepseekV3MoE).

(** X15. On hidden states of [hidden_size] channels with at least one
    token, with a valid gate that picks at least one expert per token, one
    routed expert per gate column and all experts, the shared one included,
    on [hidden_size] channels, the block returns a tensor with the batch and
    sequence layout of the input whose rows have [hidden_size] channels. *)
Theorem moe_forward_keeps_layout (width : nat) (hidden_states : list (list vec)) :
  valid_gate (gate moe) ->
  token_shaped (gate moe) hidden_states ->
  width = Gate.hidden_size (config (gate moe)) ->
  length (experts moe) = n_routed_experts (config (gate moe)) ->
  Forall (fun mlp => hidden_size mlp = width) (experts moe) ->
  hidden_size (shared_experts moe) = width ->
  mjoin hidden_states <> [] ->
  num_experts_per_tok (config (gate moe)) <> 0%nat ->
  exists y,
    forward uninitialized moe hidden_states = Some y
    /\ Forall2 (Forall2 (fun hidden out : vec => length out = length hidden)) hidden_states y.
Proof.
  intros Hv Hshape Hw HE Hwidth Hshared Hne Hk.
  assert (Hdown : Forall (fun mlp => length (down_proj mlp) = width) (experts moe)).
  { eapply Forall_impl; [exact Hwidth|]. intros mlp Hm. simpl.
    rewrite (proj1 (down_proj_shape mlp)). exact Hm. }
  assert (Hsdown : length (down_proj (shared_experts moe)) = width)
    by (rewrite (proj1 (down_proj_shape _)); exact Hshared).
  destruct (forward_value uninitialized moe width hidden_states Hv Hshape Hw HE Hdown
              Hsdown Hne Hk) as (idxs & ws & Hf & [Hli _] & _ & Hlw & Hy).
  eexists. split; [exact Hy|].
  assert (Hlay : Forall2 (Forall2 (fun (_ out : vec) => length out = width)) hidden_states
            (zip_with (zip_with vadd)
               (view_as hidden_states
                  (zip_with (weighted_sum width) ws
                     (zip_with (token_slots (experts moe)) idxs (mjoin hidden_states))))
               (map (MLP_forward (shared_experts moe)) hidden_states))).
  { apply add_shared_shape; [exact Hsdown|]. apply view_as_Forall2.
    apply Forall2_same_length_lookup_2.
    + rewrite !length_zip_with. lia.
    + intros t h o _ Ho.
      apply lookup_zip_with_Some in Ho as (w & slots & -> & _ & _).
      unfold weighted_sum. rewrite length_map, length_seq. reflexivity. }
  destruct Hshape as [_ Hrows]. rewrite <- Hw in Hrows.
  revert Hlay. generalize (zip_with (zip_with vadd)
               (view_as hidden_states
                  (zip_with (weighted_sum width) ws
                     (zip_with (token_slots (experts moe)) idxs (mjoin hidden_states))))
               (map (MLP_forward (shared_experts moe)) hidden_states)).
  intros Y HY. clear -HY Hrows.
  induction HY as [|xb yb xs ys Hb _ IH]; [constructor|].
  apply Forall_cons in Hrows as [Hxb Hrows]. constructor; [| apply IH, Hrows].
  clear IH. induction Hb as [|h o hs os Ho _ IHb]; [constructor|].
  apply Forall_cons in Hxb as [Hh Hxb]. constructor; [lia | apply IHb, Hxb].
Qed.

End forward_shape.

Lemma moe_forward_keeps_layout_witness :
  exists y,
    forward (H := sort_TopK) (H0 := sort_ArgSort) [0] small_moe [[ [1] ]] = Some y
    /\ Forall2 (Forall2 (fun hidden out : vec => length out = length hidden)) [[ [1] ]] y.
Proof.
  apply (moe_forward_keeps_layout (H := sort_TopK) (H0 := sort_ArgSort) [0] small_moe 1
           [[ [1] ]]).
  - exact small_gate_valid.
  - split; [discriminate | repeat constructor].
  - reflexivity.
  - reflexivity.
  - repeat constructor.
  - reflexivity.
  - discriminate.
  - discriminate.
Defined.

(** *** Zero hidden states *)

Lemma dot_zero_l (x : vec) :
  Forall (fun a => a = 0) x -> forall w, dot x w = 0.
Proof.
  unfold dot, vmul. induction 1 as [|a x Ha _ IH]; intros [|b w]; simpl; try reflexivity.
  rewrite IH, Ha. lra.
Qed.

Lemma F_linear_zero (x : vec) (W : list vec) :
  Forall (fun a => a = 0) x -> F_linear x W = replicate (length W) 0.
Proof.
  intros Hx. unfold F_linear. induction W as [|w W IH]; simpl; [reflexivity|].
  rewrite IH, (dot_zero_l x Hx). reflexivity.
Qed.

Lemma vmul_zero_r (a b : vec) :
  Forall (fun x => x = 0) b -> Forall (fun x => x = 0) (vmul a b).
Proof.
  unfold vmul. intros Hb. revert a.
  induction Hb as [|y b Hy _ IH]; intros [|x a]; simpl; constructor; [subst y; lra | apply IH].
Qed.

Lemma MLP_row_zero (mlp : DeepseekV3MLP) (x : vec) :
  Forall (fun a => a = 0) x -> MLP_row mlp x = replicate (length (down_proj mlp)) 0.
Proof.
  intros Hx. unfold MLP_row. apply F_linear_zero, vmul_zero_r.
  rewrite (F_linear_zero x _ Hx). apply Forall_replicate. reflexivity.
Qed.

Lemma lookup_total_zero (row : vec) (c : nat) :
  Forall (fun a => a = 0) row -> row !!! c = 0.
Proof.
  intros Hrow. rewrite list_lookup_total_alt.
  destruct (row !! c) as [a|] eqn:Hc; simpl; [| reflexivity].
  rewrite Forall_forall in Hrow. apply Hrow. eapply list_elem_of_lookup_2, Hc.
Qed.

Lemma weighted_sum_zero (width : nat) (w : vec) (rows : list vec) :
  Forall (Forall (fun a => a = 0)) rows -> weighted_sum width w rows = replicate width 0.
Proof.
  intros Hrows. unfold weighted_sum.
  assert (Hc : forall c, Rsum (zip_with (fun a (row : vec) => a * row !!! c) w rows) = 0).
  { intros c. revert w. induction Hrows as [|row rows Hrow _ IH]; intros [|a w]; simpl;
      try reflexivity.
    rewrite IH, (lookup_total_zero row c Hrow). lra. }
  transitivity (replicate (length (seq 0 width)) 0); [| rewrite length_seq; reflexivity].
  generalize (seq 0 width). intros l. induction l as [|c l IH]; simpl; [reflexivity|].
  rewrite Hc, IH. reflexivity.
Qed.

Lemma vadd_zero (n : nat) : vadd (replicate n 0) (replicate n 0) = replicate n 0.
Proof.
  unfold vadd. induction n as [|n IH]; simpl; [reflexivity|].
  rewrite IH, Rplus_0_l. reflexivity.
Qed.

Section zero_tokens.
Context `{TopK, ArgSort} (uninitialized : vec) (moe : DeepseekV3MoE).

(** X16. No layer of the block has a bias: on hidden states of
    [hidden_size] channels, whatever experts the gate picks for it and with
    whatever weights, a token whose hidden state is zero in every channel gets
    the zero row. *)
Theorem zero_token_gives_zero_row (width : nat) (hidden_states : list (list vec)) :
  valid_gate (gate moe) ->
  token_shaped (gate moe) hidden_states ->
  width = Gate.hidden_size (config (gate moe)) ->
  length (experts moe) = n_routed_experts (config (gate moe)) ->
  Forall (fun mlp => length (down_proj mlp) = width) (experts moe) ->
  length (down_proj (shared_experts moe)) = width ->
  mjoin hidden_states <> [] ->
  num_experts_per_tok (config (gate moe)) <> 0%nat ->
  exists y,
    forward uninitialized moe hidden_states = Some y
    /\ Forall2 (Forall2 (fun hidden out : vec =>
         Forall (fun a => a = 0) hidden -> out = replicate width 0)) hidden_states y.
Proof.
  intros Hv Hshape Hw HE Hwidth Hshared Hne Hk.
  destruct (forward_value uninitialized moe width hidden_states Hv Hshape Hw HE Hwidth
              Hshared Hne Hk) as (idxs & ws & Hf & [Hli _] & _ & Hlw & Hy).
  eexists. split; [exact Hy|].
  - assert (Hmoe : Forall2 (fun hidden out : vec =>
                      Forall (fun a => a = 0) hidden -> out = replicate width 0)
              (mjoin hidden_states)
              (zip_with (weighted_sum width) ws
                 (zip_with (token_slots (experts moe)) idxs (mjoin hidden_states)))).
    { apply Forall2_same_length_lookup_2.
      - rewrite !length_zip_with. lia.
      - intros t h o Hh Ho Hzero.
        apply lookup_zip_with_Some in Ho as (w & slots & -> & _ & Hslots).
        apply lookup_zip_with_Some in Hslots as (idx & h' & -> & _ & Hh').
        assert (h' = h) by congruence. subst h'.
        apply weighted_sum_zero. unfold token_slots.
        apply Forall_fmap, Forall_forall. intros e _. simpl.
        rewrite (MLP_row_zero _ _ Hzero). apply Forall_replicate. reflexivity. }
    apply view_as_Forall2 in Hmoe. revert Hmoe.
    generalize (view_as hidden_states
      (zip_with (weighted_sum width) ws
         (zip_with (token_slots (experts moe)) idxs (mjoin hidden_states)))).
    intros Y HY. clear -HY Hshared.
    induction HY as [|row yrow hs Y Hrow _ IH]; simpl; constructor; [|exact IH].
    clear IH. induction Hrow as [|h o row yrow Ho _ IHr]; simpl; constructor; [|exact IHr].
    intros Hzero. rewrite (Ho Hzero), (MLP_row_zero _ _ Hzero), Hshared. apply vadd_zero.
Qed.

End zero_tokens.

Lemma zero_token_gives_zero_row_witness :
  exists y,
    forward (H := sort_TopK) (H0 := sort_ArgSort) [0] small_moe [[ [0] ]] = Some y
    /\ Forall2 (Forall2 (fun hidden out : vec =>
         Forall (fun a => a = 0) hidden -> out = replicate 1 0)) [[ [0] ]] y.
Proof.
  apply (zero_token_gives_zero_row (H := sort_TopK) (H0 := sort_ArgSort) [0] small_moe 1
           [[ [0] ]]).
  - exact small_gate_valid.
  - split; [discriminate | repeat constructor].
  - reflexivity.
  - reflexivity.
  - repeat constructor.
  - reflexivity.
  - discriminate.
  - discriminate.
Defined.

End MoE.

(** ** Latent attention: [DeepseekV3Attention] *)

Module Attention.
Import Rotary.

Definition rows3_have_width (d : nat) (t : tensor3) : Prop :=
  Forall (Forall (fun row : vec => length row = d)) t.

Definition rows_have_width (d : nat) (t : tensor4) : Prop :=
  Forall (Forall (Forall (fun row : vec => length row = d))) t.

#[global] Instance rows3_have_width_dec (d : nat) (t : tensor3) : Decision (rows3_have_width d t).
Proof. unfold rows3_have_width. apply _. Defined.

(** An attention kernel: query, key and value indexed
    [batch][head][position][channel], an optional mask and the scaling; it
    returns the output, indexed [batch][position][head][channel], and
    optionally the attention weights. *)
Definition kernel : Type :=
  tensor4 -> tensor4 -> tensor4 -> option tensor4 -> R -> tensor4 * option tensor4.

(** The output of a kernel has the head dimension of the values. *)
Definition keeps_value_width (f : kernel) : Prop :=
  forall q k v mask scaling d,
    rows_have_width d v -> rows_have_width d (f q k v mask scaling).1.

(** The kernels defined outside the source file: [eager_attention_forward]
    and the table [ALL_ATTENTION_FUNCTIONS]. *)
Class Kernels := {
  eager_attention_forward : kernel;
  ALL_ATTENTION_FUNCTIONS : gmap string kernel;
  eager_keeps_width : keeps_value_width eager_attention_forward;
  registered_keep_width :
    forall name f, ALL_ATTENTION_FUNCTIONS !! name = Some f -> keeps_value_width f;
}.

(** [Cache.update(key_states, value_states, layer_idx, {sin, cos, ...})] *)
Record Cache := {
  cache_update : tensor4 -> tensor4 -> nat -> tensor3 -> tensor3 -> tensor4 * tensor4;
}.

Record Config := {
  num_attention_heads : nat;
  qk_rope_head_dim : nat;
  kv_lora_rank : nat;
  v_head_dim : nat;
  qk_nope_head_dim : nat;
  q_head_dim : nat;
  attn_implementation : string;
}.

(** The module: its configuration, its projections and the scaling computed
    by [__init__].  [DeepseekV3RMSNorm] is the Llama RMS norm, defined outside
    the source file; each norm layer is a function on rows. *)
Record DeepseekV3Attention := {
  config : Config;
  layer_idx : nat;
  q_a_proj : Linear;
  q_a_layernorm : vec -> vec;
  q_b_proj : Linear;
  kv_a_proj_with_mqa : Linear;
  kv_a_layernorm : vec -> vec;
  kv_b_proj : Linear;
  o_proj : Linear;
  scaling : R;
}.

(** [x.view(batch, seq, num_heads, -1).transpose(1, 2)] on a tensor indexed
    [batch][position][channel]. *)
Definition heads (num_heads : nat) (x : tensor3) : tensor4 :=
  map (fun xb => transpose num_heads (map (chunks num_heads) xb)) x.

(** Broadcast of a head axis of size one over [num_heads] heads. *)
Definition expand_heads {A} (num_heads : nat) (xb : list A) : list A :=
  match xb with
  | [x] => replicate num_heads x
  | _ => xb
  end.

(** [dst[lo:hi] = src] on one row, [hi = None] for an open slice [dst[lo:]].
    The bounds of the slice are clipped to the row; the source has as many
    channels as the slice, or a single channel that is written to all of
    them; otherwise the assignment raises. *)
Definition set_channels (lo : nat) (hi : option nat) (dst src : vec) : option vec :=
  let start := lo `min` length dst in
  let stop := default (length dst) hi `min` length dst in
  let width := (stop - start)%nat in
  src ← (if decide (length src = width) then Some src
         else match src with
              | [a] => Some (replicate width a)
              | _ => None
              end);
  Some (take start dst ++ src ++ drop (start + width) dst).

(** [dst[:, :, :, lo:hi] = src]: along the batch, head and position axes
    [src] has the size of [dst], or size 1. *)
Definition assign_channels (lo : nat) (hi : option nat) : tensor4 -> tensor4 -> option tensor4 :=
  expand_to (expand_to (expand_to (set_channels lo hi))).

(** [F.pad(x, [0, p])] on one row; a negative amount removes channels. *)
Definition pad_last (p : Z) (row : vec) : vec :=
  if decide (0 <= p)%Z then row ++ replicate (Z.to_nat p) 0
  else take (length row - Z.to_nat (- p)) row.

Section forward.
Context `{Kernels}.

(** The contents of freshly allocated memory: [uninitialized a b h s c] is
    what the [a]-th tensor allocated by [new_empty] holds at
    [batch b][head h][position s][channel c] before it is written. *)
Variable uninitialized : nat -> nat -> nat -> nat -> nat -> R.

Variable self : DeepseekV3Attention.

#[local] Abbreviation cfg := (config self).
#[local] Abbreviation num_heads := (num_attention_heads (config self)).
#[local] Abbreviation nope := (qk_nope_head_dim (config self)).
#[local] Abbreviation rope := (qk_rope_head_dim (config self)).

(** [k_pe.new_empty(batch_size, num_heads, seq_length, q_head_dim)], the
    [allocation]-th tensor allocated by [forward]. *)
Definition new_empty (allocation : nat) (hidden_states : tensor3) : tensor4 :=
  imap (fun b xb =>
      map (fun h =>
          imap (fun s _ => map (uninitialized allocation b h s) (seq 0 (q_head_dim cfg))) xb)
        (seq 0 num_heads))
    hidden_states.

(** [q_b_proj(q_a_layernorm(q_a_proj(hidden_states)))] *)
Definition q_flat (hidden_states : tensor3) : tensor3 :=
  map (map (fun x =>
    Linear_forward (q_b_proj self) (q_a_layernorm self (Linear_forward (q_a_proj self) x))))
    hidden_states.

(** [kv_a_proj_with_mqa(hidden_states)] *)
Definition compressed_kv_of (hidden_states : tensor3) : tensor3 :=
  map (map (Linear_forward (kv_a_proj_with_mqa self))) hidden_states.

(** [kv_b_proj(kv_a_layernorm(compressed_kv))] on the latent part. *)
Definition kv_flat (hidden_states : tensor3) : tensor3 :=
  map (map (fun x =>
    Linear_forward (kv_b_proj self) (kv_a_layernorm self (take (kv_lora_rank cfg) x))))
    (compressed_kv_of hidden_states).

(** The single-head positional key before rotation:
    [k_pe.view(batch, seq, 1, rope).transpose(1, 2)]. *)
Definition k_pe_of (hidden_states : tensor3) : tensor4 :=
  map (fun xb => [map (drop (kv_lora_rank cfg)) xb]) (compressed_kv_of hidden_states).

Definition pads_value : Prop :=
  attn_implementation cfg = "flash_attention_2"%string /\ q_head_dim cfg <> v_head_dim cfg.

(** Lines 278-304: the query, key and value states handed to the cache and
    to the kernel.  The guards stand for the errors of [view] and
    [torch.split]: a view with an inferred last dimension raises on hidden
    states without tokens and on a module without heads; the heads of the
    projections are split into parts of the configured widths, which must
    add up to the width of a head; [q_b_proj] has [num_heads * q_head_dim] output channels
    (line 241), so that a head of the query projection has [q_head_dim]
    channels.  The rotary embedding and the four slice assignments raise as
    their definitions say. *)
Definition assemble (hidden_states : tensor3) (cos sin : tensor3)
    : option (tensor4 * tensor4 * tensor4) :=
  guard (mjoin hidden_states <> [] /\ num_heads <> 0%nat
         /\ rows3_have_width (num_heads * (nope + rope)) (q_flat hidden_states));;
  let q := heads num_heads (q_flat hidden_states) in
  let q_nope := tmap4 (take nope) q in
  let q_pe := tmap4 (drop nope) q in
  guard (rows3_have_width (kv_lora_rank cfg + rope) (compressed_kv_of hidden_states));;
  let k_pe := k_pe_of hidden_states in
  guard (rows3_have_width (num_heads * (nope + v_head_dim cfg)) (kv_flat hidden_states));;
  let kv := heads num_heads (kv_flat hidden_states) in
  let k_nope := tmap4 (take nope) kv in
  let value_states := tmap4 (drop nope) kv in
  '(q_pe, k_pe) ← apply_rotary_pos_emb q_pe k_pe cos sin;
  guard (q_head_dim cfg = (nope + rope)%nat);;
  let query_states := new_empty 0 hidden_states in
  query_states ← assign_channels 0 (Some nope) query_states q_nope;
  query_states ← assign_channels nope None query_states q_pe;
  let key_states := new_empty 1 hidden_states in
  key_states ← assign_channels 0 (Some nope) key_states k_nope;
  key_states ← assign_channels nope None key_states k_pe;
  let value_states :=
    if decide pads_value then
      tmap4 (pad_last (Z.of_nat (q_head_dim cfg) - Z.of_nat (v_head_dim cfg))) value_states
    else value_states in
  Some (query_states, key_states, value_states).

(** The choice of the kernel, lines 311-319. *)
Definition attention_interface (output_attentions : bool) : option kernel :=
  if decide (attn_implementation cfg = "eager"%string) then Some eager_attention_forward
  else if decide (attn_implementation cfg = "sdpa"%string /\ output_attentions = true)
  then Some eager_attention_forward
  else ALL_ATTENTION_FUNCTIONS !! attn_implementation cfg.

(** Lines 278-333: the per-head attention output handed to [reshape] and to
    the output projection, with the attention weights. *)
Definition attention_heads (hidden_states : tensor3) (position_embeddings : tensor3 * tensor3)
    (attention_mask : option tensor4) (past_key_value : option Cache)
    (output_attentions : bool) : option (tensor4 * option tensor4) :=
  let '(cos, sin) := position_embeddings in
  '(query_states, key_states, value_states) ← assemble hidden_states cos sin;
  let '(key_states, value_states) :=
    match past_key_value with
    | Some cache => cache_update cache key_states value_states (layer_idx self) sin cos
    | None => (key_states, value_states)
    end in
  interface ← attention_interface output_attentions;
  let '(attn_output, attn_weights) :=
    interface query_states key_states value_states attention_mask (scaling self) in
  let attn_output :=
    if decide pads_value then tmap4 (take (v_head_dim cfg)) attn_output else attn_output in
  Some (attn_output, attn_weights).

(** [DeepseekV3Attention.forward] *)
Definition forward (hidden_states : tensor3) (position_embeddings : tensor3 * tensor3)
    (attention_mask : option tensor4) (past_key_value : option Cache)
    (output_attentions : bool) : option (tensor3 * option tensor4) :=
  '(attn_output, attn_weights) ←
    attention_heads hidden_states position_embeddings attention_mask past_key_value
      output_attentions;
  let attn_output := map (map mjoin) attn_output in
  let attn_output := map (map (Linear_forward (o_proj self))) attn_output in
  Some (attn_output, attn_weights).

End forward.

(** *** Rows *)

(** The assignment of a source that has the width of the slice. *)
Definition put_channels (lo : nat) (src dst : vec) : vec :=
  take lo dst ++ src ++ drop (lo + length src) dst.

Lemma set_channels_prefix (n : nat) (dst src : vec) :
  length src = n -> (n <= length dst)%nat ->
  set_channels 0 (Some n) dst src = Some (put_channels 0 src dst).
Proof.
  intros Hs Hd. unfold set_channels, put_channels. simpl.
  replace (n `min` length dst - 0)%nat with n by lia.
  rewrite decide_True by exact Hs. simpl. rewrite Hs. reflexivity.
Qed.

Lemma set_channels_suffix (n : nat) (dst src : vec) :
  length dst = (n + length src)%nat ->
  set_channels n None dst src = Some (put_channels n src dst).
Proof.
  intros Hd. unfold set_channels, put_channels. simpl.
  replace (n `min` length dst)%nat with n by lia.
  replace (length dst `min` length dst - n)%nat with (length src) by lia.
  rewrite decide_True by reflexivity. reflexivity.
Qed.

Lemma put_channels_prefix (src dst : vec) :
  put_channels 0 src dst = src ++ drop (length src) dst.
Proof. unfold put_channels. rewrite take_0. reflexivity. Qed.

(** Writing the content channels and then the positional channels over a
    row of width [nope + rope] yields their concatenation. *)
Lemma put_channels_both (n r : nat) (content positional fresh : vec) :
  length content = n -> length positional = r -> length fresh = (n + r)%nat ->
  put_channels n positional (put_channels 0 content fresh) = content ++ positional.
Proof.
  intros Hc Hp Hf. rewrite put_channels_prefix. unfold put_channels.
  rewrite take_app_length' by (symmetry; exact Hc).
  rewrite drop_ge by (rewrite length_app, length_drop; lia).
  rewrite app_nil_r. reflexivity.
Qed.

(** A slice assignment keeps the width of the row. *)
Lemma length_set_channels (lo : nat) (hi : option nat) (dst src r : vec) :
  set_channels lo hi dst src = Some r -> length r = length dst.
Proof.
  unfold set_channels.
  set (start := (lo `min` length dst)%nat).
  set (width := (default (length dst) hi `min` length dst - start)%nat).
  assert (Hw : forall s : vec, length s = width ->
            length (take start dst ++ s ++ drop (start + width) dst) = length dst).
  { intros s Hs. rewrite !length_app, length_take, length_drop, Hs. unfold start, width. lia. }
  destruct (decide (length src = width)) as [Hs|Hs]; simpl.
  - intros [= <-]. apply Hw, Hs.
  - destruct src as [|a [|? ?]]; simpl; try discriminate.
    intros [= <-]. apply Hw, length_replicate.
Qed.

Lemma expand_heads_id {A} (num_heads : nat) (xb : list A) :
  length xb = num_heads -> expand_heads num_heads xb = xb.
Proof.
  intros Hl. destruct xb as [|x [|y xb]]; try reflexivity.
  simpl in Hl. subst num_heads. reflexivity.
Qed.

(** *** Assignments along one axis *)

Lemma extends_length {A B} (P : A -> B -> Prop) (xs : list A) (rs : list B) :
  extends P xs rs -> length rs = length xs \/ length xs = 1%nat.
Proof.
  intros [H|(x & -> & _)]; [left; symmetry; eapply Forall2_length, H | right; reflexivity].
Qed.

Lemma extends_Forall2 {A B} (P : A -> B -> Prop) (xs : list A) (rs : list B) :
  extends P xs rs -> length rs = length xs -> Forall2 P xs rs.
Proof.
  intros [H|(x & -> & H)] Hl; [exact H|].
  destruct rs as [|r [|? ?]]; try discriminate Hl.
  apply Forall_cons in H as [Hr _]. constructor; [exact Hr | constructor].
Qed.

Lemma expand_to_length {A B} (f : A -> B -> option A) (dst : list A) (src : list B)
    (rs : list A) :
  expand_to f dst src = Some rs ->
  length rs = length dst /\ (length src = length dst \/ length src = 1%nat).
Proof.
  unfold expand_to. destruct (decide _) as [Hl|Hl].
  - intros Hm. apply length_mapM in Hm. rewrite length_zip in Hm. split; [lia | left; exact Hl].
  - destruct src as [|y [|? ?]]; try discriminate.
    intros Hm. apply length_mapM in Hm. split; [lia | right; reflexivity].
Qed.

Lemma expand_to_aligned {A B} (f : A -> B -> option A) (g : A -> B -> A)
    (dst : list A) (src : list B) :
  Forall2 (fun d s => f d s = Some (g d s)) dst src ->
  expand_to f dst src = Some (zip_with g dst src).
Proof.
  intros H. rewrite expand_to_zip by (symmetry; eapply Forall2_length, H).
  apply mapM_Some_2. induction H as [|d s dst src Hds _ IH]; simpl; constructor; assumption.
Qed.

Lemma expand_to_single {A B} (f : A -> B -> option A) (g : A -> B -> A)
    (dst : list A) (y : B) :
  Forall (fun d => f d y = Some (g d y)) dst ->
  expand_to f dst [y] = Some (map (fun d => g d y) dst).
Proof.
  intros H. rewrite expand_to_singleton. apply mapM_Some_2.
  induction H as [|d dst Hd _ IH]; simpl; constructor; assumption.
Qed.

(** Every entry of the source is assigned to some entry of the
    destination, if there is one. *)
Lemma expand_to_lookup {A B} (f : A -> B -> option A) (dst : list A) (src : list B)
    (rs : list A) (i : nat) (s : B) :
  expand_to f dst src = Some rs -> dst <> [] -> src !! i = Some s ->
  exists d r, d ∈ dst /\ f d s = Some r.
Proof.
  unfold expand_to. intros He Hne Hs. destruct (decide _) as [Hl|Hl].
  - destruct (lookup_lt_is_Some_2 dst i) as [d Hd];
      [rewrite <- Hl; eapply lookup_lt_Some, Hs|].
    apply mapM_Some_1 in He.
    assert (Hz : zip dst src !! i = Some (d, s)) by (apply lookup_zip_Some; split; assumption).
    destruct (Forall2_lookup_l _ _ _ _ _ He Hz) as (r & _ & Hr). simpl in Hr.
    exists d, r. split; [eapply list_elem_of_lookup_2, Hd | exact Hr].
  - destruct src as [|y [|? ?]]; try discriminate.
    destruct i as [|i]; [|discriminate]. injection Hs as <-.
    destruct dst as [|d dst]; [contradiction|].
    apply mapM_Some_1 in He. inversion He as [|? r ? ? Hr _]; subst.
    exists d, r. split; [left | exact Hr].
Qed.

(** *** Heads *)

Lemma heads_unfold (num_heads : nat) (x : tensor3) :
  heads num_heads x
  = map (fun xb => map (fun j => map (fun row => chunks num_heads row !!! j) xb)
                     (seq 0 num_heads)) x.
Proof.
  unfold heads, transpose. apply map_ext. intros xb. apply map_ext. intros j.
  rewrite map_map. reflexivity.
Qed.

Lemma length_chunk (num_heads w j : nat) (row : vec) :
  length row = (num_heads * w)%nat -> (j < num_heads)%nat ->
  length (chunks num_heads row !!! j) = w.
Proof.
  intros Hrow Hj. unfold chunks.
  assert (Hw : (length row / num_heads = w)%nat).
  { rewrite Hrow, Nat.mul_comm. apply Nat.div_mul. lia. }
  rewrite Hw.
  erewrite list_lookup_total_correct;
    [| rewrite list_lookup_fmap, lookup_seq_lt by exact Hj; reflexivity].
  simpl. rewrite length_take, length_drop, Hrow. nia.
Qed.

(** *** Assembling one head *)

(** The rows of one head after the two slice assignments into fresh rows of
    width [n + r]. *)
Lemma put_head (n r : nat) (fresh head positional : list vec) :
  Forall2 (fun (f row : vec) => length f = (n + r)%nat /\ (n <= length row)%nat) fresh head ->
  Forall (fun row => length row = r) positional ->
  zip_with (fun drow srow => put_channels n srow drow)
    (zip_with (fun drow srow => put_channels 0 srow drow) fresh (map (take n) head))
    positional
  = zip_with (fun row prow => take n row ++ prow) head positional.
Proof.
  intros Hhead. revert positional.
  induction Hhead as [|f row fresh head [Hf Hrow] _ IH]; intros [|prow positional] Hpos;
    try reflexivity.
  apply Forall_cons in Hpos as [Hp Hpos]. simpl. f_equal; [| apply IH, Hpos].
  apply put_channels_both with (r := r); [rewrite length_take; lia | exact Hp | exact Hf].
Qed.

Lemma take_joined (n : nat) (head positional : list vec) :
  length positional = length head ->
  Forall (fun row => (n <= length row)%nat) head ->
  map (take n) (zip_with (fun row prow => take n row ++ prow) head positional)
  = map (take n) head.
Proof.
  intros Hl Hhead. revert positional Hl.
  induction Hhead as [|row head Hrow _ IH]; intros [|prow positional] Hl;
    try discriminate; [reflexivity|].
  simpl. f_equal; [| apply IH; simpl in Hl; lia].
  rewrite take_app_le by (rewrite length_take; lia).
  rewrite take_take. f_equal. lia.
Qed.

Lemma drop_joined (n : nat) (head positional : list vec) :
  length positional = length head ->
  Forall (fun row => (n <= length row)%nat) head ->
  map (drop n) (zip_with (fun row prow => take n row ++ prow) head positional)
  = positional.
Proof.
  intros Hl Hhead. revert positional Hl.
  induction Hhead as [|row head Hrow _ IH]; intros [|prow positional] Hl;
    try discriminate; [reflexivity|].
  simpl. f_equal; [| apply IH; simpl in Hl; lia].
  apply drop_app_length'. rewrite length_take. lia.
Qed.

(** *** Assembling a tensor *)

(** The shape of a tensor with [h] heads per batch entry, one row per
    position of the hidden states, every row satisfying [P]. *)
Definition head_shaped (h : nat) (P : vec -> Prop) (hidden_states : tensor3) (x : tensor4) : Prop :=
  Forall2 (fun xb hb =>
      length hb = h /\ Forall (fun head => length head = length xb /\ Forall P head) hb)
    hidden_states x.

(** The four slice assignments when every source has the shape of its
    slice, up to the head axis of the positional key. *)
Definition put_tensor (num_heads lo : nat) (dst src : tensor4) : tensor4 :=
  zip_with (fun db sb =>
      zip_with (zip_with (fun drow srow => put_channels lo srow drow))
        db (expand_heads num_heads sb))
    dst src.

Lemma Forall2_of_Forall {A B} (P : A -> Prop) (Q : B -> Prop) (l : list A) (k : list B) :
  length l = length k -> Forall P l -> Forall Q k -> Forall2 (fun a b => P a /\ Q b) l k.
Proof.
  intros Hl HP. revert k Hl. induction HP as [|a l Ha _ IH]; intros [|b k] Hl HQ;
    try discriminate; constructor.
  - apply Forall_cons in HQ as [Hb _]. split; assumption.
  - apply Forall_cons in HQ as [_ HQ]. apply IH; [simpl in Hl; lia | exact HQ].
Qed.

Lemma zip_with_replicate_r {A B C} (f : A -> B -> C) (n : nat) (l : list A) (y : B) :
  length l = n -> zip_with f l (replicate n y) = map (fun x => f x y) l.
Proof.
  revert n. induction l as [|x l IH]; intros [|n] Hn; simpl in *; try lia; [reflexivity|].
  f_equal. apply IH. lia.
Qed.

Lemma assign_channels_put (h lo : nat) (hi : option nat) (P : vec -> vec -> Prop)
    (dst src : tensor4) :
  (forall d s, P d s -> set_channels lo hi d s = Some (put_channels lo s d)) ->
  Forall2 (fun db sb =>
      length db = h /\ (length sb = h \/ length sb = 1%nat)
      /\ Forall2 (Forall2 P) db (expand_heads h sb)) dst src ->
  assign_channels lo hi dst src = Some (put_tensor h lo dst src).
Proof.
  intros HP Hshape. unfold assign_channels, put_tensor.
  apply expand_to_aligned. eapply Forall2_impl; [exact Hshape|].
  intros db sb (Hdb & Hsb & Hheads). simpl.
  assert (Hrows : forall dh sh, Forall2 P dh sh ->
            expand_to (set_channels lo hi) dh sh
            = Some (zip_with (fun drow srow => put_channels lo srow drow) dh sh)).
  { intros dh sh Hh. apply expand_to_aligned.
    eapply Forall2_impl; [exact Hh|]. exact HP. }
  destruct (decide (length sb = h)) as [Hl|Hl].
  - rewrite expand_heads_id in * by exact Hl. apply expand_to_aligned.
    eapply Forall2_impl; [exact Hheads|]. exact Hrows.
  - destruct Hsb as [?|H1]; [contradiction|].
    destruct sb as [|y [|? ?]]; try discriminate H1. simpl in *.
    rewrite zip_with_replicate_r by exact Hdb. apply expand_to_single.
    apply (Forall2_Forall_l _ _ _ _ Hheads).
    apply Forall_forall. intros sh Hsh dh Hh.
    apply elem_of_replicate in Hsh as [-> _]. apply Hrows, Hh.
Qed.

Lemma put_batch (n nope r : nat) (fresh content positional : list (list vec)) :
  Forall2 (Forall2 (fun (fr row : vec) =>
      length fr = (nope + r)%nat /\ (nope <= length row)%nat)) fresh content ->
  Forall (fun head => length head = n) content ->
  length positional = length content ->
  Forall (fun p => length p = n /\ Forall (fun row => length row = r) p) positional ->
  let assigned :=
    zip_with (zip_with (fun drow srow => put_channels nope srow drow))
      (zip_with (zip_with (fun drow srow => put_channels 0 srow drow))
         fresh (map (map (take nope)) content))
      positional in
  map (map (take nope)) assigned = map (map (take nope)) content
  /\ map (map (drop nope)) assigned = positional.
Proof.
  intros Hcontent. revert positional.
  induction Hcontent as [|f head fresh content Hrows _ IH];
    intros [|p positional] Hn Hl Hpos; simpl in *; try discriminate.
  - split; reflexivity.
  - apply Forall_cons in Hpos as [[Hpn Hprows] Hpos].
    apply Forall_cons in Hn as [Hhn Hn].
    destruct (IH positional Hn ltac:(lia) Hpos) as [IHt IHd].
    rewrite (put_head nope r) by assumption.
    assert (Hge : Forall (fun row : vec => (nope <= length row)%nat) head).
    { apply (Forall2_Forall_r _ _ _ _ Hrows). apply Forall_forall. intros; tauto. }
    split; (f_equal; [| assumption]).
    + apply take_joined; [lia | exact Hge].
    + apply drop_joined; [lia | exact Hge].
Qed.

Lemma head_shaped_expand (h : nat) (P : vec -> Prop) (hidden_states : tensor3) (x : tensor4) :
  head_shaped h P hidden_states x ->
  Forall2 (fun xb pb =>
      length (expand_heads h pb) = h
      /\ Forall (fun p => length p = length xb /\ Forall P p) (expand_heads h pb))
    hidden_states x
  /\ map (expand_heads h) x = x.
Proof.
  unfold head_shaped. induction 1 as [|xb pb hs x [Hh Hpb] _ [IH1 IH2]].
  - split; [constructor | reflexivity].
  - simpl. rewrite (expand_heads_id h pb Hh), IH2.
    split; [| reflexivity].
    constructor; [| exact IH1]. rewrite expand_heads_id by exact Hh. split; assumption.
Qed.

(** A single head is broadcast over all the heads. *)
Lemma single_head_expand (h : nat) (P : vec -> Prop) (hidden_states : tensor3) (x : tensor4) :
  head_shaped 1 P hidden_states x ->
  Forall2 (fun xb pb =>
      length (expand_heads h pb) = h
      /\ Forall (fun p => length p = length xb /\ Forall P p) (expand_heads h pb))
    hidden_states x
  /\ Forall (fun pb => exists p, pb = [p] /\ expand_heads h pb = replicate h p) x.
Proof.
  unfold head_shaped. induction 1 as [|xb pb hs x [Hh Hpb] _ [IH1 IH2]].
  - split; constructor.
  - destruct pb as [|p [|? ?]]; try discriminate Hh.
    apply Forall_cons in Hpb as [Hp _]. simpl.
    split; constructor; try assumption.
    + split; [apply length_replicate | apply Forall_replicate, Hp].
    + exists p. split; reflexivity.
Qed.

Lemma heads_Forall2 (n : nat) (P Q : vec -> Prop) (db eb : list (list vec)) :
  length db = length eb ->
  Forall (fun d => length d = n /\ Forall P d) db ->
  Forall (fun s => length s = n /\ Forall Q s) eb ->
  Forall2 (Forall2 (fun d s => P d /\ Q s)) db eb.
Proof.
  intros Hl Hdb. revert eb Hl.
  induction Hdb as [|dh db [Hdl Hdrows] _ IHb]; intros [|sh eb] Hl Heb;
    try discriminate; constructor.
  - apply Forall_cons in Heb as [[Hsl Hsrows] _].
    apply Forall2_of_Forall; [lia | exact Hdrows | exact Hsrows].
  - apply Forall_cons in Heb as [_ Heb]. apply IHb; [simpl in Hl; lia | exact Heb].
Qed.

Lemma put_tensor_take_drop (h nope r : nat) (hidden_states : tensor3)
    (fresh content positional : tensor4) :
  head_shaped h (fun row => length row = (nope + r)%nat) hidden_states fresh ->
  head_shaped h (fun row => (nope <= length row)%nat) hidden_states content ->
  Forall2 (fun xb pb =>
      length (expand_heads h pb) = h
      /\ Forall (fun p => length p = length xb /\ Forall (fun row => length row = r) p)
           (expand_heads h pb))
    hidden_states positional ->
  let assigned :=
    put_tensor h nope (put_tensor h 0 fresh (tmap4 (take nope) content)) positional in
  tmap4 (take nope) assigned = tmap4 (take nope) content
  /\ tmap4 (drop nope) assigned = map (expand_heads h) positional.
Proof.
  unfold head_shaped, put_tensor, tmap4.
  revert fresh content positional.
  induction hidden_states as [|xb hs IH]; intros fresh content positional Hfresh Hc Hpos.
  - apply Forall2_nil_inv_l in Hfresh, Hc, Hpos. subst fresh content positional.
    split; reflexivity.
  - apply Forall2_cons_inv_l in Hfresh as (fb & fresh' & [Hfh Hfb] & Hfresh & ->).
    apply Forall2_cons_inv_l in Hc as (cb & content' & [Hh Hcb] & Hc & ->).
    apply Forall2_cons_inv_l in Hpos as (pb & positional' & [Hph Hpb] & Hpos & ->).
    simpl. destruct (IH fresh' content' positional' Hfresh Hc Hpos) as [IHt IHd].
    rewrite (expand_heads_id h (map (map (take nope)) cb)) by (rewrite length_map; exact Hh).
    destruct (put_batch (length xb) nope r fb cb (expand_heads h pb))
      as [Ht Hd]; [| | lia | exact Hpb |].
    { apply (heads_Forall2 (length xb) _ _ fb cb ltac:(lia) Hfb Hcb). }
    { eapply Forall_impl; [exact Hcb|]. simpl. tauto. }
    split; (f_equal; [| assumption]); assumption.
Qed.

Lemma head_shaped_tmap4 (h : nat) (P Q : vec -> Prop) (f : vec -> vec)
    (hidden_states : tensor3) (x : tensor4) :
  (forall row, P row -> Q (f row)) ->
  head_shaped h P hidden_states x -> head_shaped h Q hidden_states (tmap4 f x).
Proof.
  intros HPQ Hx. unfold head_shaped, tmap4 in *. apply Forall2_fmap_r.
  eapply Forall2_impl; [exact Hx|]. intros xb hb [Hh Hhb]. simpl.
  rewrite length_map. split; [exact Hh|].
  apply Forall_fmap. eapply Forall_impl; [exact Hhb|]. intros head [Hl Hrows]. simpl.
  rewrite length_map. split; [exact Hl|].
  apply Forall_fmap. eapply Forall_impl; [exact Hrows|]. exact HPQ.
Qed.

Lemma head_shaped_impl (h : nat) (P Q : vec -> Prop) (hidden_states : tensor3) (x : tensor4) :
  (forall row, P row -> Q row) ->
  head_shaped h P hidden_states x -> head_shaped h Q hidden_states x.
Proof.
  intros HPQ Hx. unfold head_shaped in *.
  eapply Forall2_impl; [exact Hx|]. intros xb hb [Hh Hhb]. split; [exact Hh|].
  eapply Forall_impl; [exact Hhb|]. intros head [Hl Hrows]. split; [exact Hl|].
  eapply Forall_impl; [exact Hrows|]. exact HPQ.
Qed.

Lemma head_shaped_width (h w : nat) (hidden_states : tensor3) (x : tensor4) :
  head_shaped h (fun row => length row = w) hidden_states x -> rows_have_width w x.
Proof.
  intros Hx. unfold rows_have_width. apply (Forall2_Forall_r _ _ _ _ Hx).
  apply Forall_forall. intros xb _ hb [_ Hhb].
  eapply Forall_impl; [exact Hhb|]. simpl. tauto.
Qed.

(** The heads of a projection of the hidden states. *)
Lemma heads_shaped (h w : nat) (f : vec -> vec) (hidden_states : tensor3) :
  rows3_have_width (h * w) (map (map f) hidden_states) ->
  head_shaped h (fun row => length row = w) hidden_states (heads h (map (map f) hidden_states)).
Proof.
  intros Hw. rewrite heads_unfold. unfold head_shaped, rows3_have_width in *.
  rewrite map_map. apply Forall2_fmap_r, Forall_Forall2_diag.
  apply (proj1 (Forall_fmap _ _ _)) in Hw. eapply Forall_impl; [exact Hw|]. intros xb Hxb. simpl in *.
  rewrite length_map, length_seq. split; [reflexivity|].
  apply Forall_fmap, Forall_forall. intros j Hj. apply elem_of_seq in Hj. simpl.
  rewrite !length_map. split; [reflexivity|].
  apply Forall_fmap. eapply Forall_impl; [exact Hxb|]. intros row Hrow. simpl.
  apply length_chunk; [exact Hrow | lia].
Qed.

(** *** What a slice assignment asks of its source *)

Lemma last_dim_even_rows (x : tensor4) :
  last_dim_even x = true ->
  Forall (Forall (Forall (fun row : vec => Nat.even (length row) = true))) x.
Proof.
  unfold last_dim_even. intros He.
  apply Forall_forall. intros xb Hxb. apply Forall_forall. intros xh Hxh.
  apply Forall_forall. intros row Hrow.
  rewrite forallb_forall in He. apply list_elem_of_In in Hxb. specialize (He xb Hxb).
  rewrite forallb_forall in He. apply list_elem_of_In in Hxh. specialize (He xh Hxh).
  rewrite forallb_forall in He. apply list_elem_of_In in Hrow. exact (He row Hrow).
Qed.

Lemma expand_to_lookup_aligned {A B} (f : A -> B -> option A) (dst : list A) (src : list B)
    (rs : list A) (i : nat) (d : A) (s : B) :
  expand_to f dst src = Some rs -> length src = length dst ->
  dst !! i = Some d -> src !! i = Some s -> exists r, f d s = Some r.
Proof.
  intros He Hl Hd Hs. rewrite expand_to_zip in He by exact Hl. apply mapM_Some_1 in He.
  assert (Hz : zip dst src !! i = Some (d, s)) by (apply lookup_zip_Some; split; assumption).
  destruct (Forall2_lookup_l _ _ _ _ _ He Hz) as (r & _ & Hr). exists r. exact Hr.
Qed.

(** A rotated head that is assigned to a head of as many positions as the
    head it was rotated from has one row of [rope] channels per position. *)
Lemma fits_rows (n rope S : nat) (p0 p t r : list vec) :
  length p0 = S ->
  Forall (fun row : vec => length row = rope /\ Nat.even (length row) = true) p0 ->
  extends row_extends p0 p -> length t = S ->
  expand_to (set_channels n None) t p = Some r ->
  length p = S /\ Forall (fun row : vec => length row = rope) p.
Proof.
  intros Hp0 Hrows Hext Ht He.
  destruct (expand_to_length _ _ _ _ He) as [_ Hlp].
  pose proof (extends_length _ _ _ Hext) as Hle.
  assert (Hl : length p = length p0) by lia.
  split; [lia|].
  pose proof (extends_Forall2 _ _ _ Hext Hl) as H2.
  apply (Forall2_Forall_r _ _ _ _ H2). eapply Forall_impl; [exact Hrows|].
  intros x [Hx Hev] y [Hy|Hy]; [lia|].
  rewrite Hy in Hev. discriminate Hev.
Qed.

Lemma fits_heads (n rope S : nat) (p0b pb tb rb : list (list vec)) :
  Forall (fun p0 => length p0 = S
            /\ Forall (fun row : vec => length row = rope /\ Nat.even (length row) = true) p0)
    p0b ->
  extends (extends row_extends) p0b pb -> length pb = length p0b ->
  Forall (fun t : list vec => length t = S) tb -> tb <> [] ->
  expand_to (expand_to (set_channels n None)) tb pb = Some rb ->
  Forall (fun p => length p = S /\ Forall (fun row : vec => length row = rope) p) pb.
Proof.
  intros Hp0 Hext Hl Ht Hne He.
  pose proof (extends_Forall2 _ _ _ Hext Hl) as H2.
  apply Forall_forall. intros p Hp. apply list_elem_of_lookup_1 in Hp as [j Hj].
  destruct (Forall2_lookup_r _ _ _ _ _ H2 Hj) as (p0 & Hp0j & Hpp).
  destruct (expand_to_lookup _ _ _ _ j p He Hne Hj) as (t & r & Htin & Hr).
  rewrite Forall_forall in Hp0, Ht.
  destruct (Hp0 p0 (list_elem_of_lookup_2 _ _ _ Hp0j)) as [Hlen Hrows].
  exact (fits_rows n rope S p0 p t r Hlen Hrows Hpp (Ht t Htin) Hr).
Qed.

Lemma fits_tensor (n rope h h0 : nat) (hidden_states : tensor3) (P0 P T T2 : tensor4) :
  head_shaped h0 (fun row => length row = rope /\ Nat.even (length row) = true)
    hidden_states P0 ->
  tensor_extends P0 P -> Forall (fun pb => length pb = h0) P ->
  head_shaped h (fun _ => True) hidden_states T -> h <> 0%nat ->
  assign_channels n None T P = Some T2 ->
  head_shaped h0 (fun row => length row = rope) hidden_states P.
Proof.
  intros HP0 Hext Hheads HT Hh He. unfold assign_channels in He.
  destruct (expand_to_length _ _ _ _ He) as [_ Hlp].
  pose proof (extends_length _ _ _ Hext) as Hle.
  pose proof (Forall2_length _ _ _ HP0) as Hl0.
  pose proof (Forall2_length _ _ _ HT) as HlT.
  assert (Hl : length P = length P0) by lia.
  pose proof (extends_Forall2 _ _ _ Hext Hl) as H2.
  unfold head_shaped. apply Forall2_same_length_lookup_2; [lia|].
  intros i xb pb Hxb Hpb.
  destruct (Forall2_lookup_l _ _ _ _ _ HP0 Hxb) as (p0b & Hp0b & Hh0 & Hp0rows).
  destruct (Forall2_lookup_l _ _ _ _ _ HT Hxb) as (tb & Htb & Hth & Htrows).
  pose proof (Forall2_lookup_lr _ _ _ _ _ _ H2 Hp0b Hpb) as Hextb.
  destruct (expand_to_lookup_aligned _ _ _ _ i tb pb He ltac:(lia) Htb Hpb) as [rb Hrb].
  rewrite Forall_forall in Hheads. pose proof (Hheads pb (list_elem_of_lookup_2 _ _ _ Hpb)) as Hpl.
  split; [exact Hpl|].
  apply (fits_heads n rope (length xb) p0b pb tb rb); try assumption.
  - lia.
  - eapply Forall_impl; [exact Htrows|]. simpl. tauto.
  - intros ->. simpl in Hth. lia.
Qed.

(** Every entry of the result comes from the entry of the destination at
    its position. *)
Lemma expand_to_result {A B} (f : A -> B -> option A) (dst : list A) (src : list B)
    (rs : list A) (i : nat) (r : A) :
  expand_to f dst src = Some rs -> rs !! i = Some r ->
  exists d s, dst !! i = Some d /\ f d s = Some r.
Proof.
  unfold expand_to. destruct (decide _) as [Hls|Hls].
  - intros Hm Hr. apply mapM_Some_1 in Hm.
    destruct (Forall2_lookup_r _ _ _ _ _ Hm Hr) as ([d s] & Hz & Hf).
    apply lookup_zip_Some in Hz as [Hd _]. exists d, s. split; assumption.
  - destruct src as [|y [|? ?]]; try discriminate.
    intros Hm Hr. apply mapM_Some_1 in Hm.
    destruct (Forall2_lookup_r _ _ _ _ _ Hm Hr) as (d & Hd & Hf).
    exists d, y. split; assumption.
Qed.

(** The shape that an assignment leaves is the shape of the destination. *)
Lemma assign_channels_shape (h lo : nat) (hi : option nat) (w : nat)
    (hidden_states : tensor3) (dst src r : tensor4) :
  head_shaped h (fun row => length row = w) hidden_states dst ->
  assign_channels lo hi dst src = Some r ->
  head_shaped h (fun row => length row = w) hidden_states r.
Proof.
  unfold assign_channels, head_shaped. intros Hd He.
  destruct (expand_to_length _ _ _ _ He) as [Hl _].
  apply Forall2_same_length_lookup_2; [rewrite Hl; eapply Forall2_length, Hd|].
  intros i xb rb Hxb Hrb.
  destruct (Forall2_lookup_l _ _ _ _ _ Hd Hxb) as (db & Hdb & Hh & Hrows).
  destruct (expand_to_result _ _ _ _ _ _ He Hrb) as (db' & sb & Hdb' & Hb).
  assert (db' = db) by congruence. subst db'.
  destruct (expand_to_length _ _ _ _ Hb) as [Hlb _].
  split; [lia|].
  apply Forall_lookup. intros j rh Hj.
  destruct (expand_to_result _ _ _ _ _ _ Hb Hj) as (dh & sh & Hdh & Hh').
  destruct (Forall_lookup_1 _ _ _ _ Hrows Hdh) as [Hdl Hdrows].
  destruct (expand_to_length _ _ _ _ Hh') as [Hlh _].
  split; [lia|].
  apply Forall_lookup. intros k row Hk.
  destruct (expand_to_result _ _ _ _ _ _ Hh' Hk) as (drow & srow & Hdrow & Hr).
  rewrite (length_set_channels _ _ _ _ _ Hr).
  exact (Forall_lookup_1 _ _ _ _ Hdrows Hdrow).
Qed.

(** A source with the heads of the destination, or with a single head,
    against the heads of the destination. *)
Lemma aligned_rows (h h0 : nat) (P Q : vec -> Prop) (hidden_states : tensor3)
    (dst src : tensor4) :
  head_shaped h P hidden_states dst -> head_shaped h0 Q hidden_states src ->
  h0 = h \/ h0 = 1%nat ->
  Forall2 (fun db sb =>
      length db = h /\ (length sb = h \/ length sb = 1%nat)
      /\ Forall2 (Forall2 (fun d s => P d /\ Q s)) db (expand_heads h sb)) dst src.
Proof.
  unfold head_shaped. intros Hd Hs Hh0.
  apply Forall2_same_length_lookup_2;
    [rewrite <- (Forall2_length _ _ _ Hd); eapply Forall2_length, Hs|].
  intros i db sb Hdb Hsb.
  destruct (Forall2_lookup_r _ _ _ _ _ Hd Hdb) as (xb & Hxb & Hdl & Hdrows).
  destruct (Forall2_lookup_r _ _ _ _ _ Hs Hsb) as (xb' & Hxb' & Hsl & Hsrows).
  assert (xb' = xb) by congruence. subst xb'.
  split; [exact Hdl|]. split; [lia|].
  apply (heads_Forall2 (length xb)); [| exact Hdrows |].
  - destruct (decide (length sb = h)) as [Heq|Hne];
      [rewrite expand_heads_id by exact Heq; lia|].
    destruct sb as [|p [|? ?]]; simpl in *; try lia. rewrite length_replicate. exact Hdl.
  - destruct (decide (length sb = h)) as [Heq|Hne];
      [rewrite expand_heads_id by exact Heq; exact Hsrows|].
    destruct sb as [|p [|? ?]]; simpl in *; try lia.
    apply Forall_cons in Hsrows as [Hp _]. apply Forall_replicate, Hp.
Qed.

Lemma head_shaped_Forall (h : nat) (P Q : vec -> Prop) (hidden_states : tensor3) (x : tensor4) :
  head_shaped h P hidden_states x -> Forall (Forall (Forall Q)) x ->
  head_shaped h (fun row => P row /\ Q row) hidden_states x.
Proof.
  unfold head_shaped. intros Hx HQ.
  apply Forall2_same_length_lookup_2; [eapply Forall2_length, Hx|].
  intros i xb hb Hxb Hhb.
  destruct (Forall2_lookup_lr _ _ _ _ _ _ Hx Hxb Hhb) as [Hh Hheads].
  pose proof (Forall_lookup_1 _ _ _ _ HQ Hhb) as HQb.
  split; [exact Hh|].
  apply Forall_lookup. intros j head Hj.
  destruct (Forall_lookup_1 _ _ _ _ Hheads Hj) as [Hl Hrows].
  pose proof (Forall_lookup_1 _ _ _ _ HQb Hj) as HQh.
  split; [exact Hl|].
  apply Forall_lookup. intros k row Hk.
  split; [exact (Forall_lookup_1 _ _ _ _ Hrows Hk) | exact (Forall_lookup_1 _ _ _ _ HQh Hk)].
Qed.

Lemma head_shaped_heads (h : nat) (P : vec -> Prop) (hidden_states : tensor3) (x : tensor4) :
  head_shaped h P hidden_states x -> Forall (fun xb => length xb = h) x.
Proof.
  intros Hx. apply (Forall2_Forall_r _ _ _ _ Hx).
  apply Forall_forall. intros xb _ hb [Hh _]. exact Hh.
Qed.

Section assemble_facts.
Context (uninitialized : nat -> nat -> nat -> nat -> nat -> R) (self : DeepseekV3Attention).

#[local] Abbreviation cfg := (config self).
#[local] Abbreviation num_heads := (num_attention_heads (config self)).
#[local] Abbreviation nope := (qk_nope_head_dim (config self)).
#[local] Abbreviation rope := (qk_rope_head_dim (config self)).

(** The per-head query and key/value projections before the rotation. *)
Definition q_heads (hidden_states : tensor3) : tensor4 :=
  heads num_heads (q_flat self hidden_states).
Definition kv_heads (hidden_states : tensor3) : tensor4 :=
  heads num_heads (kv_flat self hidden_states).

(** The values handed to the cache, after the padding of line 304. *)
Definition padded_values (hidden_states : tensor3) : tensor4 :=
  if decide (pads_value self)
  then tmap4 (pad_last (Z.of_nat (q_head_dim cfg) - Z.of_nat (v_head_dim cfg)))
         (tmap4 (drop nope) (kv_heads hidden_states))
  else tmap4 (drop nope) (kv_heads hidden_states).

Lemma new_empty_shaped (allocation : nat) (hidden_states : tensor3) :
  head_shaped num_heads (fun row => length row = q_head_dim cfg) hidden_states
    (new_empty uninitialized self allocation hidden_states).
Proof.
  unfold head_shaped, new_empty.
  apply Forall2_same_length_lookup_2; [rewrite length_imap; reflexivity|].
  intros b xb fb Hxb Hfb. rewrite list_lookup_imap, Hxb in Hfb. injection Hfb as <-.
  rewrite length_map, length_seq. split; [reflexivity|].
  apply Forall_fmap, Forall_forall. intros h _. simpl.
  rewrite length_imap. split; [reflexivity|].
  apply Forall_lookup. intros s row Hrow.
  rewrite list_lookup_imap in Hrow. destruct (xb !! s); [|discriminate].
  injection Hrow as <-. rewrite length_map, length_seq. reflexivity.
Qed.

Lemma k_pe_shaped (hidden_states : tensor3) :
  rows3_have_width (kv_lora_rank cfg + rope) (compressed_kv_of self hidden_states) ->
  head_shaped 1 (fun row => length row = rope) hidden_states (k_pe_of self hidden_states).
Proof.
  unfold k_pe_of, compressed_kv_of, rows3_have_width, head_shaped. intros Hw.
  rewrite map_map. apply Forall2_fmap_r, Forall_Forall2_diag.
  apply (proj1 (Forall_fmap _ _ _)) in Hw. eapply Forall_impl; [exact Hw|].
  intros xb Hxb. simpl in *. split; [reflexivity|].
  constructor; [| constructor]. rewrite !length_map. split; [reflexivity|].
  apply Forall_fmap. eapply Forall_impl; [exact Hxb|]. intros row Hrow. simpl.
  rewrite length_drop, Hrow. lia.
Qed.

(** The conditions under which [assemble] returns, with the rotated
    positional parts [q_pe] and [k_pe]: the widths of the projections, the
    rotary embedding, and rotated parts that fit the slices they are assigned
    to.  None of them depends on the contents of fresh memory. *)
Definition assembles (hidden_states cos sin : tensor3) (q_pe k_pe : tensor4) : Prop :=
  mjoin hidden_states <> [] /\ num_heads <> 0%nat
  /\ rows3_have_width (num_heads * (nope + rope)) (q_flat self hidden_states)
  /\ rows3_have_width (kv_lora_rank cfg + rope) (compressed_kv_of self hidden_states)
  /\ rows3_have_width (num_heads * (nope + v_head_dim cfg)) (kv_flat self hidden_states)
  /\ apply_rotary_pos_emb (tmap4 (drop nope) (q_heads hidden_states))
       (k_pe_of self hidden_states) cos sin = Some (q_pe, k_pe)
  /\ q_head_dim cfg = (nope + rope)%nat
  /\ head_shaped num_heads (fun row => length row = rope) hidden_states q_pe
  /\ head_shaped 1 (fun row => length row = rope) hidden_states k_pe.

Lemma q_heads_shaped (hidden_states : tensor3) :
  rows3_have_width (num_heads * (nope + rope)) (q_flat self hidden_states) ->
  head_shaped num_heads (fun row => length row = (nope + rope)%nat)
    hidden_states (q_heads hidden_states).
Proof. apply heads_shaped. Qed.

Lemma kv_heads_shaped (hidden_states : tensor3) :
  rows3_have_width (num_heads * (nope + v_head_dim cfg)) (kv_flat self hidden_states) ->
  head_shaped num_heads (fun row => length row = (nope + v_head_dim cfg)%nat)
    hidden_states (kv_heads hidden_states).
Proof.
  intros Hkv. unfold kv_heads, kv_flat, compressed_kv_of in *. rewrite map_map in *.
  erewrite (map_ext _ _ (fun xb => map_map _ _ xb)) in *. apply heads_shaped, Hkv.
Qed.

(** The two slice assignments into the [allocation]-th fresh tensor. *)
Definition assigned (allocation : nat) (hidden_states : tensor3)
    (content positional : tensor4) : tensor4 :=
  put_tensor num_heads nope
    (put_tensor num_heads 0 (new_empty uninitialized self allocation hidden_states)
       (tmap4 (take nope) content))
    positional.

Lemma assign_content (allocation w : nat) (hidden_states : tensor3) (content : tensor4) :
  q_head_dim cfg = (nope + rope)%nat ->
  head_shaped num_heads (fun row => length row = (nope + w)%nat) hidden_states content ->
  assign_channels 0 (Some nope) (new_empty uninitialized self allocation hidden_states)
    (tmap4 (take nope) content)
  = Some (put_tensor num_heads 0 (new_empty uninitialized self allocation hidden_states)
            (tmap4 (take nope) content)).
Proof.
  intros Hdim Hc.
  apply (assign_channels_put num_heads 0 (Some nope)
           (fun d s => length d = q_head_dim cfg /\ length s = nope)).
  - intros d s [Hd Hs]. apply set_channels_prefix; [exact Hs | lia].
  - apply (aligned_rows num_heads num_heads _ _ hidden_states);
      [apply new_empty_shaped | | left; reflexivity].
    eapply head_shaped_tmap4; [| exact Hc]. intros row Hrow. simpl in *.
    rewrite length_take. lia.
Qed.

Lemma content_shaped (allocation w : nat) (hidden_states : tensor3) (content : tensor4) :
  head_shaped num_heads (fun row => length row = (nope + w)%nat) hidden_states content ->
  q_head_dim cfg = (nope + rope)%nat ->
  head_shaped num_heads (fun row => length row = (nope + rope)%nat) hidden_states
    (put_tensor num_heads 0 (new_empty uninitialized self allocation hidden_states)
       (tmap4 (take nope) content)).
Proof.
  intros Hc Hdim. rewrite <- Hdim.
  eapply assign_channels_shape; [apply new_empty_shaped|].
  apply (assign_content allocation w); assumption.
Qed.

Lemma assign_positional (allocation w h0 : nat) (hidden_states : tensor3)
    (content positional : tensor4) :
  q_head_dim cfg = (nope + rope)%nat ->
  head_shaped num_heads (fun row => length row = (nope + w)%nat) hidden_states content ->
  head_shaped h0 (fun row => length row = rope) hidden_states positional ->
  h0 = num_heads \/ h0 = 1%nat ->
  assign_channels nope None
    (put_tensor num_heads 0 (new_empty uninitialized self allocation hidden_states)
       (tmap4 (take nope) content))
    positional
  = Some (assigned allocation hidden_states content positional).
Proof.
  intros Hdim Hc Hp Hh0.
  apply (assign_channels_put num_heads nope None
           (fun d s => length d = (nope + rope)%nat /\ length s = rope)).
  - intros d s [Hd Hs]. apply set_channels_suffix. lia.
  - apply (aligned_rows num_heads h0 _ _ hidden_states);
      [apply (content_shaped allocation w) | |]; assumption.
Qed.

(** Under these conditions [assemble] returns the tensors assembled by the
    four assignments and the padded values. *)
Lemma assemble_closed (hidden_states cos sin : tensor3) (q_pe k_pe : tensor4) :
  assembles hidden_states cos sin q_pe k_pe ->
  assemble uninitialized self hidden_states cos sin
  = Some (assigned 0 hidden_states (q_heads hidden_states) q_pe,
          assigned 1 hidden_states (kv_heads hidden_states) k_pe,
          padded_values hidden_states).
Proof.
  intros (Hne & Hh & Hq & Hckv & Hkv & Hrot & Hdim & Rq & Rk).
  pose proof (q_heads_shaped _ Hq) as Sq. pose proof (kv_heads_shaped _ Hkv) as Skv.
  unfold assemble. fold (q_heads hidden_states) (kv_heads hidden_states).
  rewrite option_guard_True by (split; [exact Hne | split; [exact Hh | exact Hq]]).
  rewrite option_guard_True by exact Hckv.
  rewrite option_guard_True by exact Hkv.
  rewrite Hrot. simpl. rewrite option_guard_True by exact Hdim.
  rewrite (assign_content 0 rope) by assumption. simpl.
  rewrite (assign_positional 0 rope num_heads _ _ q_pe) by auto. simpl.
  rewrite (assign_content 1 (v_head_dim cfg)) by assumption. simpl.
  rewrite (assign_positional 1 (v_head_dim cfg) 1 _ _ k_pe) by auto. simpl.
  reflexivity.
Qed.

(** The rotated parts fit their slices whenever [assemble] returns. *)
Lemma assemble_Some (hidden_states cos sin : tensor3) (Q K V : tensor4) :
  assemble uninitialized self hidden_states cos sin = Some (Q, K, V) ->
  exists q_pe k_pe, assembles hidden_states cos sin q_pe k_pe.
Proof.
  unfold assemble. fold (q_heads hidden_states) (kv_heads hidden_states).
  rewrite option_guard_decide. destruct (decide _) as [(Hne & Hh & Hq)|]; [|discriminate].
  rewrite option_guard_decide. destruct (decide _) as [Hckv|]; [|discriminate].
  rewrite option_guard_decide. destruct (decide _) as [Hkv|]; [|discriminate].
  destruct (apply_rotary_pos_emb _ _ cos sin) as [[q_pe k_pe]|] eqn:Hrot; simpl; [|discriminate].
  rewrite option_guard_decide. destruct (decide _) as [Hdim|]; [|discriminate].
  pose proof (q_heads_shaped _ Hq) as Sq. pose proof (kv_heads_shaped _ Hkv) as Skv.
  rewrite (assign_content 0 rope) by assumption. simpl.
  destruct (assign_channels nope None _ q_pe) as [Q'|] eqn:HQ; simpl; [|discriminate].
  rewrite (assign_content 1 (v_head_dim cfg)) by assumption. simpl.
  destruct (assign_channels nope None _ k_pe) as [K'|] eqn:HK; simpl; [|discriminate].
  intros _. exists q_pe, k_pe.
  destruct (apply_rotary_extends _ _ _ _ _ _ Hrot) as (Heq & Hek & Eq & Ek & Hhq & Hhk).
  assert (Sqpe : head_shaped num_heads
                   (fun row => length row = rope /\ Nat.even (length row) = true)
                   hidden_states (tmap4 (drop nope) (q_heads hidden_states))).
  { apply head_shaped_Forall; [| apply last_dim_even_rows, Heq].
    eapply head_shaped_tmap4; [| exact Sq]. intros row Hrow. simpl in *.
    rewrite length_drop, Hrow. lia. }
  assert (Skpe : head_shaped 1
                   (fun row => length row = rope /\ Nat.even (length row) = true)
                   hidden_states (k_pe_of self hidden_states)).
  { apply head_shaped_Forall; [apply k_pe_shaped, Hckv | apply last_dim_even_rows, Hek]. }
  repeat split; try assumption.
  - eapply (fits_tensor nope rope num_heads num_heads);
      [exact Sqpe | exact Eq | | | exact Hh | exact HQ].
    + eapply Hhq, head_shaped_heads, Sqpe.
    + eapply head_shaped_impl; [| apply (content_shaped 0 rope); assumption]. auto.
  - eapply (fits_tensor nope rope num_heads 1);
      [exact Skpe | exact Ek | | | exact Hh | exact HK].
    + eapply Hhk, head_shaped_heads, Skpe.
    + eapply head_shaped_impl; [| apply (content_shaped 1 (v_head_dim cfg)); assumption]. auto.
Qed.

Lemma expanded_shape (h : nat) (P : vec -> Prop) (hidden_states : tensor3) (x : tensor4) :
  head_shaped 1 P hidden_states x ->
  head_shaped h P hidden_states (map (expand_heads h) x).
Proof.
  intros Hx. destruct (single_head_expand h _ _ _ Hx) as [Hf _].
  unfold head_shaped. apply Forall2_fmap_r. exact Hf.
Qed.

(** What a successful [assemble] returns. *)
Lemma assemble_inv (hidden_states cos sin : tensor3) (Q K V : tensor4) :
  assemble uninitialized self hidden_states cos sin = Some (Q, K, V) ->
  exists q_pe k_pe,
    assembles hidden_states cos sin q_pe k_pe
    /\ head_shaped num_heads (fun row => length row = (nope + rope)%nat)
         hidden_states (q_heads hidden_states)
    /\ head_shaped num_heads (fun row => length row = (nope + v_head_dim cfg)%nat)
         hidden_states (kv_heads hidden_states)
    /\ tmap4 (take nope) Q = tmap4 (take nope) (q_heads hidden_states)
    /\ tmap4 (drop nope) Q = q_pe
    /\ tmap4 (take nope) K = tmap4 (take nope) (kv_heads hidden_states)
    /\ tmap4 (drop nope) K = map (expand_heads num_heads) k_pe
    /\ V = padded_values hidden_states.
Proof.
  intros Ha. destruct (assemble_Some _ _ _ _ _ _ Ha) as (q_pe & k_pe & Hs).
  pose proof (assemble_closed _ _ _ _ _ Hs) as Hc. rewrite Ha in Hc.
  injection Hc as -> -> ->.
  pose proof Hs as (Hne & Hh & Hq & Hckv & Hkv & Hrot & Hdim & Rq & Rk).
  pose proof (q_heads_shaped _ Hq) as Sq. pose proof (kv_heads_shaped _ Hkv) as Skv.
  exists q_pe, k_pe. split; [exact Hs|]. split; [exact Sq|]. split; [exact Skv|].
  assert (Sq' : head_shaped num_heads (fun row => (nope <= length row)%nat)
                  hidden_states (q_heads hidden_states))
    by (eapply head_shaped_impl; [| exact Sq]; simpl; intros; lia).
  assert (Skv' : head_shaped num_heads (fun row => (nope <= length row)%nat)
                   hidden_states (kv_heads hidden_states))
    by (eapply head_shaped_impl; [| exact Skv]; simpl; intros; lia).
  assert (Hfresh : forall a, head_shaped num_heads (fun row => length row = (nope + rope)%nat)
                     hidden_states (new_empty uninitialized self a hidden_states)).
  { intros a. rewrite <- Hdim. apply new_empty_shaped. }
  destruct (head_shaped_expand _ _ _ _ Rq) as [Eq Eq'].
  destruct (single_head_expand num_heads _ _ _ Rk) as [Ek _].
  destruct (put_tensor_take_drop num_heads nope rope hidden_states _
              (q_heads hidden_states) q_pe (Hfresh 0%nat) Sq' Eq) as [HQt HQd].
  destruct (put_tensor_take_drop num_heads nope rope hidden_states _
              (kv_heads hidden_states) k_pe (Hfresh 1%nat) Skv' Ek) as [HKt HKd].
  unfold assigned. repeat split; try assumption.
  rewrite HQd. exact Eq'.
Qed.


End assemble_facts.
Lemma map_eq_Forall2 {A B C} (f : A -> C) (g : B -> C) (l : list A) (k : list B) :
  map f l = map g k -> Forall2 (fun x y => f x = g y) l k.
Proof.
  revert k. induction l as [|x l IH]; intros [|y k] Heq; simpl in Heq; try discriminate.
  - constructor.
  - injection Heq as Hxy Heq. constructor; [exact Hxy | apply IH, Heq].
Qed.

Lemma head_shaped_tmap4_inv (h : nat) (P : vec -> Prop) (f : vec -> vec)
    (hidden_states : tensor3) (x : tensor4) :
  head_shaped h P hidden_states (tmap4 f x) ->
  head_shaped h (fun row => P (f row)) hidden_states x.
Proof.
  unfold head_shaped, tmap4. intros Hx. apply Forall2_fmap_r in Hx.
  eapply Forall2_impl; [exact Hx|]. intros xb hb [Hh Hhb]. simpl in *.
  rewrite length_map in Hh. split; [exact Hh|].
  apply (proj1 (Forall_fmap _ _ _)) in Hhb.
  eapply Forall_impl; [exact Hhb|]. intros head [Hl Hrows]. simpl in *.
  rewrite length_map in Hl. split; [exact Hl|].
  apply (proj1 (Forall_fmap _ _ _)) in Hrows. exact Hrows.
Qed.

Lemma head_shaped_and (h : nat) (P Q : vec -> Prop) (hidden_states : tensor3) (x : tensor4) :
  head_shaped h P hidden_states x -> head_shaped h Q hidden_states x ->
  head_shaped h (fun row => P row /\ Q row) hidden_states x.
Proof.
  intros HP HQ. apply head_shaped_Forall; [exact HP|].
  apply (Forall2_Forall_r _ _ _ _ HQ). apply Forall_forall. intros xb _ hb [_ Hhb].
  eapply Forall_impl; [exact Hhb|]. simpl. tauto.
Qed.

(** A tensor whose content channels and positional channels are known has
    rows of the joint width. *)
Lemma joined_shape (h n r : nat) (hidden_states : tensor3) (x content positional : tensor4) :
  head_shaped h (fun row => (n <= length row)%nat) hidden_states content ->
  head_shaped h (fun row => length row = r) hidden_states positional ->
  tmap4 (take n) x = tmap4 (take n) content ->
  tmap4 (drop n) x = positional ->
  head_shaped h (fun row => length row = (n + r)%nat) hidden_states x.
Proof.
  intros Hc Hp Ht Hd.
  assert (H1 : head_shaped h (fun row => length (take n row) = n) hidden_states x).
  { apply (head_shaped_tmap4_inv h (fun row => length row = n) (take n)). rewrite Ht.
    eapply head_shaped_tmap4; [| exact Hc]. intros row Hrow. simpl in *.
    rewrite length_take. lia. }
  assert (H2 : head_shaped h (fun row => length (drop n row) = r) hidden_states x).
  { apply (head_shaped_tmap4_inv h (fun row => length row = r) (drop n)).
    rewrite Hd. exact Hp. }
  eapply head_shaped_impl; [| exact (head_shaped_and _ _ _ _ _ H1 H2)].
  intros row [Hrt Hrd]. simpl in *. rewrite length_take in Hrt. rewrite length_drop in Hrd. lia.
Qed.

Section assemble_claims.
Context (uninitialized : nat -> nat -> nat -> nat -> nat -> R) (self : DeepseekV3Attention).

#[local] Abbreviation cfg := (config self).
#[local] Abbreviation num_heads := (num_attention_heads (config self)).
#[local] Abbreviation nope := (qk_nope_head_dim (config self)).
#[local] Abbreviation rope := (qk_rope_head_dim (config self)).

(** The layout of the assembled query and key states. *)
Lemma assembled_shape (hidden_states cos sin : tensor3) (Q K V : tensor4) :
  assemble uninitialized self hidden_states cos sin = Some (Q, K, V) ->
  q_head_dim cfg = (nope + rope)%nat
  /\ head_shaped num_heads (fun row => length row = (nope + rope)%nat) hidden_states Q
  /\ head_shaped num_heads (fun row => length row = (nope + rope)%nat) hidden_states K.
Proof.
  intros Ha.
  destruct (assemble_inv _ _ _ _ _ _ _ _ Ha)
    as (q_pe & k_pe & Hs & Sq & Skv & HQt & HQd & HKt & HKd & HV).
  destruct Hs as (_ & _ & _ & _ & _ & _ & Hdim & Rq & Rk).
  assert (Sq' : head_shaped num_heads (fun row => (nope <= length row)%nat)
                  hidden_states (q_heads self hidden_states))
    by (eapply head_shaped_impl; [| exact Sq]; simpl; intros; lia).
  assert (Skv' : head_shaped num_heads (fun row => (nope <= length row)%nat)
                   hidden_states (kv_heads self hidden_states))
    by (eapply head_shaped_impl; [| exact Skv]; simpl; intros; lia).
  split; [exact Hdim|]. split.
  - exact (joined_shape _ _ _ _ _ _ _ Sq' Rq HQt HQd).
  - exact (joined_shape _ _ _ _ _ _ _ Skv' (expanded_shape num_heads _ _ _ Rk) HKt HKd).
Qed.

(** C7. In the query and key states assembled before the kernel call, the
    content channels are those of the projections [q_b_proj(...)] and
    [kv_b_proj(...)], untouched by the rotary embedding; the remaining
    [qk_rope_head_dim] channels are the output of [apply_rotary_pos_emb]. *)
Theorem content_channels_unrotated (hidden_states cos sin : tensor3) (Q K V : tensor4) :
  assemble uninitialized self hidden_states cos sin = Some (Q, K, V) ->
  tmap4 (take nope) Q = tmap4 (take nope) (q_heads self hidden_states)
  /\ tmap4 (take nope) K = tmap4 (take nope) (kv_heads self hidden_states)
  /\ rows_have_width (nope + rope) (q_heads self hidden_states)
  /\ exists q_pe k_pe,
       apply_rotary_pos_emb (tmap4 (drop nope) (q_heads self hidden_states))
         (k_pe_of self hidden_states) cos sin = Some (q_pe, k_pe)
       /\ tmap4 (drop nope) Q = q_pe
       /\ tmap4 (drop nope) K = map (expand_heads num_heads) k_pe.
Proof.
  intros Ha.
  destruct (assemble_inv _ _ _ _ _ _ _ _ Ha)
    as (q_pe & k_pe & Hs & Sq & _ & HQt & HQd & HKt & HKd & _).
  destruct Hs as (_ & _ & _ & _ & _ & Hrot & _).
  split; [exact HQt|]. split; [exact HKt|].
  split; [eapply head_shaped_width, Sq|].
  exists q_pe, k_pe. auto.
Qed.

(** C10. The positional key is rotated once, with a single head, and the
    slice assignment writes that head into the last [qk_rope_head_dim]
    channels of every head of the key states: in every batch entry the key
    states have [num_heads] heads whose rows have
    [qk_nope_head_dim + qk_rope_head_dim] channels, the channels after the
    first [qk_nope_head_dim] of every head are, position by position, the
    rows of the one head of the rotated [k_pe], and so they are equal for
    any two heads. *)
Theorem positional_key_shared_by_heads (hidden_states cos sin : tensor3) (Q K V : tensor4) :
  assemble uninitialized self hidden_states cos sin = Some (Q, K, V) ->
  exists q_pe k_pe,
    apply_rotary_pos_emb (tmap4 (drop nope) (q_heads self hidden_states))
      (k_pe_of self hidden_states) cos sin = Some (q_pe, k_pe)
    /\ Forall2 (fun Kb pb =>
         exists rotated,
           pb = [rotated]
           /\ Forall (fun row : vec => length row = rope) rotated
           /\ length Kb = num_heads
           /\ Forall (fun head =>
                Forall (fun row : vec => length row = (nope + rope)%nat) head
                /\ map (drop nope) head = rotated) Kb
           /\ forall h1 h2 head1 head2,
                Kb !! h1 = Some head1 -> Kb !! h2 = Some head2 ->
                map (drop nope) head1 = map (drop nope) head2) K k_pe.
Proof.
  intros Ha.
  destruct (assembled_shape _ _ _ _ _ _ Ha) as (_ & _ & SK).
  destruct (assemble_inv _ _ _ _ _ _ _ _ Ha)
    as (q_pe & k_pe & Hs & _ & _ & _ & _ & _ & HKd & _).
  destruct Hs as (_ & _ & _ & _ & _ & Hrot & _ & _ & Rk).
  exists q_pe, k_pe. split; [exact Hrot|].
  unfold tmap4 in HKd. apply map_eq_Forall2 in HKd.
  apply Forall2_same_length_lookup_2; [eapply Forall2_length, HKd|].
  intros b Kb pb HKb Hpb.
  pose proof (Forall2_lookup_lr _ _ _ _ _ _ HKd HKb Hpb) as Hb. simpl in Hb.
  destruct (Forall2_lookup_r _ _ _ _ _ SK HKb) as (xb & Hxb & HKl & HKrows).
  destruct (Forall2_lookup_lr _ _ _ _ _ _ Rk Hxb Hpb) as [Hpl Hprows].
  destruct pb as [|rotated [|? ?]]; try discriminate Hpl.
  apply Forall_cons in Hprows as [[_ Hrot_rows] _]. simpl in Hb.
  assert (Hat : forall h head, Kb !! h = Some head -> map (drop nope) head = rotated).
  { intros h head Hh.
    assert (Hl : map (map (drop nope)) Kb !! h = Some (map (drop nope) head))
      by (rewrite list_lookup_fmap, Hh; reflexivity).
    rewrite Hb in Hl. apply lookup_replicate_1 in Hl as [-> _]. reflexivity. }
  exists rotated. split; [reflexivity|]. split; [exact Hrot_rows|]. split; [exact HKl|].
  split.
  - apply Forall_lookup. intros h head Hh. split; [| exact (Hat h head Hh)].
    exact (proj2 (Forall_lookup_1 _ _ _ _ HKrows Hh)).
  - intros h1 h2 head1 head2 H1 H2. rewrite (Hat _ _ H1), (Hat _ _ H2). reflexivity.
Qed.

End assemble_claims.

(** A module with two heads, one content channel, two positional channels
    and one value channel per head, on hidden states of width one. *)
Definition small_config (implementation : string) : Config := {|
  num_attention_heads := 2; qk_rope_head_dim := 2; kv_lora_rank := 1; v_head_dim := 1;
  qk_nope_head_dim := 1; q_head_dim := 3; attn_implementation := implementation |}.

Definition small_attention (implementation : string) : DeepseekV3Attention := {|
  config := small_config implementation;
  layer_idx := 0;
  q_a_proj := {| lin_weight := [[1]]; lin_bias := None |};
  q_a_layernorm := fun x => x;
  q_b_proj := {| lin_weight := [[1]; [2]; [3]; [4]; [5]; [6]]; lin_bias := None |};
  kv_a_proj_with_mqa := {| lin_weight := [[1]; [2]; [3]]; lin_bias := None |};
  kv_a_layernorm := fun x => x;
  kv_b_proj := {| lin_weight := [[1]; [2]; [3]; [4]]; lin_bias := None |};
  o_proj := {| lin_weight := [[1; 1]]; lin_bias := None |};
  scaling := 1 |}.

(** Fresh memory that differs from one position to the next. *)
Definition stale (allocation b h s c : nat) : R := INR (allocation + b + h + s + c).

(** Two batch entries of one token each, with tables of batch size one:
    the tables are broadcast over the batch. *)
Definition two_batches : tensor3 := [[ [1] ]; [ [2] ]].

Lemma small_attention_assembles (implementation : string) :
  is_Some (assemble stale (small_attention implementation) two_batches
             [[ [1; 1] ]] [[ [0; 0] ]]).
Proof. eexists. reflexivity. Qed.

Lemma content_channels_unrotated_witness :
  let self := small_attention "eager" in
  exists Q K V,
    assemble stale self two_batches [[ [1; 1] ]] [[ [0; 0] ]] = Some (Q, K, V)
    /\ tmap4 (take 1) Q = tmap4 (take 1) (q_heads self two_batches)
    /\ tmap4 (take 1) K = tmap4 (take 1) (kv_heads self two_batches).
Proof.
  intros self.
  destruct (small_attention_assembles "eager") as [[[Q K] V] Ha].
  exists Q, K, V. split; [exact Ha|].
  destruct (content_channels_unrotated stale self _ _ _ _ _ _ Ha) as (HQ & HK & _).
  split; [exact HQ | exact HK].
Defined.

Lemma positional_key_shared_by_heads_witness :
  let self := small_attention "eager" in
  exists Q K V,
    assemble stale self two_batches [[ [1; 1] ]] [[ [0; 0] ]] = Some (Q, K, V)
    /\ exists q_pe k_pe,
         apply_rotary_pos_emb (tmap4 (drop 1) (q_heads self two_batches))
           (k_pe_of self two_batches) [[ [1; 1] ]] [[ [0; 0] ]] = Some (q_pe, k_pe)
         /\ Forall2 (fun Kb pb =>
              exists rotated,
                pb = [rotated]
                /\ Forall (fun row : vec => length row = 2%nat) rotated
                /\ length Kb = 2%nat
                /\ Forall (fun head =>
                     Forall (fun row : vec => length row = 3%nat) head
                     /\ map (drop 1) head = rotated) Kb
                /\ forall h1 h2 head1 head2,
                     Kb !! h1 = Some head1 -> Kb !! h2 = Some head2 ->
                     map (drop 1) head1 = map (drop 1) head2) K k_pe.
Proof.
  intros self.
  destruct (small_attention_assembles "eager") as [[[Q K] V] Ha].
  exists Q, K, V. split; [exact Ha|].
  exact (positional_key_shared_by_heads stale self _ _ _ _ _ _ Ha).
Defined.

(** *** Padding and truncation of the values *)

Lemma rows_have_width_tmap4 (d d' : nat) (f : vec -> vec) (x : tensor4) :
  (forall row, length row = d -> length (f row) = d') ->
  rows_have_width d x -> rows_have_width d' (tmap4 f x).
Proof.
  intros Hf Hx. unfold rows_have_width, tmap4 in *.
  apply Forall_fmap. eapply Forall_impl; [exact Hx|]. intros xb Hxb. simpl.
  apply Forall_fmap. eapply Forall_impl; [exact Hxb|]. intros xh Hxh. simpl.
  apply Forall_fmap. eapply Forall_impl; [exact Hxh|]. exact Hf.
Qed.

Lemma length_pad_last_any (p : Z) (row : vec) :
  length (pad_last p row) = Z.to_nat (Z.of_nat (length row) + p).
Proof.
  unfold pad_last. destruct (decide (0 <= p)%Z).
  - rewrite length_app, length_replicate. lia.
  - rewrite length_take. lia.
Qed.

Lemma tmap4_tmap4 (f g : vec -> vec) (x : tensor4) :
  tmap4 f (tmap4 g x) = tmap4 (fun row => f (g row)) x.
Proof.
  unfold tmap4. rewrite map_map. apply map_ext. intros xb.
  rewrite map_map. apply map_ext. intros xh. apply map_map.
Qed.

Lemma tmap4_ext_width (d : nat) (f g : vec -> vec) (x : tensor4) :
  (forall row, length row = d -> f row = g row) ->
  rows_have_width d x -> tmap4 f x = tmap4 g x.
Proof.
  intros Hfg Hx. unfold tmap4, rows_have_width in *.
  apply map_ext_Forall. eapply Forall_impl; [exact Hx|]. intros xb Hxb. simpl.
  apply map_ext_Forall. eapply Forall_impl; [exact Hxb|]. intros xh Hxh. simpl.
  apply map_ext_Forall. eapply Forall_impl; [exact Hxh|]. exact Hfg.
Qed.

(** A cache whose update keeps the head dimension of the values. *)
Definition cache_keeps_value_width (past_key_value : option Cache) : Prop :=
  match past_key_value with
  | None => True
  | Some cache =>
      forall k v layer sin cos d,
        rows_have_width d v -> rows_have_width d (cache_update cache k v layer sin cos).2
  end.

(** Lines 306-309: the key and value states after the cache. *)
Definition cached (self : DeepseekV3Attention) (past_key_value : option Cache)
    (key_states value_states : tensor4) (cos sin : tensor3) : tensor4 * tensor4 :=
  match past_key_value with
  | Some cache => cache_update cache key_states value_states (layer_idx self) sin cos
  | None => (key_states, value_states)
  end.

Section padding.
Context `{Kernels} (uninitialized : nat -> nat -> nat -> nat -> nat -> R)
  (self : DeepseekV3Attention).

#[local] Abbreviation cfg := (config self).
#[local] Abbreviation nope := (qk_nope_head_dim (config self)).

(** The value heads before any padding: the last [v_head_dim] channels of
    the heads of [kv_b_proj]. *)
Definition value_heads (hidden_states : tensor3) : tensor4 :=
  tmap4 (drop nope) (kv_heads self hidden_states).

Lemma value_heads_width (hidden_states cos sin : tensor3) (Q K V : tensor4) :
  assemble uninitialized self hidden_states cos sin = Some (Q, K, V) ->
  rows_have_width (v_head_dim cfg) (value_heads hidden_states).
Proof.
  intros Ha.
  destruct (assemble_inv _ _ _ _ _ _ _ _ Ha) as (_ & _ & _ & _ & Skv & _).
  apply (rows_have_width_tmap4 (nope + v_head_dim cfg)).
  - intros row Hrow. rewrite length_drop, Hrow. lia.
  - eapply head_shaped_width, Skv.
Qed.

Lemma assembled_values (hidden_states cos sin : tensor3) (Q K V : tensor4) :
  assemble uninitialized self hidden_states cos sin = Some (Q, K, V) ->
  V = if decide (pads_value self)
      then tmap4 (pad_last (Z.of_nat (q_head_dim cfg) - Z.of_nat (v_head_dim cfg)))
             (value_heads hidden_states)
      else value_heads hidden_states.
Proof.
  intros Ha.
  destruct (assemble_inv _ _ _ _ _ _ _ _ Ha) as (_ & _ & _ & _ & _ & _ & _ & _ & _ & HV).
  exact HV.
Qed.

Lemma attention_interface_keeps_width (output_attentions : bool) (f : kernel) :
  attention_interface self output_attentions = Some f -> keeps_value_width f.
Proof.
  unfold attention_interface.
  destruct (decide _); [intros [= <-]; apply eager_keeps_width|].
  destruct (decide _); [intros [= <-]; apply eager_keeps_width|].
  apply registered_keep_width.
Qed.

(** What [attention_heads] returns, in terms of the assembled states, the
    cache and the chosen kernel. *)
Lemma attention_heads_inv (hidden_states cos sin : tensor3)
    (attention_mask : option tensor4) (past_key_value : option Cache)
    (output_attentions : bool) (attn_output : tensor4) (attn_weights : option tensor4) :
  attention_heads uninitialized self hidden_states (cos, sin) attention_mask
    past_key_value output_attentions = Some (attn_output, attn_weights) ->
  exists Q K V interface,
    assemble uninitialized self hidden_states cos sin = Some (Q, K, V)
    /\ attention_interface self output_attentions = Some interface
    /\ let kv := cached self past_key_value K V cos sin in
       let result := interface Q kv.1 kv.2 attention_mask (scaling self) in
       attn_output = (if decide (pads_value self)
                      then tmap4 (take (v_head_dim cfg)) result.1 else result.1)
       /\ attn_weights = result.2.
Proof.
  unfold attention_heads.
  destruct (assemble _ _ _ _ _) as [[[Q K] V]|] eqn:Ha; simpl; [|discriminate].
  fold (cached self past_key_value K V cos sin).
  destruct (cached self past_key_value K V cos sin) as [K' V'] eqn:Hc.
  destruct (attention_interface self output_attentions) as [f|] eqn:Hf; simpl; [|discriminate].
  destruct (f Q K' V' attention_mask (scaling self)) as [o w] eqn:Hk.
  intros [= <- <-]. exists Q, K, V, f.
  split; [reflexivity|]. split; [reflexivity|]. simpl. rewrite Hc. simpl. rewrite Hk.
  split; reflexivity.
Qed.

(** C9. On the path that pads the values ([flash_attention_2] with
    [v_head_dim < q_head_dim]) the values are the value heads followed by
    zeros up to [q_head_dim] channels, they reach the kernel, through the
    cache, with [q_head_dim] channels, and the attention output handed to
    [reshape] and to the output projection is the output of that kernel call
    cut back to its first [v_head_dim] channels: every per-head row has width
    [v_head_dim] and the flattened rows have [v_head_dim] channels per
    head. *)
Theorem padded_output_truncated (hidden_states cos sin : tensor3)
    (attention_mask : option tensor4) (past_key_value : option Cache)
    (output_attentions : bool) (attn_output : tensor4) (attn_weights : option tensor4) :
  pads_value self ->
  (v_head_dim cfg < q_head_dim cfg)%nat ->
  cache_keeps_value_width past_key_value ->
  attention_heads uninitialized self hidden_states (cos, sin) attention_mask
    past_key_value output_attentions = Some (attn_output, attn_weights) ->
  rows_have_width (v_head_dim cfg) attn_output
  /\ Forall (Forall (fun per_head =>
       length (mjoin per_head) = (length per_head * v_head_dim cfg)%nat)) attn_output
  /\ exists Q K V interface,
       assemble uninitialized self hidden_states cos sin = Some (Q, K, V)
       /\ attention_interface self output_attentions = Some interface
       /\ V = tmap4 (fun row => row ++ replicate (q_head_dim cfg - v_head_dim cfg) 0)
                (value_heads hidden_states)
       /\ let kv := cached self past_key_value K V cos sin in
          let kernel_output := (interface Q kv.1 kv.2 attention_mask (scaling self)).1 in
          rows_have_width (q_head_dim cfg) kv.2
          /\ rows_have_width (q_head_dim cfg) kernel_output
          /\ attn_output = tmap4 (take (v_head_dim cfg)) kernel_output.
Proof.
  intros Hpad Hvq Hcache Hheads.
  destruct (attention_heads_inv _ _ _ _ _ _ _ _ Hheads)
    as (Q & K & V & f & Ha & Hf & Hout & _).
  simpl in Hout. destruct (decide (pads_value self)) as [_|]; [|contradiction].
  pose proof (value_heads_width _ _ _ _ _ _ Ha) as Hw.
  pose proof (assembled_values _ _ _ _ _ _ Ha) as HV.
  destruct (decide (pads_value self)) as [_|]; [|contradiction].
  assert (HV' : V = tmap4 (fun row => row ++ replicate (q_head_dim cfg - v_head_dim cfg) 0)
                      (value_heads hidden_states)).
  { rewrite HV. apply (tmap4_ext_width (v_head_dim cfg)); [| exact Hw].
    intros row _. unfold pad_last. destruct (decide _) as [_|Hn]; [|lia].
    do 2 f_equal. lia. }
  assert (HVw : rows_have_width (q_head_dim cfg) V).
  { rewrite HV'. apply (rows_have_width_tmap4 (v_head_dim cfg)); [| exact Hw].
    intros row Hrow. rewrite length_app, length_replicate, Hrow. lia. }
  assert (HVw' : rows_have_width (q_head_dim cfg) (cached self past_key_value K V cos sin).2).
  { unfold cached. destruct past_key_value as [cache|]; [apply Hcache, HVw | exact HVw]. }
  pose proof (attention_interface_keeps_width _ _ Hf Q
                (cached self past_key_value K V cos sin).1 _ attention_mask (scaling self)
                _ HVw') as Ho.
  assert (Hrows : rows_have_width (v_head_dim cfg) attn_output).
  { rewrite Hout. apply (rows_have_width_tmap4 (q_head_dim cfg)); [| exact Ho].
    intros row Hrow. rewrite length_take, Hrow. lia. }
  split; [exact Hrows|]. split.
  - eapply Forall_impl; [exact Hrows|]. intros ob Hob. simpl.
    eapply Forall_impl; [exact Hob|]. intros per_head Hper. simpl.
    apply MoE.join_length_uniform. exact Hper.
  - exists Q, K, V, f. simpl.
    split; [exact Ha|]. split; [exact Hf|]. split; [exact HV'|].
    split; [exact HVw'|]. split; [exact Ho | exact Hout].
Qed.

End padding.

(** A kernel in which every position attends to itself only: the output at
    a position is, head by head, the value at that position. *)
Definition self_attending : kernel :=
  fun q k v mask scaling =>
    (map (fun vb : list (list vec) =>
        map (fun s => omap (fun head : list vec => head !! s) vb)
          (seq 0 (length (default [] (vb !! 0%nat))))) v,
     None).

Lemma self_attending_keeps_width : keeps_value_width self_attending.
Proof.
  intros q k v mask scaling d Hv. unfold self_attending, rows_have_width in *. simpl.
  apply Forall_fmap. eapply Forall_impl; [exact Hv|]. intros vb Hvb. simpl.
  apply Forall_fmap, Forall_forall. intros s _. simpl.
  apply Forall_forall. intros row Hrow.
  apply list_elem_of_omap in Hrow as (head & Hhead & Hs).
  rewrite Forall_forall in Hvb. specialize (Hvb head Hhead).
  rewrite Forall_forall in Hvb. apply Hvb. eapply list_elem_of_lookup_2, Hs.
Qed.

#[global] Instance small_kernels : Kernels.
Proof.
  refine {| eager_attention_forward := self_attending;
            ALL_ATTENTION_FUNCTIONS := {[ "flash_attention_2"%string := self_attending ]} |}.
  - exact self_attending_keeps_width.
  - intros name f Hf. apply lookup_singleton_Some in Hf as [_ <-].
    exact self_attending_keeps_width.
Defined.

Lemma padded_output_truncated_witness :
  let self := small_attention "flash_attention_2" in
  exists attn_output attn_weights,
    attention_heads (H := small_kernels) stale self two_batches ([[ [1; 1] ]], [[ [0; 0] ]])
      None None false = Some (attn_output, attn_weights)
    /\ rows_have_width 1 attn_output
    /\ Forall (Forall (fun per_head => length (mjoin per_head) = (length per_head * 1)%nat))
         attn_output.
Proof.
  intros self.
  assert (Hsome : is_Some (attention_heads (H := small_kernels) stale self two_batches
                             ([[ [1; 1] ]], [[ [0; 0] ]]) None None false))
    by (eexists; reflexivity).
  destruct Hsome as [[attn_output attn_weights] Hf].
  exists attn_output, attn_weights. split; [exact Hf|].
  assert (Hpad : pads_value self) by (split; [reflexivity | discriminate]).
  assert (Hvq : (v_head_dim (config self) < q_head_dim (config self))%nat) by (simpl; lia).
  destruct (padded_output_truncated (H := small_kernels) stale self _ _ _ None None false _ _
              Hpad Hvq I Hf) as (Hw & Hflat & _).
  split; [exact Hw | exact Hflat].
Defined.

(** *** Fresh memory, layouts and the choice of the kernel *)

Lemma map_pair_inj {A B C} (f : A -> B) (g : A -> C) :
  (forall x y, f x = f y -> g x = g y -> x = y) ->
  forall l l', map f l = map f l' -> map g l = map g l' -> l = l'.
Proof.
  intros Hinj l. induction l as [|x l IH]; intros [|y l'] Hf Hg; simpl in *;
    try discriminate; [reflexivity|].
  injection Hf as Hf1 Hf2. injection Hg as Hg1 Hg2.
  f_equal; [apply Hinj; assumption | apply IH; assumption].
Qed.

Lemma tmap4_take_drop_inj (n : nat) (x y : tensor4) :
  tmap4 (take n) x = tmap4 (take n) y -> tmap4 (drop n) x = tmap4 (drop n) y -> x = y.
Proof.
  unfold tmap4. apply map_pair_inj. apply map_pair_inj. apply map_pair_inj.
  intros a b Ht Hd. rewrite <- (take_drop n a), <- (take_drop n b), Ht, Hd. reflexivity.
Qed.

(** Whether [assemble] returns does not depend on the fresh memory. *)
Lemma assemble_defined (u u' : nat -> nat -> nat -> nat -> nat -> R)
    (self : DeepseekV3Attention) (hidden_states cos sin : tensor3) :
  assemble u self hidden_states cos sin = None ->
  assemble u' self hidden_states cos sin = None.
Proof.
  intros Hnone.
  destruct (assemble u' self hidden_states cos sin) as [[[Q K] V]|] eqn:E; [|reflexivity].
  destruct (assemble_Some _ _ _ _ _ _ _ _ E) as (q_pe & k_pe & Hs).
  rewrite (assemble_closed u self _ _ _ _ _ Hs) in Hnone. discriminate Hnone.
Qed.

(** X17. The query and key tensors are allocated with [new_empty] and then
    filled by slice assignments; whatever [assemble] returns does not depend
    on the contents of that fresh memory: every channel is overwritten. *)
Theorem assemble_ignores_fresh_memory (u u' : nat -> nat -> nat -> nat -> nat -> R)
    (self : DeepseekV3Attention) (hidden_states cos sin : tensor3) :
  assemble u self hidden_states cos sin = assemble u' self hidden_states cos sin.
Proof.
  destruct (assemble u self hidden_states cos sin) as [[[Q K] V]|] eqn:E;
    destruct (assemble u' self hidden_states cos sin) as [[[Q' K'] V']|] eqn:E'.
  - destruct (assemble_inv _ _ _ _ _ _ _ _ E)
      as (q_pe & k_pe & Hs & _ & _ & HQt & HQd & HKt & HKd & HV).
    destruct (assemble_inv _ _ _ _ _ _ _ _ E')
      as (q_pe' & k_pe' & Hs' & _ & _ & HQt' & HQd' & HKt' & HKd' & HV').
    destruct Hs as (_ & _ & _ & _ & _ & Hrot & _).
    destruct Hs' as (_ & _ & _ & _ & _ & Hrot' & _).
    rewrite Hrot in Hrot'. injection Hrot' as <- <-.
    assert (HQ : Q = Q').
    { apply (tmap4_take_drop_inj (qk_nope_head_dim (config self))); congruence. }
    assert (HK : K = K').
    { apply (tmap4_take_drop_inj (qk_nope_head_dim (config self))); congruence. }
    congruence.
  - apply (assemble_defined u' u) in E'. congruence.
  - apply (assemble_defined u u') in E. congruence.
  - reflexivity.
Qed.

Section layout.
Context (uninitialized : nat -> nat -> nat -> nat -> nat -> R) (self : DeepseekV3Attention).

#[local] Abbreviation cfg := (config self).
#[local] Abbreviation num_heads := (num_attention_heads (config self)).
#[local] Abbreviation nope := (qk_nope_head_dim (config self)).
#[local] Abbreviation rope := (qk_rope_head_dim (config self)).

(** X18. The states handed to the cache and to the kernel have the layout
    [batch][head][position][channel] of the hidden states: one entry per
    batch entry, [num_heads] heads each (the single positional key head is
    expanded to all of them), one row per position; query and key rows have
    [q_head_dim] channels, value rows [v_head_dim] channels, or [q_head_dim]
    on the path that pads the values. *)
Theorem assembled_states_layout (hidden_states cos sin : tensor3) (Q K V : tensor4) :
  assemble uninitialized self hidden_states cos sin = Some (Q, K, V) ->
  head_shaped num_heads (fun row => length row = q_head_dim cfg) hidden_states Q
  /\ head_shaped num_heads (fun row => length row = q_head_dim cfg) hidden_states K
  /\ head_shaped num_heads
       (fun row => length row = if decide (pads_value self) then q_head_dim cfg
                                else v_head_dim cfg)
       hidden_states V.
Proof.
  intros Ha. destruct (assembled_shape _ _ _ _ _ _ _ _ Ha) as (Hdim & SQ & SK).
  destruct (assemble_inv _ _ _ _ _ _ _ _ Ha) as (_ & _ & _ & _ & Skv & _ & _ & _ & _ & HV).
  split; [| split].
  - eapply head_shaped_impl; [| exact SQ]. intros row Hrow. simpl in *. lia.
  - eapply head_shaped_impl; [| exact SK]. intros row Hrow. simpl in *. lia.
  - assert (Sv : head_shaped num_heads (fun row => length row = v_head_dim cfg)
                   hidden_states (tmap4 (drop nope) (kv_heads self hidden_states))).
    { eapply head_shaped_tmap4; [| exact Skv]. intros row Hrow. simpl in *.
      rewrite length_drop, Hrow. lia. }
    rewrite HV. unfold padded_values. destruct (decide (pads_value self)); [| exact Sv].
    eapply head_shaped_tmap4; [| exact Sv]. intros row Hrow. simpl in *.
    rewrite length_pad_last_any, Hrow. lia.
Qed.

End layout.

Lemma assembled_states_layout_witness :
  let self := small_attention "flash_attention_2" in
  exists Q K V,
    assemble stale self two_batches [[ [1; 1] ]] [[ [0; 0] ]] = Some (Q, K, V)
    /\ head_shaped 2 (fun row => length row = 3%nat) two_batches Q
    /\ head_shaped 2 (fun row => length row = 3%nat) two_batches K
    /\ head_shaped 2 (fun row => length row = 3%nat) two_batches V.
Proof.
  intros self.
  destruct (small_attention_assembles "flash_attention_2") as [[[Q K] V] Ha].
  exists Q, K, V. split; [exact Ha|].
  destruct (assembled_states_layout stale self _ _ _ _ _ _ Ha) as (HQ & HK & HV).
  split; [exact HQ|]. split; [exact HK|].
  destruct (decide (pads_value self)) as [_|Hn]; [exact HV|].
  exfalso. apply Hn. split; [reflexivity | discriminate].
Defined.

(** *** The values on the padding path and the fallback to the eager kernel *)

(** The module with another attention implementation selected. *)
Definition with_implementation (name : string) (self : DeepseekV3Attention)
    : DeepseekV3Attention := {|
  config := {|
    num_attention_heads := num_attention_heads (config self);
    qk_rope_head_dim := qk_rope_head_dim (config self);
    kv_lora_rank := kv_lora_rank (config self);
    v_head_dim := v_head_dim (config self);
    qk_nope_head_dim := qk_nope_head_dim (config self);
    q_head_dim := q_head_dim (config self);
    attn_implementation := name |};
  layer_idx := layer_idx self;
  q_a_proj := q_a_proj self;
  q_a_layernorm := q_a_layernorm self;
  q_b_proj := q_b_proj self;
  kv_a_proj_with_mqa := kv_a_proj_with_mqa self;
  kv_a_layernorm := kv_a_layernorm self;
  kv_b_proj := kv_b_proj self;
  o_proj := o_proj self;
  scaling := scaling self |}.

Section values.
Context `{Kernels} (uninitialized : nat -> nat -> nat -> nat -> nat -> R)
  (self : DeepseekV3Attention).

#[local] Abbreviation cfg := (config self).
#[local] Abbreviation nope := (qk_nope_head_dim (config self)).

(** X19. On the path that pads the values with [v_head_dim <= q_head_dim],
    [F.pad] only appends zeros: the first [v_head_dim] channels of every
    padded value row are the value row itself, which is what the slice after
    the kernel keeps, and the remaining [q_head_dim - v_head_dim] channels
    are zero. *)
Theorem padding_appends_zeros (hidden_states cos sin : tensor3) (Q K V : tensor4) :
  pads_value self ->
  (v_head_dim cfg <= q_head_dim cfg)%nat ->
  assemble uninitialized self hidden_states cos sin = Some (Q, K, V) ->
  tmap4 (take (v_head_dim cfg)) V = value_heads self hidden_states
  /\ tmap4 (drop (v_head_dim cfg)) V
     = tmap4 (fun _ => replicate (q_head_dim cfg - v_head_dim cfg) 0)
         (value_heads self hidden_states).
Proof.
  intros Hpad Hvq Ha.
  pose proof (value_heads_width _ _ _ _ _ _ _ _ Ha) as Hw.
  pose proof (assembled_values _ _ _ _ _ _ _ _ Ha) as HV.
  destruct (decide (pads_value self)) as [_|]; [|contradiction].
  rewrite HV, !tmap4_tmap4.
  assert (Hp : forall row, length row = v_head_dim cfg ->
            pad_last (Z.of_nat (q_head_dim cfg) - Z.of_nat (v_head_dim cfg)) row
            = row ++ replicate (q_head_dim cfg - v_head_dim cfg) 0).
  { intros row Hrow. unfold pad_last. destruct (decide _) as [_|Hn]; [|lia].
    do 2 f_equal. lia. }
  split.
  - transitivity (tmap4 (fun row => row) (value_heads self hidden_states)).
    + apply (tmap4_ext_width (v_head_dim cfg)); [| exact Hw].
      intros row Hrow. rewrite (Hp row Hrow), <- Hrow. apply take_app_length.
    + unfold tmap4. rewrite <- (map_id (value_heads self hidden_states)) at 2.
      apply map_ext. intros xb. rewrite <- (map_id xb) at 2.
      apply map_ext. intros xh. apply map_id.
  - apply (tmap4_ext_width (v_head_dim cfg)); [| exact Hw].
    intros row Hrow. rewrite (Hp row Hrow), <- Hrow. apply drop_app_length.
Qed.

(** X20. With [flash_attention_2] and [v_head_dim > q_head_dim] the amount
    handed to [F.pad] is negative: the value rows lose their last
    [v_head_dim - q_head_dim] channels before the kernel, the slice after the
    kernel restores nothing, and the per-head output rows have [q_head_dim]
    channels instead of [v_head_dim]. *)
Theorem oversized_values_are_cropped (hidden_states cos sin : tensor3)
    (attention_mask : option tensor4) (past_key_value : option Cache)
    (output_attentions : bool) (attn_output : tensor4) (attn_weights : option tensor4) :
  pads_value self ->
  (q_head_dim cfg < v_head_dim cfg)%nat ->
  cache_keeps_value_width past_key_value ->
  attention_heads uninitialized self hidden_states (cos, sin) attention_mask
    past_key_value output_attentions = Some (attn_output, attn_weights) ->
  rows_have_width (q_head_dim cfg) attn_output
  /\ exists Q K V,
       assemble uninitialized self hidden_states cos sin = Some (Q, K, V)
       /\ V = tmap4 (take (q_head_dim cfg)) (value_heads self hidden_states).
Proof.
  intros Hpad Hqv Hcache Hheads.
  destruct (attention_heads_inv _ _ _ _ _ _ _ _ _ _ Hheads)
    as (Q & K & V & f & Ha & Hf & Hout & _).
  simpl in Hout. destruct (decide (pads_value self)) as [_|]; [|contradiction].
  pose proof (value_heads_width _ _ _ _ _ _ _ _ Ha) as Hw.
  pose proof (assembled_values _ _ _ _ _ _ _ _ Ha) as HV.
  destruct (decide (pads_value self)) as [_|]; [|contradiction].
  assert (HV' : V = tmap4 (take (q_head_dim cfg)) (value_heads self hidden_states)).
  { rewrite HV. apply (tmap4_ext_width (v_head_dim cfg)); [| exact Hw].
    intros row Hrow. unfold pad_last. destruct (decide _) as [|_]; [lia|].
    f_equal. lia. }
  assert (HVw : rows_have_width (q_head_dim cfg) V).
  { rewrite HV'. apply (rows_have_width_tmap4 (v_head_dim cfg)); [| exact Hw].
    intros row Hrow. rewrite length_take, Hrow. lia. }
  assert (HVw' : rows_have_width (q_head_dim cfg) (cached self past_key_value K V cos sin).2).
  { unfold cached. destruct past_key_value as [cache|]; [apply Hcache, HVw | exact HVw]. }
  pose proof (attention_interface_keeps_width _ _ _ Hf Q
                (cached self past_key_value K V cos sin).1 _ attention_mask (scaling self)
                _ HVw') as Ho.
  split.
  - rewrite Hout. apply (rows_have_width_tmap4 (q_head_dim cfg)); [| exact Ho].
    intros row Hrow. rewrite length_take, Hrow. lia.
  - exists Q, K, V. split; [exact Ha | exact HV'].
Qed.

(** X21. When [sdpa] is selected and the attention weights are requested,
    the table of registered kernels is not consulted: [forward] returns what
    the same module returns with the [eager] implementation selected. *)
Theorem sdpa_with_weights_runs_eager (hidden_states : tensor3)
    (position_embeddings : tensor3 * tensor3) (attention_mask : option tensor4)
    (past_key_value : option Cache) :
  attn_implementation cfg = "sdpa"%string ->
  forward uninitialized self hidden_states position_embeddings attention_mask
    past_key_value true
  = forward uninitialized (with_implementation "eager" self) hidden_states
      position_embeddings attention_mask past_key_value true.
Proof.
  intros Himpl. unfold forward, attention_heads. destruct position_embeddings as [cos sin].
  assert (Hno : ~ pads_value self).
  { intros [Hf _]. rewrite Himpl in Hf. discriminate Hf. }
  assert (Hno' : ~ pads_value (with_implementation "eager" self)).
  { intros [Hf _]. discriminate Hf. }
  assert (Ha : assemble uninitialized (with_implementation "eager" self) hidden_states cos sin
               = assemble uninitialized self hidden_states cos sin).
  { unfold assemble.
    destruct (decide (pads_value self)); [contradiction|].
    destruct (decide (pads_value (with_implementation "eager" self))); [contradiction|].
    reflexivity. }
  rewrite Ha.
  assert (Hi : attention_interface self true = Some eager_attention_forward).
  { unfold attention_interface. rewrite Himpl.
    destruct (decide _) as [Hd|_]; [discriminate Hd|].
    destruct (decide _) as [_|Hn]; [reflexivity | exfalso; apply Hn; split; reflexivity]. }
  assert (Hi' : attention_interface (with_implementation "eager" self) true
                = Some eager_attention_forward).
  { unfold attention_interface.
    destruct (decide (_ = "eager"%string)) as [_|Hn];
      [reflexivity | exfalso; apply Hn; reflexivity]. }
  rewrite Hi, Hi'.
  destruct (decide (pads_value self)); [contradiction|].
  destruct (decide (pads_value (with_implementation "eager" self))); [contradiction|].
  reflexivity.
Qed.

End values.

Lemma padding_appends_zeros_witness :
  let self := small_attention "flash_attention_2" in
  exists Q K V,
    assemble stale self two_batches [[ [1; 1] ]] [[ [0; 0] ]] = Some (Q, K, V)
    /\ tmap4 (take 1) V = value_heads self two_batches
    /\ tmap4 (drop 1) V = tmap4 (fun _ => [0; 0]) (value_heads self two_batches).
Proof.
  intros self.
  destruct (small_attention_assembles "flash_attention_2") as [[[Q K] V] Ha].
  exists Q, K, V. split; [exact Ha|].
  assert (Hpad : pads_value self) by (split; [reflexivity | discriminate]).
  assert (Hvq : (v_head_dim (config self) <= q_head_dim (config self))%nat) by (simpl; lia).
  exact (padding_appends_zeros stale self _ _ _ _ _ _ Hpad Hvq Ha).
Defined.

(** A module whose value heads are wider than its query heads: two heads,
    one content channel, two positional channels and four value channels. *)
Definition wide_value_attention : DeepseekV3Attention := {|
  config := {|
    num_attention_heads := 2; qk_rope_head_dim := 2; kv_lora_rank := 1; v_head_dim := 4;
    qk_nope_head_dim := 1; q_head_dim := 3; attn_implementation := "flash_attention_2" |};
  layer_idx := 0;
  q_a_proj := {| lin_weight := [[1]]; lin_bias := None |};
  q_a_layernorm := fun x => x;
  q_b_proj := {| lin_weight := [[1]; [2]; [3]; [4]; [5]; [6]]; lin_bias := None |};
  kv_a_proj_with_mqa := {| lin_weight := [[1]; [2]; [3]]; lin_bias := None |};
  kv_a_layernorm := fun x => x;
  kv_b_proj :=
    {| lin_weight := [[1]; [2]; [3]; [4]; [5]; [6]; [7]; [8]; [9]; [10]]; lin_bias := None |};
  o_proj := {| lin_weight := [[1; 1; 1; 1; 1; 1; 1; 1]]; lin_bias := None |};
  scaling := 1 |}.

Lemma oversized_values_are_cropped_witness :
  exists attn_output attn_weights,
    attention_heads (H := small_kernels) stale wide_value_attention two_batches
      ([[ [1; 1] ]], [[ [0; 0] ]]) None None false = Some (attn_output, attn_weights)
    /\ rows_have_width 3 attn_output.
Proof.
  assert (Hsome : is_Some (attention_heads (H := small_kernels) stale wide_value_attention
                             two_batches ([[ [1; 1] ]], [[ [0; 0] ]]) None None false))
    by (eexists; reflexivity).
  destruct Hsome as [[attn_output attn_weights] Hf].
  exists attn_output, attn_weights. split; [exact Hf|].
  assert (Hpad : pads_value wide_value_attention) by (split; [reflexivity | discriminate]).
  assert (Hqv : (q_head_dim (config wide_value_attention)
                 < v_head_dim (config wide_value_attention))%nat) by (simpl; lia).
  exact (proj1 (oversized_values_are_cropped (H := small_kernels) stale wide_value_attention
                  _ _ _ None None false _ _ Hpad Hqv I Hf)).
Defined.

Lemma sdpa_with_weights_runs_eager_witness :
  forward (H := small_kernels) stale (small_attention "sdpa") two_batches
    ([[ [1; 1] ]], [[ [0; 0] ]]) None None true
  = forward (H := small_kernels) stale (with_implementation "eager" (small_attention "sdpa"))
      two_batches ([[ [1; 1] ]], [[ [0; 0] ]]) None None true.
Proof.
  apply (sdpa_with_weights_runs_eager (H := small_kernels) stale (small_attention "sdpa")).
  reflexivity.
Defined.

End Attention.
